(** * Telegram channel digest: collection, budget and delivery chunking

    A shallow embedding of the two digest scripts

      - [scripts/digest/telegram-digest-public.py]  (scrape variant)
      - [scripts/digest/telegram-digest.py]         (client variant)

    and the properties of their collection, filtering, budget, chunking
    and delivery code.

    Modelling choices.
    - Python [str] values are lists of characters and [len] is the list
      length.  Character classes ([\w], [\s], [str.lower], [str.strip])
      are the ones Python uses on ASCII text; characters above 127 are
      treated as plain symbols (neither word characters nor whitespace).
    - Python integers are [Z]; instants are seconds, so the cutoff is
      [now - lookbackHours * 3600].
    - [re.sub] is a left-to-right scan with one matcher per pattern.
    - The scrape variant talks to the network: [client.get] is answered by
      a server that may depend on the whole history, and every call of
      [client.get] and every pause is recorded in a trace threaded through
      a state monad.  Redirects are followed by the HTTP library inside a
      call; the trace has the call with its final outcome.  A page
      is the parsed document: whether history is unavailable, and the
      message widgets with their [data-post] id, their time and their text
      as the selectors and parsers of [parse_messages] deliver them.
    - The client variant reads from a Telethon client given by two
      functions, [get_entity] and [iter_messages].
    - The rest of a run ([summarize], [send_to_telegram], [run_digest],
      [main]) is a computation over the list of actions it performs; it
      ends with a value, in [sys.exit(1)], or in an exception that nothing
      catches.  Gemini, the Bot API and the clock are functions given
      from outside, the two prompt texts are parameters, the environment
      variables are a record, and logging is left out. *)

From Stdlib Require Import Ascii String Numbers.DecimalString.
From Stdlib Require Import ZArith Lia Bool Arith List.
From Stdlib Require Import Sorted Permutation.
Import ListNotations.
Local Open Scope list_scope.

Set Implicit Arguments.

(** ** Strings *)

Definition str := list ascii.

Definition lit (s : string) : str := list_ascii_of_string s.

Definition NL : ascii := "010"%char.
Definition SP : ascii := " "%char.

Definition len (s : str) : Z := Z.of_nat (length s).

Definition str_eqb (a b : str) : bool :=
  if list_eq_dec ascii_dec a b then true else false.

Definition null {A} (l : list A) : bool :=
  match l with [] => true | _ => false end.

Definition code (c : ascii) : nat := nat_of_ascii c.

Definition in_range (lo hi : nat) (c : ascii) : bool :=
  (lo <=? code c)%nat && (code c <=? hi)%nat.

(** [\w] on ASCII text: letters, digits and the underscore. *)
Definition is_word (c : ascii) : bool :=
  in_range 48 57 c || in_range 65 90 c || in_range 97 122 c || (code c =? 95)%nat.

(** [\s] and the characters removed by [str.strip()]:
    TAB, LF, VT, FF, CR, FS, GS, RS, US and the space. *)
Definition is_space (c : ascii) : bool :=
  in_range 9 13 c || in_range 28 32 c.

Definition is_nl (c : ascii) : bool := Ascii.eqb c NL.
Definition is_sp (c : ascii) : bool := Ascii.eqb c SP.

(** [str.lower()] on one character. *)
Definition lower_char (c : ascii) : ascii :=
  if in_range 65 90 c then ascii_of_nat (code c + 32) else c.

Definition lower (s : str) : str := map lower_char s.

Fixpoint lstrip_by (p : ascii -> bool) (s : str) : str :=
  match s with
  | c :: t => if p c then lstrip_by p t else s
  | [] => []
  end.

Fixpoint rstrip_by (p : ascii -> bool) (s : str) : str :=
  match s with
  | c :: t =>
      let t' := rstrip_by p t in
      if p c && null t' then [] else c :: t'
  | [] => []
  end.

(** [s.strip()] *)
Definition strip (s : str) : str := rstrip_by is_space (lstrip_by is_space s).

(** [sep.join(parts)] *)
Fixpoint join (sep : str) (parts : list str) : str :=
  match parts with
  | [] => []
  | [p] => p
  | p :: rest => p ++ sep ++ join sep rest
  end.

(** ** Regular-expression substitution

    [re.sub(pattern, repl, text)] scans [text] from the left; at each
    position the pattern is tried, a match (never empty for the patterns
    used here) is replaced by [repl] and the scan resumes right after it,
    otherwise the character is copied.  The pattern is given as a matcher
    returning the length of the match at the head of the remaining text.
    [skip] counts the characters of the current match still to be
    consumed. *)

Definition matcher := str -> option nat.

Fixpoint re_sub_from (m : matcher) (repl : str) (skip : nat) (s : str) : str :=
  match s with
  | [] => []
  | c :: t =>
      match skip with
      | S k => re_sub_from m repl k t
      | O =>
          match m s with
          | Some (S n) => repl ++ re_sub_from m repl n t
          | _ => c :: re_sub_from m repl 0 t
          end
      end
  end.

Definition re_sub (m : matcher) (repl : str) (s : str) : str :=
  re_sub_from m repl 0 s.

Fixpoint run_len (p : ascii -> bool) (s : str) : nat :=
  match s with
  | c :: t => if p c then S (run_len p t) else 0
  | [] => 0
  end.

(** The greedy pattern [X{lo,}] for a character class [X]. *)
Definition match_run (p : ascii -> bool) (lo : nat) : matcher :=
  fun s => let n := run_len p s in if (lo <=? n)%nat then Some n else None.

(** Case-insensitive comparison with a lower-case letter ([re.IGNORECASE]). *)
Definition ci_eqb (c l : ascii) : bool := Ascii.eqb (lower_char c) l.

(** The tail [bot\b] of the mention pattern at the head of [s]: the three
    letters, then a word boundary (end of text or a non-word character). *)
Definition bot_at (s : str) : bool :=
  match s with
  | b :: o :: t :: rest =>
      ci_eqb b "b" && ci_eqb o "o" && ci_eqb t "t" &&
      match rest with
      | [] => true
      | c :: _ => negb (is_word c)
      end
  | _ => false
  end.

(** Backtracking of the greedy [\w+]: it first takes [k] word characters,
    then gives them back one at a time (never fewer than one) until
    [bot\b] matches.  The result is the length matched after the [@]. *)
Fixpoint try_bot (k : nat) (rest : str) : option nat :=
  match k with
  | O => None
  | S k' => if bot_at (skipn k rest) then Some (k + 3)%nat else try_bot k' rest
  end.

(** The pattern [@\w+bot\b] with [re.IGNORECASE]. *)
Definition match_bot : matcher :=
  fun s =>
    match s with
    | c :: rest =>
        if Ascii.eqb c "@"
        then option_map S (try_bot (run_len is_word rest) rest)
        else None
    | [] => None
    end.

(** ** Text cleaning *)

Definition MAX_MSG_LENGTH : nat := 500.
Definition MIN_MSG_LENGTH : nat := 20.
Definition TG_MAX_MESSAGE_LENGTH : nat := 4096.
Definition MAX_PAGES_PER_CHANNEL : nat := 5.

Definition remove_bot_mentions (s : str) : str := re_sub match_bot [] s.
Definition collapse_newlines (s : str) : str := re_sub (match_run is_nl 3) [NL; NL] s.
Definition collapse_spaces (s : str) : str := re_sub (match_run is_sp 2) [SP] s.

Definition truncate (s : str) : str :=
  if (MAX_MSG_LENGTH <? length s)%nat
  then firstn MAX_MSG_LENGTH s ++ lit "..."
  else s.

(** [clean_text], identical in both scripts. *)
Definition clean_text (text : str) : str :=
  let text := remove_bot_mentions text in
  let text := collapse_newlines text in
  let text := collapse_spaces text in
  let text := truncate text in
  strip text.

(** ** Shared pieces of the two scripts *)

(** Decimal rendering of an integer, as in an f-string or [str(n)]. *)
Definition dec (z : Z) : str := lit (NilEmpty.string_of_int (Z.to_int z)).

Fixpoint mem (k : str) (seen : list str) : bool :=
  match seen with
  | [] => false
  | k' :: rest => str_eqb k' k || mem k rest
  end.

(** The result mapping [dict[str, list[str]]]: insertion ordered, and an
    assignment to an existing key replaces the value in place. *)
Definition dict := list (str * list str).

Fixpoint dict_set (k : str) (v : list str) (d : dict) : dict :=
  match d with
  | [] => [(k, v)]
  | (k', v') :: rest =>
      if str_eqb k' k then (k, v) :: rest else (k', v') :: dict_set k v rest
  end.

Fixpoint dict_get (k : str) (d : dict) : option (list str) :=
  match d with
  | [] => None
  | (k', v') :: rest => if str_eqb k' k then Some v' else dict_get k rest
  end.

(** Total number of characters of a list of messages, and of a mapping. *)
Definition chars (msgs : list str) : Z :=
  fold_right (fun m acc => len m + acc)%Z 0%Z msgs.

Definition dict_chars (d : dict) : Z :=
  fold_right (fun kv acc => chars (snd kv) + acc)%Z 0%Z d.

Definition DEFAULT_LOOKBACK_HOURS : Z := 24.
Definition DEFAULT_MAX_MESSAGES_PER_CHANNEL : Z := 200.
Definition DEFAULT_MAX_TOTAL_TOKENS : Z := 80000.

(** The JSON configuration; an absent key is [None] and [config.get]
    supplies the default. *)
Record config (chan : Type) : Type := {
  channels : option (list chan);
  lookbackHours : option Z;
  maxMessagesPerChannel : option Z;
  maxTotalTokens : option Z
}.

Definition get {A} (field : option A) (default : A) : A :=
  match field with Some v => v | None => default end.

(** [token_limit = max_tokens * 4] *)
Definition token_limit_of {chan} (cfg : config chan) : Z :=
  (get (maxTotalTokens cfg) DEFAULT_MAX_TOTAL_TOKENS * 4)%Z.

(** [cutoff = now - timedelta(hours=lookback)], instants in seconds. *)
Definition cutoff_of {chan} (now : Z) (cfg : config chan) : Z :=
  (now - get (lookbackHours cfg) DEFAULT_LOOKBACK_HOURS * 3600)%Z.

(** [l[:n]] for a Python integer [n] (a negative [n] counts from the end). *)
Definition py_prefix {A} (n : Z) (l : list A) : list A :=
  if (0 <=? n)%Z then firstn (Z.to_nat n) l
  else firstn (length l - Z.to_nat (- n)) l.

(** *** Delivery chunking (the body of [send_to_telegram]) *)

(** [text.split("\n")] *)
Fixpoint split_on (sep : ascii) (s : str) : list str :=
  match s with
  | [] => [[]]
  | c :: t =>
      if Ascii.eqb c sep then [] :: split_on sep t
      else match split_on sep t with
           | l :: ls => (c :: l) :: ls
           | [] => [[c]]
           end
  end.

(** The loop over the lines: [chunks] and [current] are the loop state. *)
Fixpoint chunk_lines (lines : list str) (chunks : list str) (current : str)
  : list str * str :=
  match lines with
  | [] => (chunks, current)
  | line :: rest =>
      if (TG_MAX_MESSAGE_LENGTH <? length current + length line + 1)%nat
      then chunk_lines rest (chunks ++ [current]) ([] ++ line ++ [NL])
      else chunk_lines rest chunks (current ++ line ++ [NL])
  end.

(** The chunks [send_to_telegram] delivers, in order, for a header and a
    summary text. *)
Definition send_to_telegram (header text : str) : list str :=
  let full_text := header ++ text in
  if (length full_text <=? TG_MAX_MESSAGE_LENGTH)%nat then [full_text]
  else
    let '(chunks, current) := chunk_lines (split_on NL text) [] header in
    if null (strip current) then chunks else chunks ++ [current].

(** The em dash of the header line, one character. *)
Definition EM_DASH : ascii := ascii_of_nat 151.

(** The header of each script for the day [today] ([%Y-%m-%d]). *)
Definition header_public (today : str) : str :=
  lit "<b>Public Channel Digest " ++ [EM_DASH] ++ lit " " ++ today ++ lit "</b>" ++ [NL; NL].

Definition header_client (today : str) : str :=
  lit "<b>Channel Digest " ++ [EM_DASH] ++ lit " " ++ today ++ lit "</b>" ++ [NL; NL].

(** ** The scrape variant: [telegram-digest-public.py] *)

Module Public.

(** The two pauses of the script, by the constant that sets their length. *)
Inductive delay := REQUEST_DELAY | RETRY_SLEEP.

(** A message widget of a channel page, as the selectors see it. *)
Inductive post_attr :=
| PostNoSlash            (* [data-post] absent or without a slash *)
| PostNotInt             (* last segment is not an integer *)
| PostId (id : Z).

Inductive time_attr :=
| TimeMissing            (* no [time[datetime]] element *)
| TimeInvalid            (* [fromisoformat] raises [ValueError] *)
| TimeAt (instant : Z)    (* a time-zone aware instant *).

Record widget := {
  w_post : post_attr;
  w_time : time_attr;
  w_text : option str     (* [get_text(separator="\n")] of the text element *)
}.

Record page := {
  history_unavailable : bool;   (* [.tgme_channel_history_unavailable] present *)
  widgets : list widget
}.

(** Outcome of one call [client.get(url)].  The client is created with
    [follow_redirects=True], so a call may send several requests: the
    library follows an answer that redirects at once, within the call, and
    the script sees what comes of the last request only.  [Response] is
    that last response (a 3xx status here is one the library had nothing
    to follow for); [RequestError] is any [httpx.RequestError], the one for
    too many redirects included. *)
Inductive get_outcome :=
| RequestError
| Response (status_code : Z) (body : page).

(** What the run does to the outside world: a call of [client.get] with
    its outcome, or a pause.  The requests the library sends of its own
    accord inside one call are not listed one by one. *)
Inductive event :=
| EvGet (url : str) (outcome : get_outcome)
| EvSleep (d : delay).

Definition trace := list event.

(** The remote side: its answer may depend on everything that happened
    before. *)
Definition server := trace -> str -> get_outcome.

(** State monad over the trace. *)
Definition M (A : Type) : Type := trace -> A * trace.

Definition ret {A} (a : A) : M A := fun tr => (a, tr).

Definition bind {A B} (m : M A) (k : A -> M B) : M B :=
  fun tr => let '(a, tr') := m tr in k a tr'.

Notation "x <- m ;; k" := (bind m (fun x => k))
  (at level 61, m at next level, right associativity).
Notation "m ;;; k" := (bind m (fun _ => k))
  (at level 61, right associativity).

Definition sleep (d : delay) : M unit := fun tr => (tt, tr ++ [EvSleep d]).

Definition when (b : bool) (m : M unit) : M unit := if b then m else ret tt.

Record msg := { msg_id : Z; msg_date : Z; msg_text : str }.

(** [resp.raise_for_status()] passes on a 2xx status. *)
Definition is_success (status_code : Z) : bool :=
  (200 <=? status_code)%Z && (status_code <? 300)%Z.

Definition page_url (channel : str) (before : option Z) : str :=
  lit "https://t.me/s/" ++ channel ++
  match before with
  | Some b => lit "?before=" ++ dec b
  | None => []
  end.

(** The loop over the widgets of [parse_messages]. *)
Fixpoint parse_widgets (cutoff : Z) (ws : list widget)
    (messages : list msg) (oldest_id : option Z) : list msg * option Z :=
  match ws with
  | [] => (messages, oldest_id)
  | w :: rest =>
      match w_post w with
      | PostId id =>
          let oldest_id :=
            match oldest_id with
            | None => Some id
            | Some o => if (id <? o)%Z then Some id else Some o
            end in
          match w_time w with
          | TimeAt d =>
              if (d <? cutoff)%Z then parse_widgets cutoff rest messages oldest_id
              else
                match w_text w with
                | Some raw =>
                    let text := strip raw in
                    if null text then parse_widgets cutoff rest messages oldest_id
                    else parse_widgets cutoff rest
                           (messages ++ [{| msg_id := id; msg_date := d; msg_text := text |}])
                           oldest_id
                | None => parse_widgets cutoff rest messages oldest_id
                end
          | _ => parse_widgets cutoff rest messages oldest_id
          end
      | _ => parse_widgets cutoff rest messages oldest_id
      end
  end.

Definition parse_messages (html : page) (cutoff : Z) : list msg * option Z :=
  if history_unavailable html then ([], None)
  else parse_widgets cutoff (widgets html) [] None.

Definition mem_id (id : Z) (seen : list Z) : bool := existsb (Z.eqb id) seen.

(** The loop of [scrape_channel] that keeps the messages not seen yet. *)
Fixpoint add_new (messages : list msg) (all_messages : list msg)
    (seen_ids : list Z) (new_count : nat) : list msg * list Z * nat :=
  match messages with
  | [] => (all_messages, seen_ids, new_count)
  | m :: rest =>
      if mem_id (msg_id m) seen_ids then add_new rest all_messages seen_ids new_count
      else add_new rest (all_messages ++ [m]) (msg_id m :: seen_ids) (S new_count)
  end.

(** [all_messages.sort(key=date, reverse=True)]: stable, newest first. *)
Fixpoint insert_desc (m : msg) (sorted : list msg) : list msg :=
  match sorted with
  | [] => [m]
  | x :: rest =>
      if (msg_date m <? msg_date x)%Z then x :: insert_desc m rest
      else m :: sorted
  end.

Definition sort_desc (l : list msg) : list msg := fold_right insert_desc [] l.

(** The dedup key of the scrape variant:
    [re.sub(r"\s+", " ", text[:100]).strip().lower()] *)
Definition text_key (text : str) : str :=
  lower (strip (re_sub (match_run is_space 1) [SP] (firstn 100 text))).

(** The "filter and clean" loop at the end of [scrape_channel]. *)
Fixpoint filter_clean (msgs : list msg) (result : list str) (seen_texts : list str)
  : list str :=
  match msgs with
  | [] => result
  | m :: rest =>
      let text := msg_text m in
      if (length text <? MIN_MSG_LENGTH)%nat then filter_clean rest result seen_texts
      else
        let key := text_key text in
        if mem key seen_texts then filter_clean rest result seen_texts
        else
          let seen_texts := key :: seen_texts in
          let cleaned := clean_text text in
          if null cleaned then filter_clean rest result seen_texts
          else filter_clean rest (result ++ [cleaned]) seen_texts
  end.

(** The "apply token budget" loop of [collect_messages]. *)
Fixpoint apply_budget (token_limit : Z) (messages : list str)
    (budget_messages : list str) (total_chars : Z) : list str * Z :=
  match messages with
  | [] => (budget_messages, total_chars)
  | m :: rest =>
      if (total_chars + len m >? token_limit)%Z then (budget_messages, total_chars)
      else apply_budget token_limit rest (budget_messages ++ [m]) (total_chars + len m)%Z
  end.

(** [raw_channel.lstrip("@").strip()] *)
Definition channel_name (raw_channel : str) : str :=
  strip (lstrip_by (Ascii.eqb "@") raw_channel).

Section WithServer.

Variable srv : server.

Definition http_get (url : str) : M get_outcome :=
  fun tr => let o := srv tr url in (o, tr ++ [EvGet url o]).

(** [fetch_page]: [None] stands for the Python [None]. *)
Definition fetch_page (channel : str) (before : option Z) : M (option page) :=
  let url := page_url channel before in
  resp <- http_get url ;;
  match resp with
  | RequestError => ret None
  | Response status body =>
      if (status =? 429)%Z then
        sleep RETRY_SLEEP ;;;
        resp <- http_get url ;;
        match resp with
        | RequestError => ret None
        | Response status body =>
            if (status =? 429)%Z then ret None
            else if is_success status then ret (Some body) else ret None
        end
      else if is_success status then ret (Some body) else ret None
  end.

(** The pagination loop of [scrape_channel]; [pages] is the number of
    iterations of [range(MAX_PAGES_PER_CHANNEL)] still to run and [page]
    the loop index.  It returns [all_messages]. *)
Fixpoint scrape_pages (channel : str) (cutoff max_messages : Z)
    (pages page : nat) (all_messages : list msg) (seen_ids : list Z)
    (before : option Z) : M (list msg) :=
  match pages with
  | O => ret all_messages
  | S pages' =>
      when (0 <? page)%nat (sleep REQUEST_DELAY) ;;;
      resp <- fetch_page channel before ;;
      match resp with
      | None => ret all_messages
      | Some html =>
          let '(messages, oldest_id) := parse_messages html cutoff in
          if null messages && (page =? 0)%nat then ret all_messages
          else
            let '(all_messages, seen_ids, new_count) :=
              add_new messages all_messages seen_ids 0 in
            if (new_count =? 0)%nat then ret all_messages
            else if (max_messages <=? Z.of_nat (length all_messages))%Z
            then ret all_messages
            else
              match oldest_id with
              | Some o =>
                  scrape_pages channel cutoff max_messages pages' (S page)
                    all_messages seen_ids (Some o)
              | None => ret all_messages
              end
      end
  end.

Definition scrape_channel (channel : str) (cutoff max_messages : Z) : M (list str) :=
  all_messages <- scrape_pages channel cutoff max_messages
                    MAX_PAGES_PER_CHANNEL 0 [] [] None ;;
  let all_messages := sort_desc all_messages in
  ret (filter_clean (py_prefix max_messages all_messages) [] []).

(** The loop over [enumerate(channels)] of [collect_messages]; the loop
    state is the mapping [result] and the counter [total_chars]. *)
Fixpoint collect_loop (cutoff max_per_channel token_limit : Z)
    (i : nat) (chans : list str) (result : dict) (total_chars : Z)
  : M (dict * Z) :=
  match chans with
  | [] => ret (result, total_chars)
  | raw_channel :: rest =>
      let channel := channel_name raw_channel in
      if null channel
      then collect_loop cutoff max_per_channel token_limit (S i) rest result total_chars
      else
        when (0 <? i)%nat (sleep REQUEST_DELAY) ;;;
        messages <- scrape_channel channel cutoff max_per_channel ;;
        let '(budget_messages, total_chars) :=
          apply_budget token_limit messages [] total_chars in
        let result :=
          if null budget_messages then result
          else dict_set channel budget_messages result in
        if (total_chars >? token_limit)%Z then ret (result, total_chars)
        else collect_loop cutoff max_per_channel token_limit (S i) rest result total_chars
  end.

(** [collect_messages] with its final loop state ([result], [total_chars]). *)
Definition collect_state (now : Z) (cfg : config str) : M (dict * Z) :=
  collect_loop (cutoff_of now cfg)
    (get (maxMessagesPerChannel cfg) DEFAULT_MAX_MESSAGES_PER_CHANNEL)
    (token_limit_of cfg) 0 (get (channels cfg) []) [] 0%Z.

Definition collect_messages (now : Z) (cfg : config str) : M dict :=
  st <- collect_state now cfg ;; ret (fst st).

End WithServer.

End Public.

(** ** The client variant: [telegram-digest.py] *)

Module Client.

(** A text that is either an object with a [.text] attribute or a plain
    string ([x.text if hasattr(x, "text") else str(x)]). *)
Inductive text_field :=
| WithText (text : str)
| Plain (s : str).

Definition text_of (f : text_field) : str :=
  match f with WithText t => t | Plain s => s end.

Record poll := {
  question : text_field;
  answers : list text_field      (* the [.text] of each answer *)
}.

Inductive media :=
| MediaNone
| MessageMediaPoll (p : poll)
| MessageMediaContact
| MessageMediaGeo
| MessageMediaGeoLive
| MessageMediaDice
| MediaOther.

Record message := {
  is_service : bool;             (* [isinstance(message, MessageService)] *)
  m_date : Z;
  m_sticker : bool;
  m_voice : bool;
  m_video_note : bool;
  m_gif : bool;
  m_media : media;
  m_text : option str
}.

Definition is_noise (m : message) : bool :=
  if is_service m then true
  else if m_sticker m then true
  else if m_voice m || m_video_note m then true
  else if m_gif m then true
  else match m_media m with
       | MessageMediaContact => true
       | MessageMediaGeo | MessageMediaGeoLive => true
       | MessageMediaDice => true
       | _ => false
       end.

Definition extract_text (m : message) : option str :=
  match m_media m with
  | MessageMediaPoll p =>
      let question := text_of (question p) in
      let answers := map text_of (answers p) in
      Some (lit "Poll: " ++ question ++ lit " | Options: " ++ join (lit ", ") answers)
  | _ =>
      let text := match m_text m with Some t => t | None => [] end in
      if null (strip text) then None else Some (strip text)
  end.

(** The dedup key of the client variant: [text[:100].lower()] *)
Definition text_key (text : str) : str := lower (firstn 100 text).

(** A channel identifier of the configuration: a name or a numeric id. *)
Inductive channel_id :=
| ChanName (name : str)
| ChanNum (id : Z).

Definition str_of_channel_id (c : channel_id) : str :=
  match c with ChanName s => s | ChanNum z => dec z end.

Record entity := {
  title : option str;
  username : option str;
  key : Z                        (* what the client uses to find the history *)
}.

(** The Telethon client, read only: [get_entity] ([None] when it raises)
    and the sequence [iter_messages(entity, limit=..)] yields. *)
Record tg_client := {
  get_entity : channel_id -> option entity;
  iter_messages : entity -> Z -> list message
}.

Definition truthy (o : option str) : option str :=
  match o with
  | Some s => if null s then None else Some s
  | None => None
  end.

(** [getattr(entity, "title", None) or getattr(entity, "username", None)
     or str(channel_id)] *)
Definition channel_name_of (e : entity) (c : channel_id) : str :=
  match truthy (title e) with
  | Some t => t
  | None =>
      match truthy (username e) with
      | Some u => u
      | None => str_of_channel_id c
      end
  end.

(** The [async for msg in client.iter_messages(..)] loop; the loop state
    is [messages], [seen_texts] and the run-wide [total_chars]. *)
Fixpoint channel_loop (cutoff token_limit : Z) (msgs : list message)
    (messages : list str) (seen_texts : list str) (total_chars : Z)
  : list str * Z :=
  match msgs with
  | [] => (messages, total_chars)
  | msg :: rest =>
      if (m_date msg <? cutoff)%Z then (messages, total_chars)
      else if is_noise msg
      then channel_loop cutoff token_limit rest messages seen_texts total_chars
      else
        match extract_text msg with
        | None => channel_loop cutoff token_limit rest messages seen_texts total_chars
        | Some text =>
            if null text
            then channel_loop cutoff token_limit rest messages seen_texts total_chars
            else if (length text <? MIN_MSG_LENGTH)%nat
            then channel_loop cutoff token_limit rest messages seen_texts total_chars
            else
              let key := text_key text in
              if mem key seen_texts
              then channel_loop cutoff token_limit rest messages seen_texts total_chars
              else
                let seen_texts := key :: seen_texts in
                let cleaned := clean_text text in
                if null cleaned
                then channel_loop cutoff token_limit rest messages seen_texts total_chars
                else if (total_chars + len cleaned >? token_limit)%Z
                then (messages, total_chars)
                else channel_loop cutoff token_limit rest
                       (messages ++ [cleaned]) seen_texts (total_chars + len cleaned)%Z
        end
  end.

Section WithClient.

Variable client : tg_client.

(** The loop over [channels] of [collect_messages]. *)
Fixpoint collect_loop (cutoff max_per_channel token_limit : Z)
    (chans : list channel_id) (result : dict) (total_chars : Z) : dict * Z :=
  match chans with
  | [] => (result, total_chars)
  | channel_id :: rest =>
      match get_entity client channel_id with
      | None => collect_loop cutoff max_per_channel token_limit rest result total_chars
      | Some entity =>
          let channel_name := channel_name_of entity channel_id in
          let '(messages, total_chars) :=
            channel_loop cutoff token_limit
              (iter_messages client entity max_per_channel) [] [] total_chars in
          let result :=
            if null messages then result
            else dict_set channel_name messages result in
          if (total_chars >? token_limit)%Z then (result, total_chars)
          else collect_loop cutoff max_per_channel token_limit rest result total_chars
      end
  end.

(** [collect_messages] with its final loop state ([result], [total_chars]). *)
Definition collect_state (now : Z) (cfg : config channel_id) : dict * Z :=
  collect_loop (cutoff_of now cfg)
    (get (maxMessagesPerChannel cfg) DEFAULT_MAX_MESSAGES_PER_CHANNEL)
    (token_limit_of cfg) (get (channels cfg) []) [] 0%Z.

Definition collect_messages (now : Z) (cfg : config channel_id) : dict :=
  fst (collect_state now cfg).

End WithClient.

End Client.

(** ** The rest of both scripts: prompt, summary, delivery, command line *)

(** [format_for_llm]: the section of a channel is built by appending one
    line per message; the sections are joined by a newline. *)
Definition section_of (channel : str) (messages : list str) : str :=
  fold_left (fun section msg => section ++ lit "- " ++ msg ++ [NL])
    messages (lit "## " ++ channel ++ [NL]).

Definition format_for_llm (channel_messages : dict) : str :=
  join [NL] (map (fun kv => section_of (fst kv) (snd kv)) channel_messages).

(** [sum(len(msgs) for msgs in channel_messages.values())] *)
Definition total_messages (channel_messages : dict) : Z :=
  fold_right (fun kv acc => Z.of_nat (length (snd kv)) + acc)%Z 0%Z channel_messages.

(** ["=" * 60] *)
Definition rule : str := repeat "="%char 60.

Module Pipeline.

(** What a run does to the outside world, in order.  Logging is left out;
    writing the digest file is taken to succeed. *)
Inductive action :=
| Http (e : Public.event)        (* a request or a pause of the scraper *)
| Started                        (* [client.start()] *)
| Disconnected                   (* [client.disconnect()] *)
| Asked (full_prompt : str)      (* [model.generate_content(full_prompt)] *)
| Posted (chunk : str)           (* [urlopen] of a [sendMessage] request *)
| Printed (line : str)           (* [print] *)
| Saved (file content : str).    (* the digest file, written in one go *)

(** How a computation ends: with a value, in [sys.exit(1)], or in an
    exception that nothing catches. *)
Inductive result (A : Type) :=
| Val (a : A)
| Exit
| Raise.

Arguments Exit {A}.
Arguments Raise {A}.

Definition P (A : Type) : Type := list action -> result A * list action.

Definition ret {A} (a : A) : P A := fun tr => (Val a, tr).

Definition bind {A B} (m : P A) (k : A -> P B) : P B :=
  fun tr =>
    match m tr with
    | (Val a, tr') => k a tr'
    | (Exit, tr') => (Exit, tr')
    | (Raise, tr') => (Raise, tr')
    end.

Notation "x <- m ;; k" := (bind m (fun x => k))
  (at level 61, m at next level, right associativity).
Notation "m ;;; k" := (bind m (fun _ => k))
  (at level 61, right associativity).

Definition emit (a : action) : P unit := fun tr => (Val tt, tr ++ [a]).

Definition exit {A} : P A := fun tr => (Exit, tr).

Definition raise {A} : P A := fun tr => (Raise, tr).

Definition when (b : bool) (m : P unit) : P unit := if b then m else ret tt.

(** [try: body  finally: cleanup] *)
Definition finally {A} (body : P A) (cleanup : P unit) : P A :=
  fun tr =>
    let '(r, tr') := body tr in
    match cleanup tr' with
    | (Val _, tr'') => (r, tr'')
    | (Exit, tr'') => (Exit, tr'')
    | (Raise, tr'') => (Raise, tr'')
    end.

Fixpoint print_all (lines : list str) : P unit :=
  match lines with
  | [] => ret tt
  | line :: rest => emit (Printed line) ;;; print_all rest
  end.

(** The environment variables as the module-level code reads them; a
    numeric variable that is not set is [0], a text one is empty. *)
Record environment := {
  API_ID : Z;
  API_HASH : str;
  BOT_TOKEN : str;
  GROUP_ID : Z;
  DIGEST_TOPIC_ID : Z;
  GOOGLE_API_KEY : str;
  DIGEST_LANGUAGE : option str
}.

(** The constants in which the delivery code of the two scripts differs. *)
Record script := {
  header_of : str -> str;       (* first line of the digest, for a day *)
  nothing_new : str;            (* the notice sent when nothing was collected *)
  digest_file : str -> str;     (* name of the saved file, for a day *)
  digest_title : str -> str     (* first line of the saved file *)
}.

(** The channel configuration file: absent, not valid JSON, or loaded. *)
Inductive config_file (chan : Type) :=
| ConfigMissing
| ConfigInvalid
| ConfigLoaded (cfg : config chan).

Arguments ConfigMissing {chan}.
Arguments ConfigInvalid {chan}.

(** The outcome of one [sendMessage] request: the answer says [ok], the
    answer does not say [ok], or [urlopen] or the decoding raises. *)
Inductive api_answer := ApiOk | ApiNotOk | ApiError.

Section WithWorld.

Variable env : environment.

(** The two prompt texts, constants of the scripts. *)
Variables SUMMARIZE_PROMPT_EN SUMMARIZE_PROMPT_RU : str.

(** Gemini: the text of the response, or [None] when the call raises. *)
Variable gemini : str -> option str.

(** The Bot API; its answer may depend on everything that happened before. *)
Variable bot_api : list action -> str -> api_answer.

(** [datetime.now().strftime("%Y-%m-%d")] at a point of the run. *)
Variable today : list action -> str.

Definition load_config {chan} (file : config_file chan) : P (config chan) :=
  match file with
  | ConfigMissing => exit
  | ConfigInvalid => raise
  | ConfigLoaded cfg => ret cfg
  end.

Definition get_summarize_prompt : str :=
  if str_eqb (lower (get (DIGEST_LANGUAGE env) (lit "en"))) (lit "ru")
  then SUMMARIZE_PROMPT_RU
  else SUMMARIZE_PROMPT_EN.

Definition summarize (channel_messages : dict) : P str :=
  let content := format_for_llm channel_messages in
  let full_prompt := get_summarize_prompt ++ [NL; NL] ++ content in
  emit (Asked full_prompt) ;;;
  match gemini full_prompt with
  | Some text => ret text
  | None => raise
  end.

(** The loop over the chunks: an answer without [ok] is logged and the loop
    goes on; an exception is logged and raised again. *)
Fixpoint post_chunks (chunks : list str) : P unit :=
  match chunks with
  | [] => ret tt
  | chunk :: rest =>
      fun tr =>
        match bot_api tr chunk with
        | ApiError => (Raise, tr ++ [Posted chunk])
        | ApiOk | ApiNotOk => post_chunks rest (tr ++ [Posted chunk])
        end
  end.

(** [send_to_telegram] as a whole: the check of the credentials, the
    chunks (those of the definition of the same name above, for the header
    of the day), and their delivery. *)
Definition send_to_telegram (s : script) (text : str) : P unit :=
  if null (BOT_TOKEN env) || (GROUP_ID env =? 0)%Z || (DIGEST_TOPIC_ID env =? 0)%Z
  then exit
  else
    fun tr =>
      let header := header_of s (today tr) in
      post_chunks (send_to_telegram header text) tr.

(** The "Save to file" block of [run_digest]. *)
Definition save_digest (s : script) (summary : str) : P unit :=
  fun tr =>
    let today := today tr in
    emit (Saved (digest_file s today) (digest_title s today ++ summary)) tr.

(** The lines printed by a dry run. *)
Definition dry_run_lines (channel_messages : dict) (total : Z) (summary : str)
  : list str :=
  [ [NL] ++ rule;
    lit "DRY RUN " ++ [EM_DASH] ++ lit " Summary preview:";
    rule;
    summary;
    rule;
    [NL] ++ lit "Channels: " ++ dec (Z.of_nat (length channel_messages));
    lit "Messages: " ++ dec total;
    lit "Summary length: " ++ dec (len summary) ++ lit " chars" ].

End WithWorld.

End Pipeline.

(** *** [run_digest] and [main] of the scrape variant *)

Module PublicMain.

Import Pipeline.

Definition script : Pipeline.script := {|
  header_of := header_public;
  nothing_new := lit "No new messages from tracked public channels in the last 24h.";
  digest_file := fun today => today ++ lit "-public.md";
  digest_title := fun today =>
    lit "# Public Channel Digest " ++ [EM_DASH] ++ lit " " ++ today ++ [NL; NL]
|}.

(** The lines printed by a preview. *)
Definition preview_lines (channel_messages : dict) (total : Z) : list str :=
  [ [NL] ++ rule;
    lit "PREVIEW " ++ [EM_DASH] ++ lit " Collected messages (no Gemini):";
    rule ]
  ++ flat_map
       (fun kv =>
          ([NL] ++ lit "## " ++ fst kv ++ lit " ("
             ++ dec (Z.of_nat (length (snd kv))) ++ lit " messages)")
          :: map (fun msg => lit "  - " ++ firstn 120 msg ++ lit "...")
               (firstn 10 (snd kv)))
       channel_messages
  ++ [ rule;
       [NL] ++ lit "Channels: " ++ dec (Z.of_nat (length channel_messages));
       lit "Messages: " ++ dec total ].

Section WithWorld.

Variable env : environment.
Variables SUMMARIZE_PROMPT_EN SUMMARIZE_PROMPT_RU : str.
Variable gemini : str -> option str.
Variable bot_api : list action -> str -> api_answer.
Variable today : list action -> str.
Variable srv : Public.server.
Variable now : Z.
Variable file : config_file str.
Variable doc : str.                  (* [__doc__] *)

(** [collect_messages(config)]: its requests and pauses join the run. *)
Definition collect_messages (cfg : config str) : P dict :=
  fun tr =>
    let '(result, http) := Public.collect_messages srv now cfg [] in
    (Val result, tr ++ map Http http).

Definition run_digest (dry_run preview : bool) : P unit :=
  when (negb preview && negb dry_run)
    (when (null (GOOGLE_API_KEY env)) exit) ;;;
  when (negb preview)
    (when (null (GOOGLE_API_KEY env)) exit) ;;;
  config <- load_config file ;;
  let channels := get (channels config) [] in
  if null channels then exit
  else
    channel_messages <- collect_messages config ;;
    if null channel_messages
    then when (negb dry_run && negb preview)
           (send_to_telegram env bot_api today script (nothing_new script))
    else
      let total := total_messages channel_messages in
      if preview then print_all (preview_lines channel_messages total)
      else
        summary <- summarize env SUMMARIZE_PROMPT_EN SUMMARIZE_PROMPT_RU gemini
                     channel_messages ;;
        if dry_run
        then print_all (dry_run_lines channel_messages total summary)
        else
          send_to_telegram env bot_api today script summary ;;;
          save_digest today script summary.

Definition main (argv : list str) : P unit :=
  if mem (lit "--help") argv || mem (lit "-h") argv then emit (Printed doc)
  else if mem (lit "--preview") argv then run_digest false true
  else if mem (lit "--dry-run") argv then run_digest true false
  else run_digest false false.

End WithWorld.

End PublicMain.

(** *** [run_digest] and [main] of the client variant *)

Module ClientMain.

Import Pipeline.

Definition script : Pipeline.script := {|
  header_of := header_client;
  nothing_new := lit "No new messages from tracked channels in the last 24h.";
  digest_file := fun today => today ++ lit ".md";
  digest_title := fun today =>
    lit "# Channel Digest " ++ [EM_DASH] ++ lit " " ++ today ++ [NL; NL]
|}.

Section WithWorld.

Variable env : environment.
Variables SUMMARIZE_PROMPT_EN SUMMARIZE_PROMPT_RU : str.
Variable gemini : str -> option str.
Variable bot_api : list action -> str -> api_answer.
Variable today : list action -> str.
Variable session : option Client.tg_client.   (* [None]: [client.start()] raises *)
Variable now : Z.
Variable file : config_file Client.channel_id.
Variable doc : str.                  (* [__doc__] *)
Variable run_auth : P unit.          (* the interactive first run *)

Definition start : P Client.tg_client :=
  emit Started ;;;
  match session with
  | Some client => ret client
  | None => raise
  end.

Definition run_digest (dry_run : bool) : P unit :=
  if (API_ID env =? 0)%Z || null (API_HASH env) then exit
  else if null (GOOGLE_API_KEY env) then exit
  else
    config <- load_config file ;;
    let channels := get (channels config) [] in
    if null channels then exit
    else
      client <- start ;;
      finally
        (let channel_messages := Client.collect_messages client now config in
         if null channel_messages
         then when (negb dry_run)
                (send_to_telegram env bot_api today script (nothing_new script))
         else
           let total := total_messages channel_messages in
           summary <- summarize env SUMMARIZE_PROMPT_EN SUMMARIZE_PROMPT_RU gemini
                        channel_messages ;;
           if dry_run
           then print_all (dry_run_lines channel_messages total summary)
           else
             send_to_telegram env bot_api today script summary ;;;
             save_digest today script summary)
        (emit Disconnected).

Definition main (argv : list str) : P unit :=
  if mem (lit "--auth") argv then run_auth
  else if mem (lit "--dry-run") argv then run_digest true
  else if mem (lit "--help") argv || mem (lit "-h") argv then emit (Printed doc)
  else run_digest false.

End WithWorld.

End ClientMain.

Unset Implicit Arguments.

(** * Specification vocabulary *)

(** [a] occurs in [s] verbatim. *)
Definition occurs_in (a s : str) : Prop := exists pre post, s = pre ++ a ++ post.

(** Every line followed by its newline. *)
Definition terminated (lines : list str) : str :=
  concat (map (fun l => l ++ [NL]) lines).

(** The loop invariant of both [collect_messages]: the characters stored
    in [result] are covered by [total_chars], which is within the ceiling. *)
Definition budget_inv (L : Z) (st : dict * Z) : Prop :=
  (dict_chars (fst st) <= snd st /\ snd st <= L)%Z.

(** What [fetch_page] returns for the answer it ends with. *)
Definition page_of (o : Public.get_outcome) : option Public.page :=
  match o with
  | Public.RequestError => None
  | Public.Response status body =>
      if Public.is_success status then Some body else None
  end.

(** A parsed message that stems from a widget, recent enough, of a page
    received during the run. *)
Definition msg_sourced (cutoff : Z) (tr : Public.trace) (m : Public.msg) : Prop :=
  exists url status body w raw,
    In (Public.EvGet url (Public.Response status body)) tr /\
    In w (Public.widgets body) /\
    Public.w_time w = Public.TimeAt (Public.msg_date m) /\
    (cutoff <= Public.msg_date m)%Z /\
    Public.w_text w = Some raw /\
    Public.msg_text m = strip raw.

(** A cleaned message that stems from such a widget. *)
Definition sourced (cutoff : Z) (tr : Public.trace) (r : str) : Prop :=
  exists url status body w d raw,
    In (Public.EvGet url (Public.Response status body)) tr /\
    In w (Public.widgets body) /\
    Public.w_time w = Public.TimeAt d /\
    (cutoff <= d)%Z /\
    Public.w_text w = Some raw /\
    r = clean_text (strip raw).

(** Every message stored in the result stems from a received widget that
    is not older than the cutoff. *)
Definition result_sourced (cutoff : Z) (tr : Public.trace) (result : dict) : Prop :=
  forall k v r, In (k, v) result -> In r v -> sourced cutoff tr r.

(** The client variant: an accepted message is the cleaned text of a
    message of the sequence, and neither that message nor any message
    before it in the sequence is older than the cutoff. *)
Definition client_sourced (cutoff : Z) (msgs : list Client.message) (r : str) : Prop :=
  exists pre m post text,
    msgs = pre ++ m :: post /\
    Forall (fun x => (cutoff <= Client.m_date x)%Z) (pre ++ [m]) /\
    Client.is_noise m = false /\
    Client.extract_text m = Some text /\
    r = clean_text text.

(** The filter loop of [scrape_channel] with the computation of the key
    and the cleaning left open: [Public.filter_clean] is this loop at
    [Public.text_key] and [clean_text]. *)
Fixpoint filter_clean_by (key clean : str -> str) (msgs : list Public.msg)
    (result seen_texts : list str) : list str :=
  match msgs with
  | [] => result
  | m :: rest =>
      let text := Public.msg_text m in
      if (length text <? MIN_MSG_LENGTH)%nat
      then filter_clean_by key clean rest result seen_texts
      else
        let k := key text in
        if mem k seen_texts then filter_clean_by key clean rest result seen_texts
        else
          let seen_texts := k :: seen_texts in
          let cleaned := clean text in
          if null cleaned then filter_clean_by key clean rest result seen_texts
          else filter_clean_by key clean rest (result ++ [cleaned]) seen_texts
  end.

(** The loop over the messages of a channel of the client variant, with
    the noise test, the text extraction, the key and the cleaning left
    open: [Client.channel_loop] is this loop at [Client.is_noise],
    [Client.extract_text], [Client.text_key] and [clean_text]. *)
Fixpoint channel_loop_by (noise : Client.message -> bool)
    (extract : Client.message -> option str) (key clean : str -> str)
    (cutoff token_limit : Z) (msgs : list Client.message)
    (messages seen_texts : list str) (total_chars : Z) : list str * Z :=
  match msgs with
  | [] => (messages, total_chars)
  | msg :: rest =>
      if (Client.m_date msg <? cutoff)%Z then (messages, total_chars)
      else if noise msg
      then channel_loop_by noise extract key clean cutoff token_limit rest
             messages seen_texts total_chars
      else
        match extract msg with
        | None =>
            channel_loop_by noise extract key clean cutoff token_limit rest
              messages seen_texts total_chars
        | Some text =>
            if null text
            then channel_loop_by noise extract key clean cutoff token_limit rest
                   messages seen_texts total_chars
            else if (length text <? MIN_MSG_LENGTH)%nat
            then channel_loop_by noise extract key clean cutoff token_limit rest
                   messages seen_texts total_chars
            else
              let k := key text in
              if mem k seen_texts
              then channel_loop_by noise extract key clean cutoff token_limit rest
                     messages seen_texts total_chars
              else
                let seen_texts := k :: seen_texts in
                let cleaned := clean text in
                if null cleaned
                then channel_loop_by noise extract key clean cutoff token_limit rest
                       messages seen_texts total_chars
                else if (total_chars + len cleaned >? token_limit)%Z
                then (messages, total_chars)
                else channel_loop_by noise extract key clean cutoff token_limit rest
                       (messages ++ [cleaned]) seen_texts (total_chars + len cleaned)%Z
        end
  end.

(** The cleaned texts of all messages of a sequence that have a text:
    what the budget has to hold if every one of them is accepted. *)
Definition cleaned_by (extract : Client.message -> option str) (clean : str -> str)
    (msgs : list Client.message) : list str :=
  flat_map (fun m => match extract m with
                     | Some t => [clean t]
                     | None => []
                     end) msgs.

(** The pattern matches a non-empty text at the head of [s]. *)
Definition matches_at (m : matcher) (s : str) : bool :=
  match m s with Some (S _) => true | _ => false end.

(** The pattern matches nowhere in [s]. *)
Fixpoint no_match (m : matcher) (s : str) : Prop :=
  match s with
  | [] => True
  | _ :: t => matches_at m s = false /\ no_match m t
  end.

(** [s] contains [n] consecutive copies of [c]. *)
Definition has_run (c : ascii) (n : nat) (s : str) : Prop :=
  exists pre post, s = pre ++ repeat c n ++ post.

(** The three letters, and nothing else. *)
Definition bot3 (y : str) : bool :=
  match y with
  | [b; o; t] => ci_eqb b "b" && ci_eqb o "o" && ci_eqb t "t"
  | _ => false
  end.

(** The word characters at the head of a text. *)
Definition word_run (s : str) : str := firstn (run_len is_word s) s.

(** A text after an [@] is a mention when its word has at least four
    characters and ends with the three letters. *)
Definition mention (rest : str) : bool :=
  let w := word_run rest in
  (4 <=? length w) && bot3 (skipn (length w - 3) w).

(** The text does not begin with a character of the class. *)
Definition clean_head (p : ascii -> bool) (s : str) : Prop :=
  match s with [] => True | c :: _ => p c = false end.

(** * Example data *)

(** The poll of the specification's scenario. *)
Definition pick_one : Client.message :=
  {| Client.is_service := false; Client.m_date := 0;
     Client.m_sticker := false; Client.m_voice := false;
     Client.m_video_note := false; Client.m_gif := false;
     Client.m_media :=
       Client.MessageMediaPoll
         {| Client.question := Client.WithText (lit "Pick one");
            Client.answers := [Client.WithText (lit "Red"); Client.Plain (lit "Blue")] |};
     Client.m_text := None |}.

(** A header and a text of two lines, too long for one message. *)
Definition chunk_header : str := header_public (lit "2026-01-01").

Definition two_line_text : str :=
  repeat "a"%char 4090 ++ [NL] ++ repeat "b"%char 10.

(** Two channels for a tight budget. *)
Module Scenario.

Definition x30 : str := repeat "x"%char 30.
Definition y30 : str := repeat "y"%char 30.
Definition z20 : str := repeat "z"%char 20.

Definition post (id : Z) (text : str) : Public.widget :=
  {| Public.w_post := Public.PostId id;
     Public.w_time := Public.TimeAt 100;
     Public.w_text := Some text |}.

Definition page_a : Public.page :=
  {| Public.history_unavailable := false; Public.widgets := [post 1 x30; post 2 y30] |}.

Definition page_b : Public.page :=
  {| Public.history_unavailable := false; Public.widgets := [post 1 z20] |}.

Definition no_more : Public.page :=
  {| Public.history_unavailable := false; Public.widgets := [] |}.

(** Channel "a" has two messages of 30 characters, channel "b" one of 20;
    older pages are empty. *)
Definition srv : Public.server :=
  fun _ url =>
    if str_eqb url (lit "https://t.me/s/a") then Public.Response 200 page_a
    else if str_eqb url (lit "https://t.me/s/b") then Public.Response 200 page_b
    else Public.Response 200 no_more.

Definition text_message (text : str) : Client.message :=
  {| Client.is_service := false; Client.m_date := 100;
     Client.m_sticker := false; Client.m_voice := false;
     Client.m_video_note := false; Client.m_gif := false;
     Client.m_media := Client.MediaNone;
     Client.m_text := Some text |}.

Definition entity_of (name : str) (k : Z) : Client.entity :=
  {| Client.title := Some name; Client.username := None; Client.key := k |}.

Definition client : Client.tg_client :=
  {| Client.get_entity := fun c =>
       match c with
       | Client.ChanName n =>
           if str_eqb n (lit "a") then Some (entity_of (lit "a") 1)
           else if str_eqb n (lit "b") then Some (entity_of (lit "b") 2)
           else None
       | Client.ChanNum _ => None
       end;
     Client.iter_messages := fun e _ =>
       if (Client.key e =? 1)%Z then [text_message x30; text_message y30]
       else [text_message z20] |}.

Definition config_of {chan} (chans : list chan) (max_tokens : Z) : config chan :=
  {| channels := Some chans; lookbackHours := None;
     maxMessagesPerChannel := None; maxTotalTokens := Some max_tokens |}.

End Scenario.

(** A server that cannot be reached, and one that always answers 429. *)
Definition always_down : Public.server := fun _ _ => Public.RequestError.

Definition always_429 : Public.server :=
  fun _ _ => Public.Response 429 Scenario.no_more.

(** Two configured channels under one result key. *)
Module Collision.

(** The page of "a" changes between the two passes. *)
Definition srv : Public.server :=
  fun tr url =>
    if str_eqb url (lit "https://t.me/s/a")
    then Public.Response 200 (if null tr then Scenario.page_a else Scenario.page_b)
    else Public.Response 200 Scenario.no_more.

(** Two identifiers that resolve to entities with the same title. *)
Definition client : Client.tg_client :=
  {| Client.get_entity := fun c =>
       match c with
       | Client.ChanName _ => Some (Scenario.entity_of (lit "News") 1)
       | Client.ChanNum _ => Some (Scenario.entity_of (lit "News") 2)
       end;
     Client.iter_messages := fun e _ =>
       if (Client.key e =? 1)%Z
       then [Scenario.text_message Scenario.x30; Scenario.text_message Scenario.y30]
       else [Scenario.text_message Scenario.z20] |}.

Definition trace_after_first : Public.trace :=
  snd (Public.collect_loop srv (-86400) 200 200 0 [lit "a"] [] 0 []).

End Collision.

(** Two texts that differ in one whitespace character. *)
Module Dedup.

Definition with_newline : str := lit "markets rally today" ++ [NL] ++ lit "more soon".
Definition with_space : str := lit "markets rally today more soon".

Definition first_text : str := lit "Markets rally today, more soon".
Definition copy_text : str := lit "markets RALLY today, more soon".
Definition other_text : str := lit "Rates unchanged, says the bank".

Definition widget_at (id date : Z) (text : str) : Public.widget :=
  {| Public.w_post := Public.PostId id;
     Public.w_time := Public.TimeAt date;
     Public.w_text := Some text |}.

(** A channel whose page has a message, an older copy of it in another
    letter case, and a third, still older message; and the same channel
    without the copy. *)
Definition with_copy : Public.server :=
  fun _ _ =>
    Public.Response 200
      {| Public.history_unavailable := false;
         Public.widgets := [widget_at 3 300 first_text; widget_at 2 200 copy_text;
                            widget_at 1 100 other_text] |}.

Definition without_copy : Public.server :=
  fun _ _ =>
    Public.Response 200
      {| Public.history_unavailable := false;
         Public.widgets := [widget_at 3 300 first_text; widget_at 1 100 other_text] |}.

End Dedup.

(** Texts longer than the maximum message length. *)
Definition long_text : str := repeat "a"%char 501.

Definition padded_text : str := [SP] ++ repeat "a"%char 500.

(** * Vocabulary for further properties *)

(** Client variant: a message that the channel loop passes over without
    any effect: it is not older than the cutoff and is noise, has no text,
    or has a text shorter than the minimum length. *)
Definition client_skipped (cutoff : Z) (m : Client.message) : Prop :=
  (cutoff <= Client.m_date m)%Z /\
  (Client.is_noise m = true \/
   Client.extract_text m = None \/
   exists text, Client.extract_text m = Some text /\ length text < MIN_MSG_LENGTH).

(** The text of a message as [extract_text] reads it: [message.text or ""]. *)
Definition raw_text (m : Client.message) : str :=
  match Client.m_text m with Some t => t | None => [] end.

(** A service message, used as example data. *)
Definition service_message : Client.message :=
  {| Client.is_service := true; Client.m_date := 100;
     Client.m_sticker := false; Client.m_voice := false;
     Client.m_video_note := false; Client.m_gif := false;
     Client.m_media := Client.MediaNone;
     Client.m_text := Some (lit "Someone joined the channel today") |}.

(** A page with an old message, a message without text and a widget
    without an id. *)
Definition mixed_page : Public.page :=
  {| Public.history_unavailable := false;
     Public.widgets :=
       [ {| Public.w_post := Public.PostId 12; Public.w_time := Public.TimeAt 100;
            Public.w_text := Some (lit "a recent message") |};
         {| Public.w_post := Public.PostId 7; Public.w_time := Public.TimeAt (-5);
            Public.w_text := Some (lit "an old message") |};
         {| Public.w_post := Public.PostNoSlash; Public.w_time := Public.TimeAt 100;
            Public.w_text := Some (lit "no id") |};
         {| Public.w_post := Public.PostId 9; Public.w_time := Public.TimeAt 100;
            Public.w_text := None |} ] |}.


(** Counting the calls of [client.get] and the pauses of a trace. *)
Definition is_call (e : Public.event) : bool :=
  match e with Public.EvGet _ _ => true | Public.EvSleep _ => false end.

Definition is_sleep (d : Public.delay) (e : Public.event) : bool :=
  match e, d with
  | Public.EvSleep Public.REQUEST_DELAY, Public.REQUEST_DELAY => true
  | Public.EvSleep Public.RETRY_SLEEP, Public.RETRY_SLEEP => true
  | _, _ => false
  end.

Definition count_calls (tr : Public.trace) : nat := length (filter is_call tr).

Definition count_sleeps (d : Public.delay) (tr : Public.trace) : nat :=
  length (filter (is_sleep d) tr).

(** No call of [client.get] directly follows another call. *)
Fixpoint paced (tr : Public.trace) : Prop :=
  match tr with
  | a :: (b :: _) as rest => (is_call a && is_call b = false) /\ paced rest
  | _ => True
  end.

(** The last event of the trace is a call of [client.get]. *)
Definition ends_with_call (tr : Public.trace) : bool :=
  match rev tr with
  | e :: _ => is_call e
  | [] => false
  end.

(** The invariant of [all_messages] and [seen_ids] in [scrape_channel]. *)
Definition ids_seen (all_messages : list Public.msg) (seen_ids : list Z) : Prop :=
  NoDup (map Public.msg_id all_messages) /\
  forall m, In m all_messages -> Public.mem_id (Public.msg_id m) seen_ids = true.

(** Two pages of one channel that overlap in message 2. *)
Definition overlapping : Public.server :=
  fun _ url =>
    if str_eqb url (lit "https://t.me/s/a")
    then Public.Response 200 Scenario.page_a
    else if str_eqb url (lit "https://t.me/s/a?before=1")
    then Public.Response 200
           {| Public.history_unavailable := false;
              Public.widgets := [Scenario.post 2 Scenario.y30; Scenario.post 0 Scenario.z20] |}
    else Public.Response 200 Scenario.no_more.


(** [a] is not older than [b]: the order of the sorted messages. *)
Definition newer_first (a b : Public.msg) : Prop :=
  (Public.msg_date b <= Public.msg_date a)%Z.

(** The messages of a given instant. *)
Definition at_instant (d : Z) (l : list Public.msg) : list Public.msg :=
  filter (fun m => (Public.msg_date m =? d)%Z) l.

(** Messages for the sorting examples. *)
Definition dated (id date : Z) : Public.msg :=
  {| Public.msg_id := id; Public.msg_date := date; Public.msg_text := lit "text" |}.


(** The result keys of a configuration: the non-empty channel names of the
    scrape variant, and the display names of the channels the client can
    resolve. *)
Definition public_names (chans : list str) : list str :=
  filter (fun n => negb (null n)) (map Public.channel_name chans).

Fixpoint client_names (client : Client.tg_client) (chans : list Client.channel_id)
  : list str :=
  match chans with
  | [] => []
  | c :: rest =>
      match Client.get_entity client c with
      | Some e => Client.channel_name_of e c :: client_names client rest
      | None => client_names client rest
      end
  end.

(** A result mapping without duplicate keys and without empty lists, whose
    keys are among [names]. *)
Definition well_formed_result (names : list str) (result : dict) : Prop :=
  NoDup (map fst result) /\
  forall k v, In (k, v) result -> v <> [] /\ In k names.


(** Characters of the keys of a mapping. *)
Definition keys_chars (d : dict) : Z := chars (map fst d).

(** The first line of a chunk, and chunks none of which could have taken
    the first line of the next one. *)
Definition first_line (s : str) : str := hd [] (split_on NL s).

Fixpoint packed (chunks : list str) : Prop :=
  match chunks with
  | a :: (b :: _) as rest =>
      (TG_MAX_MESSAGE_LENGTH < length a + length (first_line b) + 1)%nat /\ packed rest
  | _ => True
  end.

Definition ends_with_newline (s : str) : Prop := exists body, s = body ++ [NL].

(** What a run asked of Gemini, posted to the Bot API, wrote to disk,
    requested from t.me and printed, each in order. *)
Definition prompts (tr : list Pipeline.action) : list str :=
  flat_map (fun a => match a with Pipeline.Asked p => [p] | _ => [] end) tr.

Definition posts (tr : list Pipeline.action) : list str :=
  flat_map (fun a => match a with Pipeline.Posted c => [c] | _ => [] end) tr.

Definition files (tr : list Pipeline.action) : list (str * str) :=
  flat_map (fun a => match a with Pipeline.Saved f c => [(f, c)] | _ => [] end) tr.

Definition requests (tr : list Pipeline.action) : Public.trace :=
  flat_map (fun a => match a with Pipeline.Http e => [e] | _ => [] end) tr.

Definition printed (tr : list Pipeline.action) : list str :=
  flat_map (fun a => match a with Pipeline.Printed l => [l] | _ => [] end) tr.

(** The test of [send_to_telegram] on the three delivery settings. *)
Definition credentials_missing (env : Pipeline.environment) : bool :=
  null (Pipeline.BOT_TOKEN env) || (Pipeline.GROUP_ID env =? 0)%Z
  || (Pipeline.DIGEST_TOPIC_ID env =? 0)%Z.

(** The prompt [summarize] sends for a mapping. *)
Definition full_prompt_of (env : Pipeline.environment) (en ru : str) (d : dict) : str :=
  Pipeline.get_summarize_prompt env en ru ++ [NL; NL] ++ format_for_llm d.

(** A small world for examples: every setting present, Gemini answering
    with a fixed text, a Bot API that accepts everything. *)
Module World.

Definition env : Pipeline.environment :=
  {| Pipeline.API_ID := 1; Pipeline.API_HASH := lit "hash";
     Pipeline.BOT_TOKEN := lit "token"; Pipeline.GROUP_ID := 7;
     Pipeline.DIGEST_TOPIC_ID := 9; Pipeline.GOOGLE_API_KEY := lit "key";
     Pipeline.DIGEST_LANGUAGE := None |}.

(** No setting at all. *)
Definition bare : Pipeline.environment :=
  {| Pipeline.API_ID := 0; Pipeline.API_HASH := [];
     Pipeline.BOT_TOKEN := []; Pipeline.GROUP_ID := 0;
     Pipeline.DIGEST_TOPIC_ID := 0; Pipeline.GOOGLE_API_KEY := [];
     Pipeline.DIGEST_LANGUAGE := None |}.

(** Everything but the delivery settings. *)
Definition no_bot : Pipeline.environment :=
  {| Pipeline.API_ID := 1; Pipeline.API_HASH := lit "hash";
     Pipeline.BOT_TOKEN := []; Pipeline.GROUP_ID := 7;
     Pipeline.DIGEST_TOPIC_ID := 9; Pipeline.GOOGLE_API_KEY := lit "key";
     Pipeline.DIGEST_LANGUAGE := None |}.

Definition en : str := lit "Summarise.".
Definition ru : str := lit "Summarise (ru).".
Definition gemini : str -> option str := fun _ => Some (lit "All quiet.").
Definition accepting : list Pipeline.action -> str -> Pipeline.api_answer :=
  fun _ _ => Pipeline.ApiOk.
Definition refusing : list Pipeline.action -> str -> Pipeline.api_answer :=
  fun _ _ => Pipeline.ApiNotOk.
Definition day : list Pipeline.action -> str := fun _ => lit "2026-01-01".
Definition doc : str := lit "usage".

Definition public_file : Pipeline.config_file str :=
  Pipeline.ConfigLoaded (Scenario.config_of [lit "a"; lit "b"] 100).

Definition client_file : Pipeline.config_file Client.channel_id :=
  Pipeline.ConfigLoaded
    (Scenario.config_of [Client.ChanName (lit "a"); Client.ChanName (lit "b")] 100).

(** A configuration whose only channel has nothing to offer. *)
Definition quiet_file : Pipeline.config_file str :=
  Pipeline.ConfigLoaded (Scenario.config_of [lit "nobody"] 100).

End World.


(** The starts and ends of the client session within a run. *)
Definition sessions (tr : list Pipeline.action) : list Pipeline.action :=
  flat_map (fun a => match a with
                     | Pipeline.Started => [a]
                     | Pipeline.Disconnected => [a]
                     | _ => []
                     end) tr.

(** What either [run_digest] does with the collected mapping when it is
    not a preview: the notice or the summary, printed or delivered and
    saved. *)
Definition deliver_collected (env : Pipeline.environment) (en ru : str)
    (gemini : str -> option str)
    (bot_api : list Pipeline.action -> str -> Pipeline.api_answer)
    (today : list Pipeline.action -> str) (s : Pipeline.script)
    (dry_run : bool) (channel_messages : dict) : Pipeline.P unit :=
  if null channel_messages
  then Pipeline.when (negb dry_run)
         (Pipeline.send_to_telegram env bot_api today s (Pipeline.nothing_new s))
  else
    Pipeline.bind (Pipeline.summarize env en ru gemini channel_messages)
      (fun summary =>
         if dry_run
         then Pipeline.print_all
                (Pipeline.dry_run_lines channel_messages
                   (total_messages channel_messages) summary)
         else Pipeline.bind (Pipeline.send_to_telegram env bot_api today s summary)
                (fun _ => Pipeline.save_digest today s summary)).


(** The outside of a run that both scripts share, and a run of each
    script from the start of the process. *)
Record world := {
  w_env : Pipeline.environment;
  w_en : str;                     (* [SUMMARIZE_PROMPT_EN] *)
  w_ru : str;                     (* [SUMMARIZE_PROMPT_RU] *)
  w_gemini : str -> option str;
  w_bot_api : list Pipeline.action -> str -> Pipeline.api_answer;
  w_today : list Pipeline.action -> str
}.

Definition public_run (w : world) (srv : Public.server) (now : Z)
    (file : Pipeline.config_file str) (dry_run preview : bool)
  : Pipeline.result unit * list Pipeline.action :=
  PublicMain.run_digest (w_env w) (w_en w) (w_ru w) (w_gemini w) (w_bot_api w)
    (w_today w) srv now file dry_run preview [].

Definition public_main (w : world) (srv : Public.server) (now : Z)
    (file : Pipeline.config_file str) (doc : str) (argv : list str)
  : Pipeline.result unit * list Pipeline.action :=
  PublicMain.main (w_env w) (w_en w) (w_ru w) (w_gemini w) (w_bot_api w)
    (w_today w) srv now file doc argv [].

Definition client_run (w : world) (session : option Client.tg_client) (now : Z)
    (file : Pipeline.config_file Client.channel_id) (dry_run : bool)
  : Pipeline.result unit * list Pipeline.action :=
  ClientMain.run_digest (w_env w) (w_en w) (w_ru w) (w_gemini w) (w_bot_api w)
    (w_today w) session now file dry_run [].

Definition client_main (w : world) (session : option Client.tg_client) (now : Z)
    (file : Pipeline.config_file Client.channel_id) (doc : str)
    (run_auth : Pipeline.P unit) (argv : list str)
  : Pipeline.result unit * list Pipeline.action :=
  ClientMain.main (w_env w) (w_en w) (w_ru w) (w_gemini w) (w_bot_api w)
    (w_today w) session now file doc run_auth argv [].

(** The prompt of a world for a mapping. *)
Definition prompt_for (w : world) (d : dict) : str :=
  full_prompt_of (w_env w) (w_en w) (w_ru w) d.

Definition world_of (env : Pipeline.environment)
    (bot_api : list Pipeline.action -> str -> Pipeline.api_answer) : world :=
  {| w_env := env; w_en := World.en; w_ru := World.ru;
     w_gemini := World.gemini; w_bot_api := bot_api; w_today := World.day |}.

(** [l1] is [l2] with some elements left out and the order kept. *)
Inductive subsequence {A : Type} : list A -> list A -> Prop :=
| sub_nil : subsequence [] []
| sub_skip (x : A) (l1 l2 : list A) : subsequence l1 l2 -> subsequence l1 (x :: l2)
| sub_take (x : A) (l1 l2 : list A) : subsequence l1 l2 -> subsequence (x :: l1) (x :: l2).

(** * Properties *)

(** ** Poll text extraction *)

Lemma occurs_in_join (sep o : str) (opts : list str) :
  In o opts -> occurs_in o (join sep opts).
Proof.
  induction opts as [|p rest IH]; [intros []|].
  intros [->|Hin].
  - destruct rest as [|q rest'].
    + exists [], []. simpl. now rewrite app_nil_r.
    + exists [], (sep ++ join sep (q :: rest')). reflexivity.
  - destruct rest as [|q rest']; [destruct Hin|].
    destruct (IH Hin) as (pre & post & E).
    exists (p ++ sep ++ pre), post.
    change (join sep (p :: q :: rest')) with (p ++ sep ++ join sep (q :: rest')).
    rewrite E. now rewrite <- !app_assoc.
Qed.

(** C8.  A message whose media is a poll with question [q] and options
    [o1..on] is extracted as ["Poll: " + q + " | Options: " + ", ".join(options)];
    the question and every option occur verbatim in that text. *)
Theorem poll_text_extraction (m : Client.message) (p : Client.poll) :
  Client.m_media m = Client.MessageMediaPoll p ->
  let q := Client.text_of (Client.question p) in
  let opts := map Client.text_of (Client.answers p) in
  let out := lit "Poll: " ++ q ++ lit " | Options: " ++ join (lit ", ") opts in
  Client.extract_text m = Some out /\
  occurs_in q out /\
  (forall o, In o opts -> occurs_in o out).
Proof.
  intros Hm q opts out. unfold Client.extract_text. rewrite Hm.
  split; [reflexivity|]. split.
  - exists (lit "Poll: "), (lit " | Options: " ++ join (lit ", ") opts). reflexivity.
  - intros o Ho. destruct (occurs_in_join (lit ", ") o opts Ho) as (pre & post & E).
    exists (lit "Poll: " ++ q ++ lit " | Options: " ++ pre), post.
    unfold out. rewrite E. now rewrite <- !app_assoc.
Qed.

(** The scenario of the specification: question "Pick one", options Red and Blue. *)
Lemma poll_pick_one :
  Client.extract_text pick_one = Some (lit "Poll: Pick one | Options: Red, Blue").
Proof.
  exact (proj1 (poll_text_extraction pick_one _ eq_refl)).
Defined.

(** ** Delivery chunking *)

Section Chunking.

Lemma split_on_nonempty sep s : split_on sep s <> [].
Proof.
  destruct s as [|c t]; simpl; [discriminate|].
  destruct (Ascii.eqb c sep); [discriminate|].
  destruct (split_on sep t); discriminate.
Qed.

(** Splitting on the newline and terminating every line gives the text
    back with one more newline at its end. *)
Lemma terminated_split (text : str) : terminated (split_on NL text) = text ++ [NL].
Proof.
  induction text as [|c t IH]; [reflexivity|].
  simpl. destruct (Ascii.eqb_spec c NL) as [->|Hc].
  - unfold terminated in *. simpl. now rewrite IH.
  - pose proof (split_on_nonempty NL t) as Hne.
    destruct (split_on NL t) as [|l ls]; [contradiction|].
    unfold terminated in *. simpl in *. now rewrite IH.
Qed.

(** The loop only appends to [chunks]; what it appends and the final
    [current] spell the old [current] followed by the terminated lines.
    Either nothing is appended, and then everything fits in one message,
    or the first appended chunk begins with the old [current]. *)
Lemma chunk_lines_shape (lines : list str) :
  forall chunks current,
  exists new current',
    chunk_lines lines chunks current = (chunks ++ new, current') /\
    concat new ++ current' = current ++ terminated lines /\
    ((new = [] /\
      (lines = [] \/
       length (current ++ terminated lines) <= TG_MAX_MESSAGE_LENGTH)) \/
     exists c0 more, new = (current ++ c0) :: more).
Proof.
  induction lines as [|line rest IH]; intros chunks current.
  - exists [], current. simpl. rewrite !app_nil_r.
    split; [reflexivity|]. split; [reflexivity|]. left. auto.
  - simpl.
    destruct (Nat.ltb_spec TG_MAX_MESSAGE_LENGTH (length current + length line + 1))
      as [Hlt|Hle].
    + destruct (IH (chunks ++ [current]) (line ++ [NL])) as (new & cur' & E & Hc & _).
      exists (current :: new), cur'. rewrite E, <- app_assoc. split; [reflexivity|].
      split.
      * simpl. rewrite <- app_assoc, Hc. unfold terminated. simpl.
        now rewrite <- !app_assoc.
      * right. exists [], new. now rewrite app_nil_r.
    + destruct (IH chunks (current ++ line ++ [NL])) as (new & cur' & E & Hc & Hs).
      exists new, cur'. rewrite E. split; [reflexivity|].
      assert (Eq : (current ++ line ++ [NL]) ++ terminated rest
                   = current ++ terminated (line :: rest)).
      { unfold terminated. simpl. now rewrite <- !app_assoc. }
      split.
      * now rewrite Hc.
      * destruct Hs as [[-> Hfit]|(c0 & more & ->)].
        -- left. split; [reflexivity|]. right.
           destruct Hfit as [->|Hfit].
           ++ unfold terminated. simpl. rewrite !length_app. simpl. lia.
           ++ now rewrite <- Eq.
        -- right. exists ((line ++ [NL]) ++ c0), more. now rewrite <- !app_assoc.
Qed.

(** Chunks stay within the limit as long as no single line (with its
    newline) is longer than the limit. *)
Lemma chunk_lines_bound (lines : list str) :
  forall chunks current chunks' current',
  chunk_lines lines chunks current = (chunks', current') ->
  Forall (fun l => length l < TG_MAX_MESSAGE_LENGTH) lines ->
  Forall (fun c => length c <= TG_MAX_MESSAGE_LENGTH) chunks ->
  length current <= TG_MAX_MESSAGE_LENGTH ->
  Forall (fun c => length c <= TG_MAX_MESSAGE_LENGTH) chunks' /\
  length current' <= TG_MAX_MESSAGE_LENGTH.
Proof.
  induction lines as [|line rest IH]; intros chunks current chunks' current' E Hl Hc Hcur.
  - simpl in E. inversion E; subst. auto.
  - simpl in E. inversion Hl as [|? ? Hline Hrest]; subst.
    destruct (Nat.ltb_spec TG_MAX_MESSAGE_LENGTH (length current + length line + 1)).
    + apply (IH _ _ _ _ E Hrest).
      * apply Forall_app. split; [assumption|]. constructor; [assumption|constructor].
      * simpl. rewrite length_app. simpl. lia.
    + apply (IH _ _ _ _ E Hrest Hc).
      rewrite !length_app. simpl. lia.
Qed.

End Chunking.

(** C4 as stated fails on the round trip: for a text of two lines too long
    for one message the chunks are the header, the first line and the
    second line, each line with a newline, so the content after the header
    is the text followed by a newline that the text does not have. *)
Lemma chunk_roundtrip_counterexample :
  send_to_telegram chunk_header two_line_text =
    [chunk_header; repeat "a"%char 4090 ++ [NL]; repeat "b"%char 10 ++ [NL]] /\
  ~ (exists c0 rest,
       send_to_telegram chunk_header two_line_text = (chunk_header ++ c0) :: rest /\
       c0 ++ concat rest = two_line_text).
Proof.
  assert (E : send_to_telegram chunk_header two_line_text =
    [chunk_header; repeat "a"%char 4090 ++ [NL]; repeat "b"%char 10 ++ [NL]])
    by (vm_compute; reflexivity).
  split; [exact E|].
  intros (c0 & rest & H1 & H2). rewrite E in H1.
  apply (f_equal (fun l => length (concat l))) in H1.
  change (concat ((chunk_header ++ c0) :: rest))
    with ((chunk_header ++ c0) ++ concat rest) in H1.
  rewrite <- app_assoc, H2 in H1.
  vm_compute in H1. discriminate.
Qed.

(** A single line longer than the limit is delivered as one oversized
    chunk. *)
Example chunk_overlong_line :
  send_to_telegram chunk_header (repeat "a"%char 5000) =
    [chunk_header; repeat "a"%char 5000 ++ [NL]].
Proof. vm_compute. reflexivity. Qed.

(** C4 (amended).  When header and text fit in one message the only chunk
    is the header followed by the text.  Otherwise the first chunk begins
    with the header, and the chunks (after that header) followed by a
    final whitespace-only piece that is not delivered spell the text with
    a newline after its last line.  If the header fits and every line is
    shorter than the limit, every chunk is within the limit. *)
Theorem chunking_roundtrip (header text : str) :
  (length (header ++ text) <= TG_MAX_MESSAGE_LENGTH ->
     send_to_telegram header text = [header ++ text]) /\
  (TG_MAX_MESSAGE_LENGTH < length (header ++ text) ->
     exists c0 rest dropped,
       send_to_telegram header text = (header ++ c0) :: rest /\
       c0 ++ concat rest ++ dropped = text ++ [NL] /\
       strip dropped = []) /\
  (length header <= TG_MAX_MESSAGE_LENGTH ->
   Forall (fun l => length l < TG_MAX_MESSAGE_LENGTH) (split_on NL text) ->
   Forall (fun c => length c <= TG_MAX_MESSAGE_LENGTH) (send_to_telegram header text)).
Proof.
  unfold send_to_telegram. split; [|split].
  - intros H. apply Nat.leb_le in H. now rewrite H.
  - intros H. apply Nat.leb_gt in H. rewrite H.
    destruct (chunk_lines_shape (split_on NL text) [] header)
      as (new & cur' & E & Hc & Hs).
    rewrite E. simpl. rewrite terminated_split in Hc.
    destruct Hs as [[-> Hfit]|(c0 & more & ->)].
    + (* nothing was appended: everything would have fit in one message *)
      exfalso. destruct Hfit as [Hnil|Hfit].
      * now apply (split_on_nonempty NL text).
      * rewrite terminated_split in Hfit. apply Nat.leb_gt in H.
        rewrite !length_app in *. simpl in Hfit. lia.
    + change (concat ((header ++ c0) :: more)) with ((header ++ c0) ++ concat more) in Hc.
      rewrite <- !app_assoc in Hc. apply app_inv_head in Hc.
      destruct (null (strip cur')) eqn:Hn.
      * exists c0, more, cur'. repeat split; auto.
        destruct (strip cur'); [reflexivity|discriminate].
      * exists c0, (more ++ [cur']), []. repeat split.
        rewrite concat_app. simpl. now rewrite !app_nil_r, <- Hc.
  - intros Hh Hl.
    destruct (length (header ++ text) <=? TG_MAX_MESSAGE_LENGTH)%nat eqn:H.
    + apply Nat.leb_le in H. constructor; [assumption|constructor].
    + destruct (chunk_lines (split_on NL text) [] header) as [chunks cur] eqn:E.
      destruct (chunk_lines_bound _ _ _ _ _ E Hl (Forall_nil _) Hh) as [Hc Hcur].
      destruct (null (strip cur)); [assumption|].
      apply Forall_app. split; [assumption|]. constructor; [assumption|constructor].
Qed.

Lemma chunking_roundtrip_witness :
  (exists c0 rest dropped,
     send_to_telegram chunk_header two_line_text = (chunk_header ++ c0) :: rest /\
     c0 ++ concat rest ++ dropped = two_line_text ++ [NL] /\
     strip dropped = []) /\
  Forall (fun c => length c <= TG_MAX_MESSAGE_LENGTH)
    (send_to_telegram chunk_header two_line_text).
Proof.
  destruct (chunking_roundtrip chunk_header two_line_text) as (_ & H2 & H3).
  split.
  - apply H2. apply Nat.ltb_lt. vm_compute. reflexivity.
  - apply H3.
    + apply Nat.leb_le. vm_compute. reflexivity.
    + assert (Hs : split_on NL two_line_text = [repeat "a"%char 4090; repeat "b"%char 10])
        by (vm_compute; reflexivity).
      rewrite Hs.
      constructor; [apply Nat.ltb_lt; vm_compute; reflexivity|].
      constructor; [apply Nat.ltb_lt; vm_compute; reflexivity|constructor].
Defined.

(** ** The budget ceiling *)

Local Open Scope Z_scope.

Lemma len_nonneg (s : str) : 0 <= len s.
Proof. unfold len. lia. Qed.

Lemma chars_nonneg (msgs : list str) : 0 <= chars msgs.
Proof.
  induction msgs as [|m rest IH]; simpl; [lia|].
  pose proof (len_nonneg m). lia.
Qed.

Lemma chars_app (a b : list str) : chars (a ++ b) = chars a + chars b.
Proof. induction a as [|m rest IH]; simpl; lia. Qed.

Lemma dict_chars_nonneg (d : dict) : 0 <= dict_chars d.
Proof.
  induction d as [|[k v] rest IH]; simpl; [lia|].
  pose proof (chars_nonneg v). lia.
Qed.

(** Assigning to a key adds the new value's characters and drops those of
    the value it replaces, if any. *)
Lemma dict_chars_set (k : str) (v : list str) (d : dict) :
  dict_chars (dict_set k v d) =
  dict_chars d + chars v - match dict_get k d with Some old => chars old | None => 0 end.
Proof.
  induction d as [|[k' v'] rest IH]; simpl; [lia|].
  destruct (str_eqb k' k); simpl; lia.
Qed.

Lemma dict_chars_set_le (k : str) (v : list str) (d : dict) :
  dict_chars (dict_set k v d) <= dict_chars d + chars v.
Proof.
  rewrite dict_chars_set. destruct (dict_get k d) as [old|]; [|lia].
  pose proof (chars_nonneg old). lia.
Qed.

(** The budget loop of the scrape variant: the messages it accepts are a
    prefix of the channel's messages, the counter grows by exactly their
    size, and it never passes a ceiling it was under. *)
Lemma apply_budget_spec (L : Z) (messages : list str) :
  forall acc total acc' total',
  Public.apply_budget L messages acc total = (acc', total') ->
  exists kept dropped,
    messages = kept ++ dropped /\
    acc' = acc ++ kept /\
    total' = total + chars kept /\
    (total <= L -> total' <= L).
Proof.
  induction messages as [|m rest IH]; intros acc total acc' total' E; simpl in E.
  - inversion E; subst. exists [], []. simpl. rewrite app_nil_r.
    repeat split; auto; lia.
  - destruct (Z.gtb_spec (total + len m) L) as [Hgt|Hle].
    + inversion E; subst. exists [], (m :: rest). simpl. rewrite app_nil_r.
      repeat split; auto; lia.
    + destruct (IH _ _ _ _ E) as (kept & dropped & -> & -> & -> & Hb).
      exists (m :: kept), dropped. simpl. rewrite <- app_assoc.
      repeat split; auto; lia.
Qed.

Lemma budget_inv_store (L : Z) (result : dict) (total : Z) (k : str) (v : list str) :
  budget_inv L (result, total) ->
  total + chars v <= L ->
  budget_inv L (if null v then result else dict_set k v result, total + chars v).
Proof.
  intros [H1 H2] H3. unfold budget_inv in *. simpl in *.
  pose proof (chars_nonneg v).
  split; [|assumption].
  destruct (null v); [lia|].
  pose proof (dict_chars_set_le k v result). lia.
Qed.

Lemma public_collect_loop_inv (srv : Public.server) (cutoff maxpc L : Z)
    (chans : list str) :
  forall i result total tr,
  budget_inv L (result, total) ->
  budget_inv L (fst (Public.collect_loop srv cutoff maxpc L i chans result total tr)).
Proof.
  induction chans as [|raw rest IH]; intros i result total tr Hinv.
  - exact Hinv.
  - simpl. destruct (null (Public.channel_name raw)); [now apply IH|].
    unfold Public.bind.
    destruct (Public.when _ _ tr) as [[] tr1].
    destruct (Public.scrape_channel srv _ cutoff maxpc tr1) as [messages tr2].
    destruct (Public.apply_budget L messages [] total) as [bm total'] eqn:E.
    destruct (apply_budget_spec _ _ _ _ _ _ E) as (kept & dropped & _ & -> & -> & Hb).
    simpl app.
    assert (Hinv' : budget_inv L
              (if null kept then result
               else dict_set (Public.channel_name raw) kept result,
               total + chars kept)).
    { apply budget_inv_store; [assumption|]. apply Hb. apply Hinv. }
    destruct (total + chars kept >? L); [exact Hinv'|].
    now apply IH.
Qed.

(** The channel loop of the client variant: same accounting. *)
Lemma channel_loop_spec (cutoff L : Z) (msgs : list Client.message) :
  forall acc seen total acc' total',
  Client.channel_loop cutoff L msgs acc seen total = (acc', total') ->
  exists kept,
    acc' = acc ++ kept /\
    total' = total + chars kept /\
    (total <= L -> total' <= L).
Proof.
  induction msgs as [|m rest IH]; intros acc seen total acc' total' E; simpl in E.
  - inversion E; subst. exists []. simpl. rewrite app_nil_r. repeat split; auto; lia.
  - assert (Hstop : (acc, total) = (acc', total') ->
      exists kept, acc' = acc ++ kept /\ total' = total + chars kept /\
                   (total <= L -> total' <= L)).
    { intros H; inversion H; subst. exists []. simpl. rewrite app_nil_r.
      repeat split; auto; lia. }
    destruct (Client.m_date m <? cutoff); [auto|].
    destruct (Client.is_noise m); [eauto|].
    destruct (Client.extract_text m) as [text|]; [|eauto].
    destruct (null text); [eauto|].
    destruct (length text <? MIN_MSG_LENGTH)%nat; [eauto|].
    destruct (mem (Client.text_key text) seen); [eauto|].
    destruct (null (clean_text text)); [eauto|].
    destruct (Z.gtb_spec (total + len (clean_text text)) L) as [Hgt|Hle]; [auto|].
    destruct (IH _ _ _ _ _ E) as (kept & -> & -> & Hb).
    exists (clean_text text :: kept). simpl. rewrite <- app_assoc.
    repeat split; auto; lia.
Qed.

Lemma client_collect_loop_inv (client : Client.tg_client) (cutoff maxpc L : Z)
    (chans : list Client.channel_id) :
  forall result total,
  budget_inv L (result, total) ->
  budget_inv L (Client.collect_loop client cutoff maxpc L chans result total).
Proof.
  induction chans as [|c rest IH]; intros result total Hinv.
  - exact Hinv.
  - simpl. destruct (Client.get_entity client c) as [e|]; [|now apply IH].
    destruct (Client.channel_loop cutoff L _ [] [] total) as [ms total'] eqn:E.
    destruct (channel_loop_spec _ _ _ _ _ _ _ _ E) as (kept & -> & -> & Hb).
    simpl app.
    assert (Hinv' : budget_inv L
              (if null kept then result
               else dict_set (Client.channel_name_of e c) kept result,
               total + chars kept)).
    { apply budget_inv_store; [assumption|]. apply Hb. apply Hinv. }
    destruct (total + chars kept >? L); [exact Hinv'|].
    now apply IH.
Qed.

(** The channel loop never stops early under a non-negative ceiling. *)

(** Handling one more channel from a state that satisfies the invariant
    leaves the counter within the ceiling, so the [break] after a channel
    is not taken and the loop goes on with the remaining channels. *)
Lemma public_collect_loop_step (srv : Public.server) (cutoff maxpc L : Z)
    (i : nat) (raw : str) (rest : list str) (result : dict) (total : Z)
    (tr : Public.trace) :
  budget_inv L (result, total) ->
  Public.collect_loop srv cutoff maxpc L i (raw :: rest) result total tr =
    (let '((result', total'), tr') :=
       Public.collect_loop srv cutoff maxpc L i [raw] result total tr in
     Public.collect_loop srv cutoff maxpc L (S i) rest result' total' tr').
Proof.
  intros Hinv. simpl.
  destruct (null (Public.channel_name raw)); [reflexivity|].
  unfold Public.bind.
  destruct (Public.when _ _ tr) as [[] tr1].
  destruct (Public.scrape_channel srv _ cutoff maxpc tr1) as [messages tr2].
  destruct (Public.apply_budget L messages [] total) as [bm total'] eqn:E.
  destruct (apply_budget_spec _ _ _ _ _ _ E) as (kept & dropped & _ & _ & -> & Hb).
  destruct (Z.gtb_spec (total + chars kept) L) as [Hgt|Hle]; [|reflexivity].
  exfalso. destruct Hinv as [_ Ht]. simpl in Ht. specialize (Hb Ht). lia.
Qed.

Lemma public_collect_loop_app (srv : Public.server) (cutoff maxpc L : Z)
    (done rest : list str) :
  forall i result total tr,
  budget_inv L (result, total) ->
  Public.collect_loop srv cutoff maxpc L i (done ++ rest) result total tr =
    (let '((result', total'), tr') :=
       Public.collect_loop srv cutoff maxpc L i done result total tr in
     Public.collect_loop srv cutoff maxpc L (i + length done) rest result' total' tr').
Proof.
  induction done as [|raw done' IH]; intros i result total tr Hinv.
  - simpl. now rewrite Nat.add_0_r.
  - change ((raw :: done') ++ rest) with (raw :: (done' ++ rest)).
    rewrite (public_collect_loop_step srv cutoff maxpc L i raw (done' ++ rest))
      by assumption.
    rewrite (public_collect_loop_step srv cutoff maxpc L i raw done') by assumption.
    pose proof (public_collect_loop_inv srv cutoff maxpc L [raw] i result total tr Hinv)
      as Hinv1.
    destruct (Public.collect_loop srv cutoff maxpc L i [raw] result total tr)
      as [[r1 t1] tr1].
    rewrite IH by exact Hinv1.
    simpl length. now rewrite Nat.add_succ_r.
Qed.

Lemma client_collect_loop_app (client : Client.tg_client) (cutoff maxpc L : Z)
    (done rest : list Client.channel_id) :
  forall result total,
  budget_inv L (result, total) ->
  Client.collect_loop client cutoff maxpc L (done ++ rest) result total =
    (let '(result', total') :=
       Client.collect_loop client cutoff maxpc L done result total in
     Client.collect_loop client cutoff maxpc L rest result' total').
Proof.
  induction done as [|c done' IH]; intros result total Hinv; [reflexivity|].
  simpl. destruct (Client.get_entity client c) as [e|]; [|now apply IH].
  destruct (Client.channel_loop cutoff L _ [] [] total) as [ms total'] eqn:E.
  destruct (channel_loop_spec _ _ _ _ _ _ _ _ E) as (kept & -> & -> & Hb).
  simpl app.
  assert (Hinv' : budget_inv L
            (if null kept then result
             else dict_set (Client.channel_name_of e c) kept result,
             total + chars kept)).
  { apply budget_inv_store; [assumption|]. apply Hb. apply Hinv. }
  destruct (Z.gtb_spec (total + chars kept) L) as [Hgt|Hle]; [|now apply IH].
  exfalso. destruct Hinv' as [_ Ht]. simpl in Ht. lia.
Qed.

(** C1.  With a ceiling [C = maxTotalTokens * 4] (a non-negative budget),
    after any number [n] of channels and when collection ends, the
    characters of all messages stored in the result are at most the running
    total, which is at most [C]; in the scrape variant and in the client
    variant.  The state after [n] channels is the one the run on the first
    [n] channels ends in, and the whole run is its continuation. *)
Theorem budget_ceiling_invariant
    (srv : Public.server) (client : Client.tg_client) (now : Z)
    (cfg_public : config str) (cfg_client : config Client.channel_id)
    (tr : Public.trace) (n : nat) :
  0 <= get (maxTotalTokens cfg_public) DEFAULT_MAX_TOTAL_TOKENS ->
  0 <= get (maxTotalTokens cfg_client) DEFAULT_MAX_TOTAL_TOKENS ->
  (let C := token_limit_of cfg_public in
   let chans := get (channels cfg_public) [] in
   let loop :=
     Public.collect_loop srv (cutoff_of now cfg_public)
       (get (maxMessagesPerChannel cfg_public) DEFAULT_MAX_MESSAGES_PER_CHANNEL) C in
   let mid := loop 0%nat (firstn n chans) [] 0 tr in
   let fin := Public.collect_state srv now cfg_public tr in
   fin = loop (length (firstn n chans)) (skipn n chans)
           (fst (fst mid)) (snd (fst mid)) (snd mid) /\
   dict_chars (fst (fst mid)) <= snd (fst mid) <= C /\
   dict_chars (fst (fst fin)) <= snd (fst fin) <= C /\
   dict_chars (fst (Public.collect_messages srv now cfg_public tr)) <= C) /\
  (let C := token_limit_of cfg_client in
   let chans := get (channels cfg_client) [] in
   let loop :=
     Client.collect_loop client (cutoff_of now cfg_client)
       (get (maxMessagesPerChannel cfg_client) DEFAULT_MAX_MESSAGES_PER_CHANNEL) C in
   let mid := loop (firstn n chans) [] 0 in
   let fin := Client.collect_state client now cfg_client in
   fin = loop (skipn n chans) (fst mid) (snd mid) /\
   dict_chars (fst mid) <= snd mid <= C /\
   dict_chars (fst fin) <= snd fin <= C /\
   dict_chars (Client.collect_messages client now cfg_client) <= C).
Proof.
  intros Hp Hc.
  assert (Hstart : forall L, 0 <= L -> budget_inv L ([], 0)).
  { intros L HL. unfold budget_inv. simpl. lia. }
  assert (HLp : 0 <= token_limit_of cfg_public) by (unfold token_limit_of; lia).
  assert (HLc : 0 <= token_limit_of cfg_client) by (unfold token_limit_of; lia).
  split.
  - intros C chans loop mid fin.
    pose proof (public_collect_loop_inv srv (cutoff_of now cfg_public)
      (get (maxMessagesPerChannel cfg_public) DEFAULT_MAX_MESSAGES_PER_CHANNEL) C) as Inv.
    pose proof (Inv chans 0%nat [] 0 tr (Hstart _ HLp)) as [E1 E2].
    pose proof (Inv (firstn n chans) 0%nat [] 0 tr (Hstart _ HLp)) as [M1 M2].
    fold loop in E1, E2, M1, M2. fold mid in M1, M2.
    assert (Efin : fin = loop 0%nat chans [] 0 tr) by reflexivity.
    rewrite <- Efin in E1, E2.
    split; [|split; [split; assumption|split; [split; assumption|]]].
    + rewrite Efin. rewrite <- (firstn_skipn n chans) at 1.
      unfold loop. rewrite public_collect_loop_app by exact (Hstart _ HLp).
      fold loop. fold mid. now destruct mid as [[r t] tr'].
    + unfold Public.collect_messages, Public.bind, Public.ret. fold fin.
      destruct fin as [[r t] tr']. simpl in *. lia.
  - intros C chans loop mid fin.
    pose proof (client_collect_loop_inv client (cutoff_of now cfg_client)
      (get (maxMessagesPerChannel cfg_client) DEFAULT_MAX_MESSAGES_PER_CHANNEL) C) as Inv.
    pose proof (Inv chans [] 0 (Hstart _ HLc)) as [E1 E2].
    pose proof (Inv (firstn n chans) [] 0 (Hstart _ HLc)) as [M1 M2].
    fold loop in E1, E2, M1, M2. fold mid in M1, M2.
    assert (Efin : fin = loop chans [] 0) by reflexivity.
    rewrite <- Efin in E1, E2.
    split; [|split; [split; assumption|split; [split; assumption|]]].
    + rewrite Efin. rewrite <- (firstn_skipn n chans) at 1.
      unfold loop. rewrite client_collect_loop_app by exact (Hstart _ HLc).
      fold loop. fold mid. now destruct mid as [r t].
    + unfold Client.collect_messages. fold fin. lia.
Qed.

(** ** A tight budget over two channels *)

(** C2 on the code.  With a ceiling of 50 characters (and likewise with
    [maxTotalTokens = 13], a ceiling of 52), channel "a" offering two
    messages of 30 characters and channel "b" one of 20: the first message
    of "a" is kept, the second is refused, and collection goes on: the page
    of "b" is fetched and its message is stored.  The check after a channel,
    [total_chars > token_limit], is never true here because nothing is added
    that would pass the ceiling. *)
Theorem budget_halt_scenario :
  Public.collect_loop Scenario.srv (-86400) 200 50 0 [lit "a"; lit "b"] [] 0 [] =
    (([(lit "a", [Scenario.x30]); (lit "b", [Scenario.z20])], 50),
     [Public.EvGet (lit "https://t.me/s/a") (Public.Response 200 Scenario.page_a);
      Public.EvSleep Public.REQUEST_DELAY;
      Public.EvGet (lit "https://t.me/s/a?before=1") (Public.Response 200 Scenario.no_more);
      Public.EvSleep Public.REQUEST_DELAY;
      Public.EvGet (lit "https://t.me/s/b") (Public.Response 200 Scenario.page_b);
      Public.EvSleep Public.REQUEST_DELAY;
      Public.EvGet (lit "https://t.me/s/b?before=1") (Public.Response 200 Scenario.no_more)]) /\
  fst (Public.collect_messages Scenario.srv 0
         (Scenario.config_of [lit "a"; lit "b"] 13) []) =
    [(lit "a", [Scenario.x30]); (lit "b", [Scenario.z20])] /\
  Client.collect_loop Scenario.client (-86400) 200 50
      [Client.ChanName (lit "a"); Client.ChanName (lit "b")] [] 0 =
    ([(lit "a", [Scenario.x30]); (lit "b", [Scenario.z20])], 50) /\
  Client.collect_messages Scenario.client 0
      (Scenario.config_of [Client.ChanName (lit "a"); Client.ChanName (lit "b")] 13) =
    [(lit "a", [Scenario.x30]); (lit "b", [Scenario.z20])].
Proof. repeat split; vm_compute; reflexivity. Qed.

(** ** Retry on rate limiting *)

(** C9 as stated fails for network errors: such a failure is not retried;
    there is one request, no pause, no second request, and the page is
    given up. *)
Lemma retry_counterexample :
  Public.fetch_page always_down (lit "a") None [] =
    (None, [Public.EvGet (lit "https://t.me/s/a") Public.RequestError]).
Proof. vm_compute. reflexivity. Qed.

(** [fetch_page] with the monad unfolded. *)
Lemma fetch_page_unfold (srv : Public.server) (channel : str) (before : option Z)
    (tr : Public.trace) :
  Public.fetch_page srv channel before tr =
    let url := Public.page_url channel before in
    let first := srv tr url in
    let tr1 := tr ++ [Public.EvGet url first] in
    match first with
    | Public.RequestError => (None, tr1)
    | Public.Response status body =>
        if status =? 429 then
          let tr2 := tr1 ++ [Public.EvSleep Public.RETRY_SLEEP] in
          let second := srv tr2 url in
          (match second with
           | Public.RequestError => None
           | Public.Response status2 body2 =>
               if status2 =? 429 then None
               else if Public.is_success status2 then Some body2 else None
           end,
           tr2 ++ [Public.EvGet url second])
        else (if Public.is_success status then Some body else None, tr1)
    end.
Proof.
  unfold Public.fetch_page, Public.bind, Public.http_get, Public.sleep, Public.ret.
  cbv zeta.
  destruct (srv tr (Public.page_url channel before)) as [|s body]; [reflexivity|].
  destruct (s =? 429); [|destruct (Public.is_success s); reflexivity].
  destruct (srv _ (Public.page_url channel before)) as [|s2 body2]; [reflexivity|].
  destruct (s2 =? 429); [reflexivity|].
  destruct (Public.is_success s2); reflexivity.
Qed.

(** C9 (amended).  Only a 429 answer is retried: the request is repeated
    exactly once after the fixed pause [RETRY_SLEEP] and the second answer
    decides (a second 429, another error status or a network error give up
    the page).  Any other failure of the first request (network error, error
    status) gives up the page at once, without pause or retry.  When a page
    is given up, pagination of that channel ends with the messages
    collected so far, and the run (from any state within the ceiling) goes
    on with the remaining channels. *)
Theorem fetch_retry_semantics (srv : Public.server) (channel : str)
    (before : option Z) (tr : Public.trace) :
  let url := Public.page_url channel before in
  let first := srv tr url in
  (forall body, first = Public.Response 429 body ->
     let paused := tr ++ [Public.EvGet url first; Public.EvSleep Public.RETRY_SLEEP] in
     let second := srv paused url in
     Public.fetch_page srv channel before tr =
       (page_of second, paused ++ [Public.EvGet url second])) /\
  ((forall body, first <> Public.Response 429 body) ->
     Public.fetch_page srv channel before tr =
       (page_of first, tr ++ [Public.EvGet url first])) /\
  (forall cutoff max_messages pages page all_messages seen_ids tr0 tr',
     snd (Public.when (0 <? page)%nat (Public.sleep Public.REQUEST_DELAY) tr0) = tr ->
     Public.fetch_page srv channel before tr = (None, tr') ->
     Public.scrape_pages srv channel cutoff max_messages (S pages) page
       all_messages seen_ids before tr0 = (all_messages, tr')) /\
  (forall cutoff maxpc L i raw rest result total,
     budget_inv L (result, total) ->
     Public.collect_loop srv cutoff maxpc L i (raw :: rest) result total tr =
       (let '((result', total'), tr') :=
          Public.collect_loop srv cutoff maxpc L i [raw] result total tr in
        Public.collect_loop srv cutoff maxpc L (S i) rest result' total' tr')).
Proof.
  intros url first. split; [|split; [|split]].
  - intros body Hfirst paused second.
    rewrite fetch_page_unfold. cbv zeta. fold url. fold first.
    subst paused second. rewrite Hfirst. simpl Z.eqb. cbv iota.
    rewrite <- app_assoc. simpl app.
    match goal with
    | |- context [srv (tr ++ ?l) url] => destruct (srv (tr ++ l) url) as [|s2 b2]
    end; [reflexivity|].
    simpl page_of. destruct (Z.eqb_spec s2 429) as [->|Hs]; reflexivity.
  - intros Hnot.
    rewrite fetch_page_unfold. cbv zeta. fold url. fold first.
    destruct first as [|s body] eqn:Hf; [reflexivity|].
    destruct (Z.eqb_spec s 429) as [->|Hs]; [now elim (Hnot body)|].
    reflexivity.
  - intros cutoff max_messages pages page all_messages seen_ids tr0 tr' Hw Hf.
    simpl. unfold Public.bind at 1.
    destruct (Public.when _ _ tr0) as [[] tr1]. simpl in Hw. subst tr1.
    unfold Public.bind. rewrite Hf. reflexivity.
  - intros. now apply public_collect_loop_step.
Qed.

Lemma fetch_retry_semantics_witness :
  Public.fetch_page always_429 (lit "a") None [] =
    (None,
     [Public.EvGet (lit "https://t.me/s/a") (Public.Response 429 Scenario.no_more);
      Public.EvSleep Public.RETRY_SLEEP;
      Public.EvGet (lit "https://t.me/s/a") (Public.Response 429 Scenario.no_more)]) /\
  Public.fetch_page always_down (lit "a") None [] =
    (None, [Public.EvGet (lit "https://t.me/s/a") Public.RequestError]) /\
  fst (Public.scrape_pages always_429 (lit "a") 0 200 5 0 [] [] None []) = [] /\
  Public.collect_loop always_429 0 200 50 0 [lit "a"; lit "b"] [] 0 [] =
    (let '((result', total'), tr') :=
       Public.collect_loop always_429 0 200 50 0 [lit "a"] [] 0 [] in
     Public.collect_loop always_429 0 200 50 1 [lit "b"] result' total' tr').
Proof.
  destruct (fetch_retry_semantics always_429 (lit "a") None []) as (H1 & _ & H3 & H4).
  destruct (fetch_retry_semantics always_down (lit "a") None []) as (_ & H2 & _).
  assert (E1 := H1 Scenario.no_more eq_refl).
  split; [exact E1|].
  split; [apply H2; intros body H; discriminate H|].
  split.
  - rewrite (H3 0 200 4%nat 0%nat [] [] [] _ eq_refl E1). reflexivity.
  - apply H4. split; simpl; lia.
Defined.

(** ** Two channels under one result key *)

Lemma str_eqb_eq (a b : str) : str_eqb a b = true <-> a = b.
Proof.
  unfold str_eqb. destruct (list_eq_dec ascii_dec a b); split; congruence.
Qed.

Lemma str_eqb_refl (a : str) : str_eqb a a = true.
Proof. now apply str_eqb_eq. Qed.

Lemma dict_get_set (k : str) (v : list str) (d : dict) :
  dict_get k (dict_set k v d) = Some v.
Proof.
  induction d as [|[k' v'] rest IH]; simpl.
  - now rewrite str_eqb_refl.
  - destruct (str_eqb k' k) eqn:E; simpl.
    + now rewrite str_eqb_refl.
    + now rewrite E.
Qed.

Lemma dict_get_set_other (k k2 : str) (v : list str) (d : dict) :
  k2 <> k -> dict_get k2 (dict_set k v d) = dict_get k2 d.
Proof.
  intros Hne. induction d as [|[k' v'] rest IH]; simpl.
  - destruct (str_eqb k k2) eqn:E; [|reflexivity].
    apply str_eqb_eq in E. congruence.
  - destruct (str_eqb k' k) eqn:E; simpl.
    + apply str_eqb_eq in E. subst k'.
      destruct (str_eqb k k2) eqn:E2; [|reflexivity].
      apply str_eqb_eq in E2. congruence.
    + now rewrite IH.
Qed.

(** Assigning to a key that is present keeps the keys and their order. *)
Lemma dict_set_keys (k : str) (v old : list str) (d : dict) :
  dict_get k d = Some old -> map fst (dict_set k v d) = map fst d.
Proof.
  induction d as [|[k' v'] rest IH]; simpl; [discriminate|].
  destruct (str_eqb k' k) eqn:E; simpl.
  - apply str_eqb_eq in E. now subst.
  - intros H. now rewrite IH.
Qed.

Lemma null_nil {A} (l : list A) : null l = true <-> l = [].
Proof. destruct l; simpl; split; congruence. Qed.

(** What storing a channel's accepted messages under a key that is taken
    does to the state. *)
Lemma store_on_collision (k : str) (earlier later : list str) (result : dict) :
  dict_get k result = Some earlier ->
  let result' := if null later then result else dict_set k later result in
  (later <> [] ->
     dict_get k result' = Some later /\
     map fst result' = map fst result /\
     dict_chars result' = dict_chars result - chars earlier + chars later) /\
  (later = [] -> result' = result).
Proof.
  intros Hget result'. subst result'. split.
  - intros Hne. destruct later as [|m ms]; [contradiction|]. simpl null. cbv iota.
    split; [apply dict_get_set|].
    split; [now apply dict_set_keys with (old := earlier)|].
    rewrite dict_chars_set, Hget. lia.
  - intros ->. reflexivity.
Qed.

(** C10 (amended).  When a channel is handled whose result key already
    holds the messages of an earlier channel, the running total grows by
    the characters of the newly accepted messages and nothing is given back
    for the earlier ones.  If the newly accepted list is not empty it
    replaces the earlier list under that key, in place; if it is empty the
    earlier entry stays as it is. *)
Theorem key_collision_overwrite :
  (forall (srv : Public.server) (cutoff maxpc L : Z) (i : nat) (raw : str)
          (result : dict) (total : Z) (tr : Public.trace) (earlier : list str),
     let k := Public.channel_name raw in
     k <> [] ->
     dict_get k result = Some earlier ->
     let tr1 := snd (Public.when (0 <? i)%nat (Public.sleep Public.REQUEST_DELAY) tr) in
     let messages := fst (Public.scrape_channel srv k cutoff maxpc tr1) in
     let later := fst (Public.apply_budget L messages [] total) in
     let st' := fst (Public.collect_loop srv cutoff maxpc L i [raw] result total tr) in
     snd st' = total + chars later /\
     (later <> [] ->
        dict_get k (fst st') = Some later /\
        map fst (fst st') = map fst result /\
        dict_chars (fst st') = dict_chars result - chars earlier + chars later) /\
     (later = [] -> fst st' = result)) /\
  (forall (client : Client.tg_client) (cutoff maxpc L : Z) (c : Client.channel_id)
          (e : Client.entity) (result : dict) (total : Z) (earlier : list str),
     Client.get_entity client c = Some e ->
     let k := Client.channel_name_of e c in
     dict_get k result = Some earlier ->
     let later :=
       fst (Client.channel_loop cutoff L (Client.iter_messages client e maxpc) [] [] total) in
     let st' := Client.collect_loop client cutoff maxpc L [c] result total in
     snd st' = total + chars later /\
     (later <> [] ->
        dict_get k (fst st') = Some later /\
        map fst (fst st') = map fst result /\
        dict_chars (fst st') = dict_chars result - chars earlier + chars later) /\
     (later = [] -> fst st' = result)).
Proof.
  split.
  - intros srv cutoff maxpc L i raw result total tr earlier k Hk Hget tr1 messages later st'.
    subst st'. simpl Public.collect_loop. fold k.
    destruct (null k) eqn:Hn; [apply null_nil in Hn; contradiction|].
    unfold Public.bind.
    subst later messages tr1.
    destruct (Public.when _ _ tr) as [[] tr1]. simpl snd.
    destruct (Public.scrape_channel srv k cutoff maxpc tr1) as [messages tr2]. simpl fst.
    destruct (Public.apply_budget L messages [] total) as [later total'] eqn:E.
    destruct (apply_budget_spec _ _ _ _ _ _ E) as (kept & dropped & _ & -> & -> & _).
    simpl app. simpl fst.
    destruct (store_on_collision k earlier kept result Hget) as [Hrep Hkeep].
    destruct (total + chars kept >? L); simpl; auto.
  - intros client cutoff maxpc L c e result total earlier He k Hget later st'.
    subst st'. simpl Client.collect_loop. rewrite He. fold k. subst later.
    destruct (Client.channel_loop cutoff L _ [] [] total) as [later total'] eqn:E.
    destruct (channel_loop_spec _ _ _ _ _ _ _ _ E) as (kept & -> & -> & _).
    simpl app. simpl fst.
    destruct (store_on_collision k earlier kept result Hget) as [Hrep Hkeep].
    destruct (total + chars kept >? L); simpl; auto.
Qed.

(** C10 as stated fails when the later channel accepts nothing.  The same
    channel configured twice, as "a" and "@a", under a ceiling of 50: the second pass accepts nothing (its first message no longer
    fits), so nothing is stored for it and the entry of the first pass is
    still there at the end. *)
Lemma key_collision_counterexample :
  Public.channel_name (lit "a") = Public.channel_name (lit "@a") /\
  (let first := Public.collect_loop Scenario.srv (-86400) 200 50 0 [lit "a"] [] 0 [] in
   let tr1 := snd (Public.sleep Public.REQUEST_DELAY (snd first)) in
   let later :=
     fst (Public.apply_budget 50
            (fst (Public.scrape_channel Scenario.srv (lit "a") (-86400) 200 tr1))
            [] (snd (fst first))) in
   let final :=
     fst (fst (Public.collect_loop Scenario.srv (-86400) 200 50 0
                 [lit "a"; lit "@a"] [] 0 [])) in
   fst (fst first) = [(lit "a", [Scenario.x30])] /\
   later = [] /\
   final = [(lit "a", [Scenario.x30])] /\
   dict_get (lit "a") final <> Some later).
Proof.
  split; [vm_compute; reflexivity|].
  cbv zeta. repeat split; try (vm_compute; reflexivity).
  vm_compute. discriminate.
Qed.

Lemma key_collision_overwrite_witness :
  (fst (Public.collect_loop Collision.srv (-86400) 200 200 0 [lit "a"] [] 0 []) =
     ([(lit "a", [Scenario.x30; Scenario.y30])], 60) /\
   let st' := fst (Public.collect_loop Collision.srv (-86400) 200 200 1 [lit "@a"]
                     [(lit "a", [Scenario.x30; Scenario.y30])] 60
                     Collision.trace_after_first) in
   dict_get (lit "a") (fst st') = Some [Scenario.z20] /\
   dict_chars (fst st') = 20 /\ snd st' = 80) /\
  (let st' := Client.collect_loop Collision.client (-86400) 200 200
                [Client.ChanNum 7]
                [(lit "News", [Scenario.x30; Scenario.y30])] 60 in
   dict_get (lit "News") (fst st') = Some [Scenario.z20] /\
   dict_chars (fst st') = 20 /\ snd st' = 80).
Proof.
  destruct key_collision_overwrite as [HP HC].
  split; [split; [vm_compute; reflexivity|]|].
  - destruct (HP Collision.srv (-86400) 200 200 1%nat (lit "@a")
                [(lit "a", [Scenario.x30; Scenario.y30])] 60
                Collision.trace_after_first [Scenario.x30; Scenario.y30])
      as (Ht & Hrep & _).
    + vm_compute. discriminate.
    + vm_compute. reflexivity.
    + destruct Hrep as (Hg & _ & Hc).
      * vm_compute. discriminate.
      * cbv zeta. split; [|split].
        -- vm_compute in Hg. vm_compute. exact Hg.
        -- vm_compute in Hc. vm_compute. exact Hc.
        -- vm_compute in Ht. vm_compute. exact Ht.
  - destruct (HC Collision.client (-86400) 200 200 (Client.ChanNum 7)
                (Scenario.entity_of (lit "News") 2)
                [(lit "News", [Scenario.x30; Scenario.y30])] 60
                [Scenario.x30; Scenario.y30])
      as (Ht & Hrep & _).
    + reflexivity.
    + vm_compute. reflexivity.
    + destruct Hrep as (Hg & _ & Hc).
      * vm_compute. discriminate.
      * cbv zeta. split; [|split].
        -- vm_compute in Hg. vm_compute. exact Hg.
        -- vm_compute in Hc. vm_compute. exact Hc.
        -- vm_compute in Ht. vm_compute. exact Ht.
Defined.

Lemma budget_ceiling_invariant_witness :
  dict_chars (fst (Public.collect_messages Scenario.srv 0
                     (Scenario.config_of [lit "a"; lit "b"] 13) [])) <= 52 /\
  dict_chars (Client.collect_messages Scenario.client 0
                (Scenario.config_of
                   [Client.ChanName (lit "a"); Client.ChanName (lit "b")] 13)) <= 52.
Proof.
  destruct (budget_ceiling_invariant Scenario.srv Scenario.client 0
              (Scenario.config_of [lit "a"; lit "b"] 13)
              (Scenario.config_of
                 [Client.ChanName (lit "a"); Client.ChanName (lit "b")] 13)
              [] 1)
    as [(_ & _ & _ & HP) (_ & _ & _ & HC)].
  - simpl. lia.
  - simpl. lia.
  - split; [exact HP|exact HC].
Defined.

(** ** The time cutoff *)

Section PublicCutoff.

Variable srv : Public.server.
Variable cutoff : Z.

Lemma msg_sourced_mono (tr tr' : Public.trace) (m : Public.msg) :
  incl tr tr' -> msg_sourced cutoff tr m -> msg_sourced cutoff tr' m.
Proof.
  intros Hi (url & st & body & w & raw & H & Hrest).
  exists url, st, body, w, raw. split; [now apply Hi|exact Hrest].
Qed.

Lemma sourced_mono (tr tr' : Public.trace) (r : str) :
  incl tr tr' -> sourced cutoff tr r -> sourced cutoff tr' r.
Proof.
  intros Hi (url & st & body & w & d & raw & H & Hrest).
  exists url, st, body, w, d, raw. split; [now apply Hi|exact Hrest].
Qed.

(** Every message [parse_messages] returns was read from a widget of the
    page whose time is not before the cutoff. *)
Lemma parse_widgets_cutoff (ws : list Public.widget) :
  forall messages oldest m,
  In m (fst (Public.parse_widgets cutoff ws messages oldest)) ->
  In m messages \/
  exists w raw,
    In w ws /\
    Public.w_time w = Public.TimeAt (Public.msg_date m) /\
    cutoff <= Public.msg_date m /\
    Public.w_text w = Some raw /\
    Public.msg_text m = strip raw.
Proof.
  induction ws as [|w rest IH]; intros messages oldest m Hin; simpl in Hin.
  - now left.
  - assert (Hskip : forall o,
      In m (fst (Public.parse_widgets cutoff rest messages o)) ->
      In m messages \/
      exists w0 raw, In w0 (w :: rest) /\
        Public.w_time w0 = Public.TimeAt (Public.msg_date m) /\
        cutoff <= Public.msg_date m /\
        Public.w_text w0 = Some raw /\ Public.msg_text m = strip raw).
    { intros o H. destruct (IH _ _ _ H) as [?|(w0 & raw & Hw & Hr)]; [now left|].
      right. exists w0, raw. split; [now right|exact Hr]. }
    destruct (Public.w_post w) as [| |id]; try (now apply Hskip in Hin).
    destruct (Public.w_time w) as [| |d] eqn:Ht; try (now apply Hskip in Hin).
    destruct (Z.ltb_spec d cutoff) as [Hold|Hnew]; [now apply Hskip in Hin|].
    destruct (Public.w_text w) as [raw|] eqn:Hx; [|now apply Hskip in Hin].
    destruct (null (strip raw)); [now apply Hskip in Hin|].
    destruct (IH _ _ _ Hin) as [Hacc|(w0 & raw0 & Hw & Hr)].
    + apply in_app_or in Hacc. destruct Hacc as [?|[<-|[]]]; [now left|].
      right. exists w, raw. simpl. auto.
    + right. exists w0, raw0. split; [now right|exact Hr].
Qed.

Lemma parse_messages_cutoff (html : Public.page) (m : Public.msg) :
  In m (fst (Public.parse_messages html cutoff)) ->
  exists w raw,
    In w (Public.widgets html) /\
    Public.w_time w = Public.TimeAt (Public.msg_date m) /\
    cutoff <= Public.msg_date m /\
    Public.w_text w = Some raw /\
    Public.msg_text m = strip raw.
Proof.
  unfold Public.parse_messages.
  destruct (Public.history_unavailable html); [intros []|].
  intros H. destruct (parse_widgets_cutoff _ _ _ _ H) as [[]|Hw]. exact Hw.
Qed.

(** [fetch_page] only adds to the trace, and a page it returns was
    received by a request recorded there. *)
Lemma fetch_page_trace (channel : str) (before : option Z) (tr : Public.trace) :
  incl tr (snd (Public.fetch_page srv channel before tr)) /\
  forall body, fst (Public.fetch_page srv channel before tr) = Some body ->
    exists url status,
      In (Public.EvGet url (Public.Response status body))
         (snd (Public.fetch_page srv channel before tr)).
Proof.
  unfold Public.fetch_page, Public.bind, Public.http_get, Public.sleep, Public.ret.
  set (url := Public.page_url channel before).
  destruct (srv tr url) as [|s body] eqn:E1; simpl.
  - split; [apply incl_appl, incl_refl|discriminate].
  - destruct (s =? 429).
    + set (tr2 := (tr ++ _) ++ _).
      destruct (srv tr2 url) as [|s2 body2] eqn:E2; simpl.
      * split; [|discriminate].
        unfold tr2. apply incl_appl, incl_appl, incl_appl, incl_refl.
      * assert (Hi : incl tr (tr2 ++ [Public.EvGet url (Public.Response s2 body2)])).
        { unfold tr2. apply incl_appl, incl_appl, incl_appl, incl_refl. }
        destruct (s2 =? 429); simpl; [split; [exact Hi|discriminate]|].
        destruct (Public.is_success s2); simpl; (split; [exact Hi|]); [|discriminate].
        intros b Hb. inversion Hb; subst. exists url, s2.
        apply in_or_app. right. now left.
    + destruct (Public.is_success s); simpl;
        (split; [apply incl_appl, incl_refl|]); [|discriminate].
      intros b Hb. inversion Hb; subst. exists url, s.
      apply in_or_app. right. now left.
Qed.

Lemma add_new_in (messages : list Public.msg) :
  forall all seen n m,
  In m (fst (fst (Public.add_new messages all seen n))) ->
  In m all \/ In m messages.
Proof.
  induction messages as [|x rest IH]; intros all seen n m H; simpl in H.
  - now left.
  - destruct (Public.mem_id (Public.msg_id x) seen).
    + destruct (IH _ _ _ _ H); [now left|right; now right].
    + destruct (IH _ _ _ _ H) as [Ha|Hr]; [|right; now right].
      apply in_app_or in Ha. destruct Ha as [?|[<-|[]]]; [now left|right; now left].
Qed.

Lemma when_sleep_incl (b : bool) (d : Public.delay) (tr : Public.trace) :
  incl tr (snd (Public.when b (Public.sleep d) tr)).
Proof.
  destruct b; simpl; [apply incl_appl|]; apply incl_refl.
Qed.

(** Pagination keeps the property that every collected message stems
    from a received page and is not older than the cutoff. *)
Lemma scrape_pages_sourced (channel : str) (max_messages : Z) (pages : nat) :
  forall page all seen before tr,
  (forall m, In m all -> msg_sourced cutoff tr m) ->
  let out := Public.scrape_pages srv channel cutoff max_messages pages page
               all seen before tr in
  incl tr (snd out) /\ forall m, In m (fst out) -> msg_sourced cutoff (snd out) m.
Proof.
  induction pages as [|pages IH]; intros page all seen before tr Hall out; subst out.
  - simpl. split; [apply incl_refl|exact Hall].
  - simpl. unfold Public.bind.
    pose proof (when_sleep_incl (0 <? page)%nat Public.REQUEST_DELAY tr) as Hi1.
    destruct (Public.when _ _ tr) as [[] tr1]. simpl in Hi1.
    destruct (fetch_page_trace channel before tr1) as [Hi2 Hbody].
    destruct (Public.fetch_page srv channel before tr1) as [[html|] tr2];
      simpl in Hi2, Hbody.
    2:{ simpl. split; [eapply incl_tran; eassumption|].
        intros m Hm. eapply msg_sourced_mono; [|now apply Hall].
        eapply incl_tran; eassumption. }
    assert (Hi : incl tr tr2) by (eapply incl_tran; eassumption).
    assert (Hold : forall m, In m all -> msg_sourced cutoff tr2 m).
    { intros m Hm. eapply msg_sourced_mono; [exact Hi|now apply Hall]. }
    destruct (Hbody html eq_refl) as (url & status & Hev).
    pose proof (parse_messages_cutoff html) as Hparse.
    destruct (Public.parse_messages html cutoff) as [messages oldest]. simpl in Hparse.
    destruct (null messages && (page =? 0)%nat); [simpl; auto|].
    pose proof (add_new_in messages all seen 0%nat) as Hadd.
    destruct (Public.add_new messages all seen 0) as [[all' seen'] new_count].
    simpl in Hadd.
    assert (Hall' : forall m, In m all' -> msg_sourced cutoff tr2 m).
    { intros m Hm. destruct (Hadd m Hm) as [Ho|Hn]; [now apply Hold|].
      destruct (Hparse m Hn) as (w & raw & Hw & Hr).
      exists url, status, html, w, raw. auto. }
    destruct (new_count =? 0)%nat; [simpl; auto|].
    destruct (max_messages <=? Z.of_nat (length all')); [simpl; auto|].
    destruct oldest as [o|]; [|simpl; auto].
    destruct (IH (S page) all' seen' (Some o) tr2 Hall') as [Hi3 Hm3].
    split; [eapply incl_tran; eassumption|exact Hm3].
Qed.

End PublicCutoff.

Lemma insert_desc_in (m x : Public.msg) (l : list Public.msg) :
  In x (Public.insert_desc m l) <-> x = m \/ In x l.
Proof.
  induction l as [|y rest IH]; simpl.
  - intuition congruence.
  - destruct (Public.msg_date m <? Public.msg_date y); simpl; [rewrite IH|];
      intuition congruence.
Qed.

(** Sorting only reorders. *)
Lemma sort_desc_in (x : Public.msg) (l : list Public.msg) :
  In x (Public.sort_desc l) <-> In x l.
Proof.
  induction l as [|m rest IH]; simpl; [tauto|].
  rewrite insert_desc_in, IH. intuition congruence.
Qed.

Lemma firstn_in {A} (n : nat) (l : list A) (x : A) : In x (firstn n l) -> In x l.
Proof.
  intros H. rewrite <- (firstn_skipn n l). apply in_or_app. now left.
Qed.

Lemma py_prefix_in {A} (n : Z) (l : list A) (x : A) : In x (py_prefix n l) -> In x l.
Proof.
  unfold py_prefix. destruct (0 <=? n); apply firstn_in.
Qed.

(** Every string the filter loop returns is the cleaned text of one of
    the messages it was given, long enough before cleaning and not empty
    after it. *)
Lemma filter_clean_in (msgs : list Public.msg) :
  forall result seen r,
  In r (Public.filter_clean msgs result seen) ->
  In r result \/
  exists m, In m msgs /\
    (MIN_MSG_LENGTH <= length (Public.msg_text m))%nat /\
    r = clean_text (Public.msg_text m) /\ r <> [].
Proof.
  induction msgs as [|m rest IH]; intros result seen r H; simpl in H.
  - now left.
  - assert (Hskip : forall s,
      In r (Public.filter_clean rest result s) ->
      In r result \/
      exists m0, In m0 (m :: rest) /\
        (MIN_MSG_LENGTH <= length (Public.msg_text m0))%nat /\
        r = clean_text (Public.msg_text m0) /\ r <> []).
    { intros s Hs. destruct (IH _ _ _ Hs) as [?|(m0 & Hm & Hr)]; [now left|].
      right. exists m0. split; [now right|exact Hr]. }
    destruct (Nat.ltb_spec (length (Public.msg_text m)) MIN_MSG_LENGTH) as [Hs|Hl];
      [now apply Hskip in H|].
    destruct (mem _ seen); [now apply Hskip in H|].
    destruct (null (clean_text (Public.msg_text m))) eqn:Hn; [now apply Hskip in H|].
    destruct (IH _ _ _ H) as [Hacc|(m0 & Hm & Hr)].
    + apply in_app_or in Hacc. destruct Hacc as [?|[<-|[]]]; [now left|].
      right. exists m. repeat split; auto; [now left|].
      intros E. rewrite E in Hn. discriminate.
    + right. exists m0. split; [now right|exact Hr].
Qed.

Lemma dict_set_in (k k' : str) (v v' : list str) (d : dict) :
  In (k', v') (dict_set k v d) -> (k', v') = (k, v) \/ In (k', v') d.
Proof.
  induction d as [|[k0 v0] rest IH]; simpl.
  - intros [H|[]]. now left.
  - destruct (str_eqb k0 k); simpl.
    + intros [H|H]; [now left|right; now right].
    + intros [H|H]; [right; now left|].
      destruct (IH H); [now left|right; now right].
Qed.

Section PublicCutoffRun.

Variable srv : Public.server.
Variable cutoff : Z.

Lemma scrape_channel_sourced (channel : str) (max_messages : Z) (tr : Public.trace) :
  let out := Public.scrape_channel srv channel cutoff max_messages tr in
  incl tr (snd out) /\ forall r, In r (fst out) -> sourced cutoff (snd out) r.
Proof.
  unfold Public.scrape_channel, Public.bind, Public.ret.
  destruct (scrape_pages_sourced srv cutoff channel max_messages
              MAX_PAGES_PER_CHANNEL 0%nat [] [] None tr) as [Hi Hm].
  { intros m []. }
  destruct (Public.scrape_pages srv channel cutoff max_messages
              MAX_PAGES_PER_CHANNEL 0 [] [] None tr) as [all tr'].
  simpl in *. split; [exact Hi|].
  intros r Hr. destruct (filter_clean_in _ _ _ _ Hr) as [[]|(m & Hin & _ & -> & _)].
  apply py_prefix_in, sort_desc_in, Hm in Hin.
  destruct Hin as (url & st & body & w & raw & H1 & H2 & H3 & H4 & H5 & H6).
  exists url, st, body, w, (Public.msg_date m), raw. rewrite H6. auto 10.
Qed.

Lemma public_collect_loop_sourced (maxpc L : Z) (chans : list str) :
  forall i result total tr,
  result_sourced cutoff tr result ->
  let out := Public.collect_loop srv cutoff maxpc L i chans result total tr in
  result_sourced cutoff (snd out) (fst (fst out)).
Proof.
  induction chans as [|raw rest IH]; intros i result total tr Hres out; subst out.
  - exact Hres.
  - simpl. destruct (null (Public.channel_name raw)); [now apply IH|].
    unfold Public.bind.
    pose proof (when_sleep_incl (0 <? i)%nat Public.REQUEST_DELAY tr) as Hi1.
    destruct (Public.when _ _ tr) as [[] tr1]. simpl in Hi1.
    destruct (scrape_channel_sourced (Public.channel_name raw) maxpc tr1) as [Hi2 Hsrc].
    destruct (Public.scrape_channel srv _ cutoff maxpc tr1) as [messages tr2].
    simpl in Hi2, Hsrc.
    destruct (Public.apply_budget L messages [] total) as [bm total'] eqn:E.
    destruct (apply_budget_spec _ _ _ _ _ _ E) as (kept & dropped & -> & -> & _ & _).
    simpl app.
    assert (Hres' : result_sourced cutoff tr2
              (if null kept then result
               else dict_set (Public.channel_name raw) kept result)).
    { intros k v r Hkv Hr.
      assert (Hold : In (k, v) result -> sourced cutoff tr2 r).
      { intros H. eapply sourced_mono; [|exact (Hres k v r H Hr)].
        eapply incl_tran; eassumption. }
      destruct (null kept); [now apply Hold|].
      destruct (dict_set_in _ _ _ _ _ Hkv) as [Heq|Hin]; [|now apply Hold].
      inversion Heq; subst. apply Hsrc. apply in_or_app. now left. }
    destruct (total' >? L); [exact Hres'|].
    now apply IH.
Qed.

End PublicCutoffRun.

Lemma client_sourced_cons (cutoff : Z) (m0 : Client.message)
    (rest : list Client.message) (r : str) :
  cutoff <= Client.m_date m0 ->
  client_sourced cutoff rest r -> client_sourced cutoff (m0 :: rest) r.
Proof.
  intros H0 (pre & m & post & text & -> & Hf & Hr).
  exists (m0 :: pre), m, post, text. split; [reflexivity|].
  split; [simpl; now constructor|exact Hr].
Qed.

Lemma channel_loop_sourced (cutoff L : Z) (msgs : list Client.message) :
  forall acc seen total r,
  In r (fst (Client.channel_loop cutoff L msgs acc seen total)) ->
  In r acc \/ client_sourced cutoff msgs r.
Proof.
  induction msgs as [|m rest IH]; intros acc seen total r H; simpl in H.
  - now left.
  - destruct (Z.ltb_spec (Client.m_date m) cutoff) as [Hold|Hnew]; [now left|].
    assert (Hskip : forall s,
      In r (fst (Client.channel_loop cutoff L rest acc s total)) ->
      In r acc \/ client_sourced cutoff (m :: rest) r).
    { intros s Hs. destruct (IH _ _ _ _ Hs); [now left|].
      right. now apply client_sourced_cons. }
    destruct (Client.is_noise m) eqn:Hnoise; [now apply Hskip in H|].
    destruct (Client.extract_text m) as [text|] eqn:Hx; [|now apply Hskip in H].
    destruct (null text); [now apply Hskip in H|].
    destruct (length text <? MIN_MSG_LENGTH)%nat; [now apply Hskip in H|].
    destruct (mem (Client.text_key text) seen); [now apply Hskip in H|].
    destruct (null (clean_text text)); [now apply Hskip in H|].
    destruct (total + len (clean_text text) >? L); [now left|].
    destruct (IH _ _ _ _ H) as [Hacc|Hsrc].
    + apply in_app_or in Hacc. destruct Hacc as [?|[<-|[]]]; [now left|].
      right. exists [], m, rest, text. simpl. repeat split; auto.
    + right. now apply client_sourced_cons.
Qed.

Lemma client_collect_loop_sourced (client : Client.tg_client) (cutoff maxpc L : Z)
    (Q : str -> Prop) (chans : list Client.channel_id) :
  (forall c e r, In c chans -> Client.get_entity client c = Some e ->
     client_sourced cutoff (Client.iter_messages client e maxpc) r -> Q r) ->
  forall result total,
  (forall k v r, In (k, v) result -> In r v -> Q r) ->
  forall k v r,
  In (k, v) (fst (Client.collect_loop client cutoff maxpc L chans result total)) ->
  In r v -> Q r.
Proof.
  induction chans as [|c rest IH]; intros HQ result total Hres; simpl.
  - exact Hres.
  - assert (HQ' : forall c0 e r, In c0 rest -> Client.get_entity client c0 = Some e ->
      client_sourced cutoff (Client.iter_messages client e maxpc) r -> Q r).
    { intros c0 e r Hc. apply HQ. now right. }
    destruct (Client.get_entity client c) as [e|] eqn:He; [|now apply IH].
    pose proof (channel_loop_sourced cutoff L (Client.iter_messages client e maxpc)
                  [] [] total) as Hsrc.
    destruct (Client.channel_loop cutoff L _ [] [] total) as [ms total'].
    simpl in Hsrc.
    assert (Hres' : forall k v r,
      In (k, v) (if null ms then result
                 else dict_set (Client.channel_name_of e c) ms result) ->
      In r v -> Q r).
    { intros k v r Hkv Hr. destruct (null ms); [now apply (Hres k v)|].
      destruct (dict_set_in _ _ _ _ _ Hkv) as [Heq|Hin]; [|now apply (Hres k v)].
      inversion Heq; subst.
      destruct (Hsrc r Hr) as [[]|Hs].
      apply (HQ c e); auto. now left. }
    destruct (total' >? L); [exact Hres'|].
    now apply IH.
Qed.

(** C7.  No message older than the cutoff [now - lookbackHours] reaches
    the result.  Scrape variant: [parse_messages] returns only messages
    whose time is not before the cutoff, and every message stored by a run
    is the cleaned text of a widget, not older than the cutoff, of a page
    received during that run.  Client variant: every stored message is the
    cleaned text of a message of some configured channel's sequence such
    that neither it nor any message before it in the sequence is older
    than the cutoff (iteration stops at the first older one). *)
Theorem cutoff_correctness :
  (forall (html : Public.page) (cutoff : Z) (m : Public.msg),
     In m (fst (Public.parse_messages html cutoff)) -> cutoff <= Public.msg_date m) /\
  (forall (srv : Public.server) (now : Z) (cfg : config str) (k : str)
          (v : list str) (r : str),
     let run := Public.collect_messages srv now cfg [] in
     In (k, v) (fst run) -> In r v ->
     sourced (cutoff_of now cfg) (snd run) r) /\
  (forall (client : Client.tg_client) (now : Z) (cfg : config Client.channel_id)
          (k : str) (v : list str) (r : str),
     In (k, v) (Client.collect_messages client now cfg) -> In r v ->
     exists c e,
       In c (get (channels cfg) []) /\
       Client.get_entity client c = Some e /\
       client_sourced (cutoff_of now cfg)
         (Client.iter_messages client e
            (get (maxMessagesPerChannel cfg) DEFAULT_MAX_MESSAGES_PER_CHANNEL)) r).
Proof.
  split; [|split].
  - intros html cutoff m H.
    destruct (parse_messages_cutoff cutoff html m H) as (w & raw & _ & _ & Hc & _).
    exact Hc.
  - intros srv now cfg k v r run. subst run.
    unfold Public.collect_messages, Public.collect_state, Public.bind, Public.ret.
    pose proof (public_collect_loop_sourced srv (cutoff_of now cfg)
                  (get (maxMessagesPerChannel cfg) DEFAULT_MAX_MESSAGES_PER_CHANNEL)
                  (token_limit_of cfg) (get (channels cfg) []) 0%nat [] 0 []) as H.
    destruct (Public.collect_loop _ _ _ _ _ _ _ _ _) as [[res tot] tr'].
    simpl in *. apply H. intros ? ? ? [].
  - intros client now cfg k v r.
    unfold Client.collect_messages, Client.collect_state.
    intros Hkv Hr.
    apply (client_collect_loop_sourced client (cutoff_of now cfg)
             (get (maxMessagesPerChannel cfg) DEFAULT_MAX_MESSAGES_PER_CHANNEL)
             (token_limit_of cfg)
             (fun r => exists c e,
                In c (get (channels cfg) []) /\
                Client.get_entity client c = Some e /\
                client_sourced (cutoff_of now cfg)
                  (Client.iter_messages client e
                     (get (maxMessagesPerChannel cfg)
                        DEFAULT_MAX_MESSAGES_PER_CHANNEL)) r)
             (get (channels cfg) [])) with (result := []) (total := 0) (k := k) (v := v).
    + intros c e r0 Hc He Hs. exists c, e. auto.
    + intros ? ? ? [].
    + exact Hkv.
    + exact Hr.
Qed.

Lemma cutoff_correctness_witness :
  0 <= Public.msg_date
         {| Public.msg_id := 1; Public.msg_date := 100; Public.msg_text := Scenario.x30 |} /\
  sourced (-86400)
    (snd (Public.collect_messages Scenario.srv 0
            (Scenario.config_of [lit "a"; lit "b"] 13) []))
    Scenario.x30 /\
  exists c e,
    In c [Client.ChanName (lit "a"); Client.ChanName (lit "b")] /\
    Client.get_entity Scenario.client c = Some e /\
    client_sourced (-86400) (Client.iter_messages Scenario.client e 200) Scenario.x30.
Proof.
  destruct cutoff_correctness as (H1 & H2 & H3).
  split; [|split].
  - apply (H1 Scenario.page_a 0). vm_compute. left. reflexivity.
  - apply (H2 Scenario.srv 0 (Scenario.config_of [lit "a"; lit "b"] 13)
             (lit "a") [Scenario.x30] Scenario.x30).
    + vm_compute. left. reflexivity.
    + left. reflexivity.
  - apply (H3 Scenario.client 0
             (Scenario.config_of [Client.ChanName (lit "a"); Client.ChanName (lit "b")] 13)
             (lit "a") [Scenario.x30] Scenario.x30).
    + vm_compute. left. reflexivity.
    + left. reflexivity.
Defined.

(** ** Deduplication within a channel *)

Lemma mem_cons_keep (k k' : str) (seen : list str) :
  mem k seen = true -> mem k (k' :: seen) = true.
Proof. intros H. simpl. rewrite H. apply orb_true_r. Qed.

Lemma mem_head (k : str) (seen : list str) : mem k (k :: seen) = true.
Proof. simpl. now rewrite str_eqb_refl. Qed.

Lemma mem_cons_true (k k0 : str) (seen : list str) :
  mem k (k0 :: seen) = true -> k0 = k \/ mem k seen = true.
Proof.
  simpl. intros H. apply orb_true_iff in H.
  destruct H as [H|H]; [left; now apply str_eqb_eq|now right].
Qed.

(** *** The loops of the code are the open loops at the code's functions *)

Lemma filter_clean_is_by (msgs : list Public.msg) :
  forall result seen,
  Public.filter_clean msgs result seen =
  filter_clean_by Public.text_key clean_text msgs result seen.
Proof.
  induction msgs as [|m rest IH]; intros result seen; [reflexivity|].
  cbn [Public.filter_clean filter_clean_by]. cbv zeta.
  destruct (length (Public.msg_text m) <? MIN_MSG_LENGTH)%nat; [apply IH|].
  destruct (mem (Public.text_key (Public.msg_text m)) seen); [apply IH|].
  destruct (null (clean_text (Public.msg_text m))); apply IH.
Qed.

Lemma channel_loop_is_by (cutoff L : Z) (msgs : list Client.message) :
  forall acc seen total,
  Client.channel_loop cutoff L msgs acc seen total =
  channel_loop_by Client.is_noise Client.extract_text Client.text_key clean_text
    cutoff L msgs acc seen total.
Proof.
  induction msgs as [|m rest IH]; intros acc seen total; [reflexivity|].
  cbn [Client.channel_loop channel_loop_by]. cbv zeta.
  destruct (Client.m_date m <? cutoff); [reflexivity|].
  destruct (Client.is_noise m); [apply IH|].
  destruct (Client.extract_text m) as [text|]; [|apply IH].
  destruct (null text); [apply IH|].
  destruct (length text <? MIN_MSG_LENGTH)%nat; [apply IH|].
  destruct (mem (Client.text_key text) seen); [apply IH|].
  destruct (null (clean_text text)); [apply IH|].
  destruct (total + len (clean_text text) >? L); [reflexivity|apply IH].
Qed.

(** *** The filter loop of the scrape variant, for any key and cleaning *)

Section DedupScrape.

Variables key clean : str -> str.

Lemma filter_clean_by_extends (msgs : list Public.msg) :
  forall result seen,
  exists more, filter_clean_by key clean msgs result seen = result ++ more.
Proof.
  induction msgs as [|m rest IH]; intros result seen; simpl.
  - exists []. now rewrite app_nil_r.
  - destruct (length (Public.msg_text m) <? MIN_MSG_LENGTH)%nat; [apply IH|].
    destruct (mem (key (Public.msg_text m)) seen); [apply IH|].
    destruct (null (clean (Public.msg_text m))); [apply IH|].
    destruct (IH (result ++ [clean (Public.msg_text m)])
                (key (Public.msg_text m) :: seen)) as [more E].
    exists (clean (Public.msg_text m) :: more). rewrite E.
    now rewrite <- app_assoc.
Qed.

(** The loop after a prefix of its input: the keys it has seen are those
    it started with and those of the long enough messages of the prefix. *)
Lemma filter_clean_by_prefix (pre rest : list Public.msg) :
  forall result seen,
  exists seen',
    filter_clean_by key clean (pre ++ rest) result seen =
    filter_clean_by key clean rest (filter_clean_by key clean pre result seen) seen' /\
    (forall k, mem k seen' = true ->
       mem k seen = true \/
       exists m', In m' pre /\
         (MIN_MSG_LENGTH <= length (Public.msg_text m'))%nat /\
         key (Public.msg_text m') = k).
Proof.
  induction pre as [|m p IH]; intros result seen.
  - exists seen. simpl. split; [reflexivity|]. intros k H. now left.
  - assert (Skip : forall r,
      exists seen',
        filter_clean_by key clean (p ++ rest) r seen =
        filter_clean_by key clean rest (filter_clean_by key clean p r seen) seen' /\
        (forall k, mem k seen' = true ->
           mem k seen = true \/
           exists m', In m' (m :: p) /\
             (MIN_MSG_LENGTH <= length (Public.msg_text m'))%nat /\
             key (Public.msg_text m') = k)).
    { intros r. destruct (IH r seen) as (s' & E & Hs). exists s'. split; [exact E|].
      intros k Hk. destruct (Hs k Hk) as [H|(m' & H1 & H2 & H3)]; [now left|].
      right. exists m'. split; [now right|]. split; assumption. }
    simpl.
    destruct (Nat.ltb_spec (length (Public.msg_text m)) MIN_MSG_LENGTH) as [Hs|Hl];
      [apply Skip|].
    destruct (mem (key (Public.msg_text m)) seen); [apply Skip|].
    assert (Take : forall r,
      exists seen',
        filter_clean_by key clean (p ++ rest) r (key (Public.msg_text m) :: seen) =
        filter_clean_by key clean rest
          (filter_clean_by key clean p r (key (Public.msg_text m) :: seen)) seen' /\
        (forall k, mem k seen' = true ->
           mem k seen = true \/
           exists m', In m' (m :: p) /\
             (MIN_MSG_LENGTH <= length (Public.msg_text m'))%nat /\
             key (Public.msg_text m') = k)).
    { intros r.
      destruct (IH r (key (Public.msg_text m) :: seen)) as (s' & E & Hs).
      exists s'. split; [exact E|].
      intros k Hk. destruct (Hs k Hk) as [H|(m' & H1 & H2 & H3)].
      - apply mem_cons_true in H. destruct H as [H|H]; [|now left].
        right. exists m. split; [now left|]. split; assumption.
      - right. exists m'. split; [now right|]. split; assumption. }
    destruct (null (clean (Public.msg_text m))); apply Take.
Qed.

Lemma filter_clean_by_keep_first (pre post : list Public.msg) (m : Public.msg) :
  (MIN_MSG_LENGTH <= length (Public.msg_text m))%nat ->
  (forall m', In m' pre ->
     (MIN_MSG_LENGTH <= length (Public.msg_text m'))%nat ->
     key (Public.msg_text m') <> key (Public.msg_text m)) ->
  clean (Public.msg_text m) <> [] ->
  exists more,
    filter_clean_by key clean (pre ++ m :: post) [] [] =
    filter_clean_by key clean pre [] [] ++ clean (Public.msg_text m) :: more.
Proof.
  intros Hlen Hfirst Hclean.
  destruct (filter_clean_by_prefix pre (m :: post) [] []) as (s' & E & Hs).
  rewrite E. simpl.
  destruct (Nat.ltb_spec (length (Public.msg_text m)) MIN_MSG_LENGTH) as [Hshort|_];
    [lia|].
  destruct (mem (key (Public.msg_text m)) s') eqn:Hm.
  - exfalso. destruct (Hs _ Hm) as [H|(m' & H1 & H2 & H3)]; [discriminate H|].
    now apply (Hfirst m' H1 H2).
  - destruct (null (clean (Public.msg_text m))) eqn:N;
      [apply null_nil in N; contradiction|].
    destruct (filter_clean_by_extends post
                (filter_clean_by key clean pre [] [] ++ [clean (Public.msg_text m)])
                (key (Public.msg_text m) :: s')) as [more E2].
    exists more. rewrite E2. now rewrite <- app_assoc.
Qed.

(** A message whose key has been seen is skipped, wherever it stands in
    the rest of the list. *)
Lemma filter_clean_by_skip_seen (m2 : Public.msg) (post : list Public.msg)
    (mid : list Public.msg) :
  forall result seen,
  mem (key (Public.msg_text m2)) seen = true ->
  filter_clean_by key clean (mid ++ m2 :: post) result seen =
  filter_clean_by key clean (mid ++ post) result seen.
Proof.
  induction mid as [|m rest IH]; intros result seen Hseen; simpl.
  - rewrite Hseen. now destruct (length (Public.msg_text m2) <? MIN_MSG_LENGTH)%nat.
  - destruct (length (Public.msg_text m) <? MIN_MSG_LENGTH)%nat; [now apply IH|].
    destruct (mem (key (Public.msg_text m)) seen); [now apply IH|].
    destruct (null (clean (Public.msg_text m))); apply IH; now apply mem_cons_keep.
Qed.

Lemma filter_clean_by_drop_duplicate (m1 m2 : Public.msg) (mid post : list Public.msg)
    (pre : list Public.msg) :
  (MIN_MSG_LENGTH <= length (Public.msg_text m1))%nat ->
  key (Public.msg_text m1) = key (Public.msg_text m2) ->
  forall result seen,
  filter_clean_by key clean (pre ++ m1 :: mid ++ m2 :: post) result seen =
  filter_clean_by key clean (pre ++ m1 :: mid ++ post) result seen.
Proof.
  intros Hlen Hkey. induction pre as [|m rest IH]; intros result seen; simpl.
  - destruct (Nat.ltb_spec (length (Public.msg_text m1)) MIN_MSG_LENGTH) as [Hs|_];
      [lia|].
    destruct (mem (key (Public.msg_text m1)) seen) eqn:Hm.
    + apply filter_clean_by_skip_seen. now rewrite <- Hkey.
    + destruct (null (clean (Public.msg_text m1)));
        apply filter_clean_by_skip_seen; rewrite <- Hkey; apply mem_head.
  - destruct (length (Public.msg_text m) <? MIN_MSG_LENGTH)%nat; [now apply IH|].
    destruct (mem (key (Public.msg_text m)) seen); [now apply IH|].
    destruct (null (clean (Public.msg_text m))); apply IH.
Qed.

End DedupScrape.

(** *** The loop of the client variant, for any tests, key and cleaning *)

Section DedupClient.

Variable noise : Client.message -> bool.
Variable extract : Client.message -> option str.
Variables key clean : str -> str.
Variables cutoff L : Z.

Lemma channel_loop_by_extends (msgs : list Client.message) :
  forall acc seen total,
  exists more, fst (channel_loop_by noise extract key clean cutoff L msgs acc seen total) = acc ++ more.
Proof.
  induction msgs as [|m rest IH]; intros acc seen total; simpl.
  - exists []. now rewrite app_nil_r.
  - assert (Stop : exists more, fst (acc, total) = acc ++ more)
      by (exists []; simpl; now rewrite app_nil_r).
    destruct (Client.m_date m <? cutoff); [exact Stop|].
    destruct (noise m); [apply IH|].
    destruct (extract m) as [text|]; [|apply IH].
    destruct (null text); [apply IH|].
    destruct (length text <? MIN_MSG_LENGTH)%nat; [apply IH|].
    destruct (mem (key text) seen); [apply IH|].
    destruct (null (clean text)); [apply IH|].
    destruct (total + len (clean text) >? L); [exact Stop|].
    destruct (IH (acc ++ [clean text]) (key text :: seen) (total + len (clean text)))
      as [more E].
    exists (clean text :: more). rewrite E. now rewrite <- app_assoc.
Qed.

(** The loop at a message that passes every test. *)
Lemma channel_loop_by_keep (m : Client.message) (text : str)
    (post : list Client.message) (acc seen : list str) (total : Z) :
  cutoff <= Client.m_date m ->
  noise m = false ->
  extract m = Some text ->
  (MIN_MSG_LENGTH <= length text)%nat ->
  mem (key text) seen = false ->
  clean text <> [] ->
  total + len (clean text) <= L ->
  channel_loop_by noise extract key clean cutoff L (m :: post) acc seen total =
  channel_loop_by noise extract key clean cutoff L post (acc ++ [clean text]) (key text :: seen) (total + len (clean text)).
Proof.
  intros Hd Hn Hx Hlen Hm Hclean Hfit. simpl.
  destruct (Z.ltb_spec (Client.m_date m) cutoff) as [?|_]; [lia|].
  rewrite Hn, Hx.
  destruct text as [|c text']; [simpl in Hlen; unfold MIN_MSG_LENGTH in Hlen; lia|].
  simpl null. cbv iota.
  destruct (Nat.ltb_spec (length (c :: text')) MIN_MSG_LENGTH) as [?|_]; [lia|].
  rewrite Hm.
  destruct (null (clean (c :: text'))) eqn:N; [apply null_nil in N; contradiction|].
  destruct (Z.gtb_spec (total + len (clean (c :: text'))) L) as [?|_]; [lia|].
  reflexivity.
Qed.

Lemma channel_loop_by_keep_appends (m : Client.message) (text : str)
    (post : list Client.message) (acc seen : list str) (total : Z) :
  cutoff <= Client.m_date m ->
  noise m = false ->
  extract m = Some text ->
  (MIN_MSG_LENGTH <= length text)%nat ->
  mem (key text) seen = false ->
  clean text <> [] ->
  total + len (clean text) <= L ->
  exists more, fst (channel_loop_by noise extract key clean cutoff L (m :: post) acc seen total) = acc ++ clean text :: more.
Proof.
  intros Hd Hn Hx Hlen Hm Hclean Hfit.
  rewrite (channel_loop_by_keep m text post acc seen total) by assumption.
  destruct (channel_loop_by_extends post (acc ++ [clean text]) (key text :: seen)
              (total + len (clean text))) as [more E].
  exists more. rewrite E. now rewrite <- app_assoc.
Qed.

Lemma cleaned_by_cons (m : Client.message) (p : list Client.message) :
  chars (cleaned_by extract clean (m :: p))
  = match extract m with
    | Some t => len (clean t)
    | None => 0
    end + chars (cleaned_by extract clean p).
Proof.
  unfold cleaned_by. cbn [flat_map]. rewrite chars_app.
  destruct (extract m); simpl; lia.
Qed.

(** The loop after a prefix of its input that is not older than the
    cutoff and for whose texts the budget has room: the loop has not
    stopped, and the keys it has seen are those it started with and those
    of the messages of the prefix that passed the tests before the key. *)
Lemma channel_loop_by_prefix (pre rest : list Client.message) :
  forall acc seen total,
  (forall m', In m' pre -> cutoff <= Client.m_date m') ->
  total + chars (cleaned_by extract clean pre) <= L ->
  exists acc' seen' total',
    channel_loop_by noise extract key clean cutoff L pre acc seen total = (acc', total') /\
    channel_loop_by noise extract key clean cutoff L (pre ++ rest) acc seen total = channel_loop_by noise extract key clean cutoff L rest acc' seen' total' /\
    total' <= total + chars (cleaned_by extract clean pre) /\
    (forall k, mem k seen' = true ->
       mem k seen = true \/
       exists m' t', In m' pre /\ noise m' = false /\ extract m' = Some t' /\
         (MIN_MSG_LENGTH <= length t')%nat /\ key t' = k).
Proof.
  induction pre as [|m p IH]; intros acc seen total Hdates Hroom.
  - exists acc, seen, total. simpl. split; [reflexivity|]. split; [reflexivity|].
    split; [change (chars (cleaned_by extract clean [])) with 0; lia|].
    intros k H. now left.
  - assert (Hd : cutoff <= Client.m_date m) by (apply Hdates; now left).
    assert (Hdates' : forall m', In m' p -> cutoff <= Client.m_date m')
      by (intros m' H; apply Hdates; now right).
    rewrite cleaned_by_cons in Hroom.
    pose proof (chars_nonneg (cleaned_by extract clean p)) as Hp.
    assert (Hhead : 0 <= match extract m with
                         | Some t => len (clean t)
                         | None => 0
                         end).
    { destruct (extract m); [apply len_nonneg|lia]. }
    assert (Skip :
      exists acc' seen' total',
        channel_loop_by noise extract key clean cutoff L p acc seen total = (acc', total') /\
        channel_loop_by noise extract key clean cutoff L (p ++ rest) acc seen total = channel_loop_by noise extract key clean cutoff L rest acc' seen' total' /\
        total' <= total + chars (cleaned_by extract clean (m :: p)) /\
        (forall k, mem k seen' = true ->
           mem k seen = true \/
           exists m' t', In m' (m :: p) /\ noise m' = false /\ extract m' = Some t' /\
             (MIN_MSG_LENGTH <= length t')%nat /\ key t' = k)).
    { destruct (IH acc seen total Hdates') as (a' & s' & t' & E1 & E2 & Ht & Hs); [lia|].
      exists a', s', t'. split; [exact E1|]. split; [exact E2|].
      split; [rewrite cleaned_by_cons; lia|].
      intros k Hk. destruct (Hs k Hk) as [H|(m' & t0 & H1 & H2)]; [now left|].
      right. exists m', t0. split; [now right|exact H2]. }
    cbn [channel_loop_by app].
    destruct (Z.ltb_spec (Client.m_date m) cutoff) as [?|_]; [lia|].
    destruct (noise m) eqn:Hn; [exact Skip|].
    destruct (extract m) as [text|] eqn:Hx; [|exact Skip].
    destruct (null text); [exact Skip|].
    destruct (Nat.ltb_spec (length text) MIN_MSG_LENGTH) as [?|Hlen]; [exact Skip|].
    cbv zeta.
    destruct (mem (key text) seen); [exact Skip|].
    assert (Seen : forall a tot,
      tot <= total + len (clean text) ->
      tot + chars (cleaned_by extract clean p) <= L ->
      exists acc' seen' total',
        channel_loop_by noise extract key clean cutoff L p a (key text :: seen) tot = (acc', total') /\
        channel_loop_by noise extract key clean cutoff L (p ++ rest) a (key text :: seen) tot = channel_loop_by noise extract key clean cutoff L rest acc' seen' total' /\
        total' <= total + chars (cleaned_by extract clean (m :: p)) /\
        (forall k, mem k seen' = true ->
           mem k seen = true \/
           exists m' t', In m' (m :: p) /\ noise m' = false /\ extract m' = Some t' /\
             (MIN_MSG_LENGTH <= length t')%nat /\ key t' = k)).
    { intros a tot Htot Hr.
      destruct (IH a (key text :: seen) tot Hdates' Hr)
        as (a' & s' & t' & E1 & E2 & Ht & Hs).
      exists a', s', t'. split; [exact E1|]. split; [exact E2|].
      split; [rewrite cleaned_by_cons, Hx; lia|].
      intros k Hk. destruct (Hs k Hk) as [H|(m' & t0 & H1 & H2)].
      - apply mem_cons_true in H. destruct H as [H|H]; [|now left].
        right. exists m, text. split; [now left|]. repeat split; assumption.
      - right. exists m', t0. split; [now right|exact H2]. }
    pose proof (len_nonneg (clean text)) as Hc.
    destruct (null (clean text)); [apply Seen; lia|].
    destruct (Z.gtb_spec (total + len (clean text)) L) as [?|_]; [lia|].
    apply Seen; lia.
Qed.

Lemma channel_loop_by_keep_first (pre post : list Client.message)
    (m : Client.message) (text : str) (total : Z) :
  (forall m', In m' pre -> cutoff <= Client.m_date m') ->
  cutoff <= Client.m_date m ->
  noise m = false ->
  extract m = Some text ->
  (MIN_MSG_LENGTH <= length text)%nat ->
  (forall m' t', In m' pre -> noise m' = false -> extract m' = Some t' ->
     (MIN_MSG_LENGTH <= length t')%nat -> key t' <> key text) ->
  clean text <> [] ->
  total + chars (cleaned_by extract clean pre) + len (clean text) <= L ->
  exists more,
    fst (channel_loop_by noise extract key clean cutoff L (pre ++ m :: post) [] [] total)
    = fst (channel_loop_by noise extract key clean cutoff L pre [] [] total) ++ clean text :: more.
Proof.
  intros Hdates Hd Hn Hx Hlen Hfirst Hclean Hroom.
  pose proof (len_nonneg (clean text)) as Hc.
  destruct (channel_loop_by_prefix pre (m :: post) [] [] total Hdates)
    as (a' & s' & t' & E1 & E2 & Ht & Hs); [lia|].
  rewrite E1, E2. cbn [fst].
  apply channel_loop_by_keep_appends; try assumption; [|lia].
  destruct (mem (key text) s') eqn:Hm; [|reflexivity].
  exfalso. destruct (Hs _ Hm) as [H|(m' & t0 & H1 & H2 & H3 & H4 & H5)];
    [discriminate H|].
  now apply (Hfirst m' t0).
Qed.

(** A message not older than the cutoff whose text has a key that has
    been seen is skipped, wherever it stands in the rest of the list. *)
Lemma channel_loop_by_skip_seen (m2 : Client.message)
    (post : list Client.message) (mid : list Client.message) :
  forall acc seen total,
  cutoff <= Client.m_date m2 ->
  (forall text, extract m2 = Some text -> mem (key text) seen = true) ->
  channel_loop_by noise extract key clean cutoff L (mid ++ m2 :: post) acc seen total = channel_loop_by noise extract key clean cutoff L (mid ++ post) acc seen total.
Proof.
  induction mid as [|m rest IH]; intros acc seen total Hd Hk; simpl.
  - destruct (Z.ltb_spec (Client.m_date m2) cutoff) as [?|_]; [lia|].
    destruct (noise m2); [reflexivity|].
    destruct (extract m2) as [text|]; [|reflexivity].
    rewrite (Hk text eq_refl).
    destruct (null text); [reflexivity|].
    now destruct (length text <? MIN_MSG_LENGTH)%nat.
  - assert (Hgrow : forall k text, extract m2 = Some text ->
                    mem (key text) (k :: seen) = true).
    { intros k text Ht. apply mem_cons_keep. now apply Hk. }
    destruct (Client.m_date m <? cutoff); [reflexivity|].
    destruct (noise m); [now apply IH|].
    destruct (extract m) as [text|]; [|now apply IH].
    destruct (null text); [now apply IH|].
    destruct (length text <? MIN_MSG_LENGTH)%nat; [now apply IH|].
    destruct (mem (key text) seen); [now apply IH|].
    destruct (null (clean text)); [apply IH; [exact Hd|apply Hgrow]|].
    destruct (total + len (clean text) >? L); [reflexivity|].
    apply IH; [exact Hd|apply Hgrow].
Qed.

Lemma channel_loop_by_drop_duplicate (m1 m2 : Client.message)
    (t1 t2 : str) (mid post : list Client.message) (pre : list Client.message) :
  noise m1 = false ->
  extract m1 = Some t1 ->
  (MIN_MSG_LENGTH <= length t1)%nat ->
  cutoff <= Client.m_date m2 ->
  extract m2 = Some t2 ->
  key t1 = key t2 ->
  forall acc seen total,
  channel_loop_by noise extract key clean cutoff L (pre ++ m1 :: mid ++ m2 :: post) acc seen total =
  channel_loop_by noise extract key clean cutoff L (pre ++ m1 :: mid ++ post) acc seen total.
Proof.
  intros Hn1 Hx1 Hlen Hd2 Hx2 Hkey.
  assert (Hdup : forall seen, mem (key t1) seen = true ->
                 forall text, extract m2 = Some text -> mem (key text) seen = true).
  { intros seen Hm text Ht. rewrite Hx2 in Ht. inversion Ht; subst.
    now rewrite <- Hkey. }
  induction pre as [|m rest IH]; intros acc seen total; simpl.
  - destruct (Client.m_date m1 <? cutoff); [reflexivity|].
    rewrite Hn1, Hx1.
    destruct t1 as [|c t1']; [simpl in Hlen; unfold MIN_MSG_LENGTH in Hlen; lia|].
    simpl null. cbv iota.
    destruct (Nat.ltb_spec (length (c :: t1')) MIN_MSG_LENGTH) as [Hs|_]; [lia|].
    destruct (mem (key (c :: t1')) seen) eqn:Hm.
    + apply channel_loop_by_skip_seen; [exact Hd2|now apply Hdup].
    + destruct (null (clean (c :: t1'))).
      * apply channel_loop_by_skip_seen; [exact Hd2|apply Hdup, mem_head].
      * destruct (total + len (clean (c :: t1')) >? L); [reflexivity|].
        apply channel_loop_by_skip_seen; [exact Hd2|apply Hdup, mem_head].
  - destruct (Client.m_date m <? cutoff); [reflexivity|].
    destruct (noise m); [now apply IH|].
    destruct (extract m) as [text|]; [|now apply IH].
    destruct (null text); [now apply IH|].
    destruct (length text <? MIN_MSG_LENGTH)%nat; [now apply IH|].
    destruct (mem (key text) seen); [now apply IH|].
    destruct (null (clean text)); [now apply IH|].
    destruct (total + len (clean text) >? L); [reflexivity|].
    now apply IH.
Qed.

End DedupClient.

(** C5 as stated fails in the client variant: two texts that differ only
    in one whitespace character have the same lowercased,
    whitespace-collapsed prefix, yet the client variant, whose key does not
    collapse whitespace, keeps both. *)
Lemma dedup_counterexample :
  lower (strip (re_sub (match_run is_space 1) [SP] (firstn 100 Dedup.with_newline))) =
  lower (strip (re_sub (match_run is_space 1) [SP] (firstn 100 Dedup.with_space))) /\
  fst (Client.channel_loop 0 1000
         [Scenario.text_message Dedup.with_newline;
          Scenario.text_message Dedup.with_space] [] [] 0)
    = [Dedup.with_newline; Dedup.with_space].
Proof. split; vm_compute; reflexivity. Qed.

(** The cap of the scrape variant comes before the deduplication: a copy
    takes one of the [max_messages] places.  With room for two messages,
    the channel with the copy gives one message, the channel without it
    two. *)
Example dedup_after_cap :
  fst (Public.scrape_channel Dedup.with_copy (lit "a") 0 2 []) = [Dedup.first_text] /\
  fst (Public.scrape_channel Dedup.without_copy (lit "a") 0 2 [])
  = [Dedup.first_text; Dedup.other_text].
Proof. split; vm_compute; reflexivity. Qed.

(** C5 (amended).  Deduplication by key works on the input of the filter
    loop: in the scrape variant the collected messages after the sort and
    the cap [all_messages[:max_messages]] (first part below), in the
    client variant the messages the client yields.  The loops of the code
    are the loops [filter_clean_by] and [channel_loop_by] at the key of
    each variant (second and third part): the scrape variant's key is the
    lowercased, stripped, whitespace-collapsed first 100 characters of the
    text before cleaning ([Public.text_key]), the client variant's key is
    the lowercased first 100 characters, without whitespace collapsing
    ([Client.text_key]).  Whatever the key and the cleaning compute (last
    two parts), in either loop:
    - the first message of a key is kept: a message that passes the tests
      before the key test (long enough; in the client variant also not
      older than the cutoff, not noise, with a text), whose key no such
      earlier message has and whose cleaned text is not empty, adds its
      cleaned text to the list, after what the messages before it gave.
      In the client variant this needs the loop to get there and the text
      to fit the budget: it is stated for a prefix that is not older than
      the cutoff and for whose texts the budget has room, and for any
      state of the loop in which the key has not been seen;
    - a later message of the same key contributes nothing: the list is
      the same as if it were not in the input. *)
Theorem dedup_first_occurrence_wins :
  (forall (srv : Public.server) (channel : str) (cutoff max_messages : Z)
          (tr : Public.trace),
     fst (Public.scrape_channel srv channel cutoff max_messages tr) =
     Public.filter_clean
       (py_prefix max_messages
          (Public.sort_desc
             (fst (Public.scrape_pages srv channel cutoff max_messages
                     MAX_PAGES_PER_CHANNEL 0 [] [] None tr)))) [] []) /\
  (forall (msgs : list Public.msg) (result seen : list str),
     Public.filter_clean msgs result seen =
     filter_clean_by Public.text_key clean_text msgs result seen) /\
  (forall (cutoff L : Z) (msgs : list Client.message) (acc seen : list str)
          (total : Z),
     Client.channel_loop cutoff L msgs acc seen total =
     channel_loop_by Client.is_noise Client.extract_text Client.text_key clean_text
       cutoff L msgs acc seen total) /\
  (forall key clean : str -> str,
     (forall (pre post : list Public.msg) (m : Public.msg),
        (MIN_MSG_LENGTH <= length (Public.msg_text m))%nat ->
        (forall m', In m' pre ->
           (MIN_MSG_LENGTH <= length (Public.msg_text m'))%nat ->
           key (Public.msg_text m') <> key (Public.msg_text m)) ->
        clean (Public.msg_text m) <> [] ->
        exists more,
          filter_clean_by key clean (pre ++ m :: post) [] [] =
          filter_clean_by key clean pre [] [] ++ clean (Public.msg_text m) :: more) /\
     (forall (pre mid post : list Public.msg) (m1 m2 : Public.msg)
             (result seen : list str),
        (MIN_MSG_LENGTH <= length (Public.msg_text m1))%nat ->
        key (Public.msg_text m1) = key (Public.msg_text m2) ->
        filter_clean_by key clean (pre ++ m1 :: mid ++ m2 :: post) result seen =
        filter_clean_by key clean (pre ++ m1 :: mid ++ post) result seen)) /\
  (forall (noise : Client.message -> bool) (extract : Client.message -> option str)
          (key clean : str -> str) (cutoff L : Z),
     (forall (pre post : list Client.message) (m : Client.message) (text : str)
             (total : Z),
        (forall m', In m' pre -> cutoff <= Client.m_date m') ->
        cutoff <= Client.m_date m ->
        noise m = false ->
        extract m = Some text ->
        (MIN_MSG_LENGTH <= length text)%nat ->
        (forall m' t', In m' pre -> noise m' = false -> extract m' = Some t' ->
           (MIN_MSG_LENGTH <= length t')%nat -> key t' <> key text) ->
        clean text <> [] ->
        total + chars (cleaned_by extract clean pre) + len (clean text) <= L ->
        exists more,
          fst (channel_loop_by noise extract key clean cutoff L
                 (pre ++ m :: post) [] [] total)
          = fst (channel_loop_by noise extract key clean cutoff L pre [] [] total)
            ++ clean text :: more) /\
     (forall (post : list Client.message) (m : Client.message) (text : str)
             (acc seen : list str) (total : Z),
        cutoff <= Client.m_date m ->
        noise m = false ->
        extract m = Some text ->
        (MIN_MSG_LENGTH <= length text)%nat ->
        mem (key text) seen = false ->
        clean text <> [] ->
        total + len (clean text) <= L ->
        exists more,
          fst (channel_loop_by noise extract key clean cutoff L
                 (m :: post) acc seen total)
          = acc ++ clean text :: more) /\
     (forall (pre mid post : list Client.message) (m1 m2 : Client.message)
             (t1 t2 : str) (acc seen : list str) (total : Z),
        noise m1 = false ->
        extract m1 = Some t1 ->
        (MIN_MSG_LENGTH <= length t1)%nat ->
        cutoff <= Client.m_date m2 ->
        extract m2 = Some t2 ->
        key t1 = key t2 ->
        channel_loop_by noise extract key clean cutoff L
          (pre ++ m1 :: mid ++ m2 :: post) acc seen total =
        channel_loop_by noise extract key clean cutoff L
          (pre ++ m1 :: mid ++ post) acc seen total)).
Proof.
  split; [|split; [|split; [|split]]].
  - intros srv channel cutoff max_messages tr.
    unfold Public.scrape_channel, Public.bind, Public.ret.
    now destruct (Public.scrape_pages srv channel cutoff max_messages
                    MAX_PAGES_PER_CHANNEL 0 [] [] None tr).
  - intros. apply filter_clean_is_by.
  - intros. apply channel_loop_is_by.
  - intros key clean. split.
    + intros. now apply filter_clean_by_keep_first.
    + intros. now apply filter_clean_by_drop_duplicate.
  - intros noise extract key clean cutoff L. split; [|split].
    + intros. now apply channel_loop_by_keep_first.
    + intros. now apply channel_loop_by_keep_appends.
    + intros. now apply channel_loop_by_drop_duplicate with (t1 := t1) (t2 := t2).
Qed.

Example dedup_empty_cleaning :
  let m := {| Public.msg_id := 1; Public.msg_date := 100;
              Public.msg_text := lit "@aaaaaaaaaaaaaaaaaaaaaaaabot" |} in
  Public.filter_clean [m; m] [] [] = [].
Proof. vm_compute. reflexivity. Qed.

Lemma dedup_first_occurrence_wins_witness :
  (exists more,
     Public.filter_clean
       [ {| Public.msg_id := 1; Public.msg_date := 100;
            Public.msg_text := lit "Hello   World, this is news" |};
         {| Public.msg_id := 2; Public.msg_date := 90;
            Public.msg_text := lit "hello world, this is NEWS" |} ] [] []
     = [] ++ lit "Hello World, this is news" :: more) /\
  Public.filter_clean
    [ {| Public.msg_id := 1; Public.msg_date := 100;
         Public.msg_text := lit "Hello   World, this is news" |};
      {| Public.msg_id := 2; Public.msg_date := 90;
         Public.msg_text := lit "hello world, this is NEWS" |} ] [] []
    = [lit "Hello World, this is news"] /\
  (exists more,
     fst (Client.channel_loop 0 1000
            [Scenario.text_message Dedup.first_text;
             Scenario.text_message Dedup.copy_text] [] [] 0)
     = [] ++ Dedup.first_text :: more) /\
  (exists more,
     fst (Client.channel_loop 0 1000
            [Scenario.text_message Dedup.other_text]
            [Dedup.first_text] [Client.text_key Dedup.first_text] 30)
     = [Dedup.first_text] ++ Dedup.other_text :: more) /\
  fst (Client.channel_loop 0 1000
         [Scenario.text_message Dedup.first_text;
          Scenario.text_message Dedup.copy_text] [] [] 0)
    = [Dedup.first_text].
Proof.
  destruct dedup_first_occurrence_wins as (_ & IP & IC & HP & HC).
  destruct (HP Public.text_key clean_text) as [PK PD].
  destruct (HC Client.is_noise Client.extract_text Client.text_key clean_text 0 1000)
    as (CK & CS & CD).
  split; [|split; [|split; [|split]]].
  - rewrite IP.
    apply (PK [] [ {| Public.msg_id := 2; Public.msg_date := 90;
                      Public.msg_text := lit "hello world, this is NEWS" |} ]
              {| Public.msg_id := 1; Public.msg_date := 100;
                 Public.msg_text := lit "Hello   World, this is news" |}).
    + apply Nat.leb_le. vm_compute. reflexivity.
    + intros m' [].
    + vm_compute. discriminate.
  - rewrite IP. etransitivity.
    + apply (PD [] [] []).
      * apply Nat.leb_le. vm_compute. reflexivity.
      * vm_compute. reflexivity.
    + vm_compute. reflexivity.
  - rewrite IC.
    apply (CK [] [Scenario.text_message Dedup.copy_text]
              (Scenario.text_message Dedup.first_text) Dedup.first_text 0).
    + intros m' [].
    + vm_compute. discriminate.
    + reflexivity.
    + vm_compute. reflexivity.
    + apply Nat.leb_le. vm_compute. reflexivity.
    + intros m' t' [].
    + vm_compute. discriminate.
    + vm_compute. discriminate.
  - rewrite IC.
    apply (CS [] (Scenario.text_message Dedup.other_text) Dedup.other_text
              [Dedup.first_text] [Client.text_key Dedup.first_text] 30).
    + vm_compute. discriminate.
    + reflexivity.
    + vm_compute. reflexivity.
    + apply Nat.leb_le. vm_compute. reflexivity.
    + vm_compute. reflexivity.
    + vm_compute. discriminate.
    + vm_compute. discriminate.
  - rewrite IC. etransitivity.
    + apply f_equal.
      apply (CD [] [] [] _ _ Dedup.first_text Dedup.copy_text).
      * reflexivity.
      * vm_compute. reflexivity.
      * apply Nat.leb_le. vm_compute. reflexivity.
      * vm_compute. discriminate.
      * vm_compute. reflexivity.
      * vm_compute. reflexivity.
    + vm_compute. reflexivity.
Defined.

(** ** Substitution of runs and of bot mentions *)

Local Open Scope nat_scope.

Lemma re_sub_from_skip (m : matcher) (repl : str) (s : str) :
  forall k, re_sub_from m repl k s = re_sub m repl (skipn k s).
Proof.
  induction s as [|c t IH]; intros k.
  - now destruct k.
  - destruct k as [|k]; [reflexivity|]. simpl. apply IH.
Qed.

Lemma re_sub_cons (m : matcher) (repl : str) (c : ascii) (t : str) :
  re_sub m repl (c :: t) =
    match m (c :: t) with
    | Some (S n) => repl ++ re_sub m repl (skipn n t)
    | _ => c :: re_sub m repl t
    end.
Proof.
  unfold re_sub. simpl. destruct (m (c :: t)) as [[|n]|]; try reflexivity.
  now rewrite re_sub_from_skip.
Qed.

Lemma no_match_suffix (m : matcher) (a b : str) : no_match m (a ++ b) -> no_match m b.
Proof. induction a as [|c a IH]; simpl; [auto|]. intros [_ H]. auto. Qed.

Lemma no_match_skipn (m : matcher) (k : nat) (s : str) :
  no_match m s -> no_match m (skipn k s).
Proof.
  intros H. rewrite <- (firstn_skipn k s) in H. now apply no_match_suffix in H.
Qed.

(** Substituting a pattern that matches nowhere changes nothing. *)
Lemma re_sub_no_match (m : matcher) (repl : str) (s : str) :
  no_match m s -> re_sub m repl s = s.
Proof.
  induction s as [|c t IH]; [reflexivity|].
  intros [Hm Ht]. rewrite re_sub_cons. unfold matches_at in Hm.
  destruct (m (c :: t)) as [[|n]|]; try discriminate; now rewrite IH.
Qed.

Lemma run_len_app_stop (p : ascii -> bool) (a b : str) :
  run_len p b = 0 -> run_len p (a ++ b) = run_len p a.
Proof.
  intros Hb. induction a as [|c a IH]; simpl; [exact Hb|].
  destruct (p c); [now rewrite IH|reflexivity].
Qed.

Lemma run_len_app_le (p : ascii -> bool) (a b : str) :
  run_len p a <= run_len p (a ++ b).
Proof.
  induction a as [|c a IH]; simpl; [lia|]. destruct (p c); lia.
Qed.

Lemma run_len_skipn (p : ascii -> bool) (s : str) :
  run_len p (skipn (run_len p s) s) = 0.
Proof.
  induction s as [|c t IH]; [reflexivity|].
  simpl. destruct (p c) eqn:E; simpl; [exact IH|now rewrite E].
Qed.

Lemma run_len_repeat (p : ascii -> bool) (c : ascii) (r : nat) (s : str) :
  p c = true -> run_len p (repeat c r ++ s) = r + run_len p s.
Proof.
  intros Hc. induction r as [|r IH]; simpl; [reflexivity|]. now rewrite Hc, IH.
Qed.

Lemma matches_at_run (p : ascii -> bool) (lo : nat) (s : str) :
  1 <= lo -> matches_at (match_run p lo) s = (lo <=? run_len p s).
Proof.
  intros Hlo. unfold matches_at, match_run.
  destruct (Nat.leb_spec lo (run_len p s)) as [H|H]; [|reflexivity].
  destruct (run_len p s); [lia|reflexivity].
Qed.

(** Texts without a run of [lo] characters of a class stay so when cut at
    either end, and when characters outside the class are appended. *)
Lemma no_run_prefix (p : ascii -> bool) (lo : nat) (a b : str) :
  1 <= lo -> no_match (match_run p lo) (a ++ b) -> no_match (match_run p lo) a.
Proof.
  intros Hlo. induction a as [|c a IH]; [constructor|].
  intros [Hm Ht]. split; [|now apply IH].
  change ((c :: a) ++ b) with (c :: a ++ b) in Hm.
  rewrite matches_at_run in * by assumption.
  apply Nat.leb_gt. apply Nat.leb_gt in Hm.
  pose proof (run_len_app_le p (c :: a) b). simpl app in *. lia.
Qed.

Lemma no_run_firstn (p : ascii -> bool) (lo k : nat) (s : str) :
  1 <= lo -> no_match (match_run p lo) s -> no_match (match_run p lo) (firstn k s).
Proof.
  intros Hlo H. rewrite <- (firstn_skipn k s) in H. now apply no_run_prefix in H.
Qed.

Lemma no_run_outside (p : ascii -> bool) (lo : nat) (d : str) :
  1 <= lo -> Forall (fun c => p c = false) d -> no_match (match_run p lo) d.
Proof.
  intros Hlo. induction 1 as [|c d Hc Hd IH]; [constructor|].
  split; [|exact IH]. rewrite matches_at_run by assumption.
  simpl. rewrite Hc. now apply Nat.leb_gt.
Qed.

Lemma no_run_app_outside (p : ascii -> bool) (lo : nat) (a d : str) :
  1 <= lo -> Forall (fun c => p c = false) d ->
  no_match (match_run p lo) a -> no_match (match_run p lo) (a ++ d).
Proof.
  intros Hlo Hd. induction a as [|c a IH]; [intros _; now apply no_run_outside|].
  intros [Hm Ht]. split; [|now apply IH].
  change ((c :: a) ++ d) with (c :: a ++ d).
  rewrite matches_at_run in * by assumption.
  assert (E : run_len p ((c :: a) ++ d) = run_len p (c :: a)).
  { apply run_len_app_stop. destruct Hd as [|x d Hx _]; [reflexivity|].
    simpl. now rewrite Hx. }
  simpl app in E. now rewrite E.
Qed.

Lemma lstrip_by_suffix (p : ascii -> bool) (s : str) :
  exists a, s = a ++ lstrip_by p s.
Proof.
  induction s as [|c t [a IH]]; [now exists []|].
  simpl. destruct (p c); [|now exists []].
  exists (c :: a). simpl. now rewrite <- IH.
Qed.

Lemma rstrip_by_prefix (p : ascii -> bool) (s : str) :
  exists b, s = rstrip_by p s ++ b.
Proof.
  induction s as [|c t [b IH]]; [now exists []|].
  simpl. destruct (p c && null (rstrip_by p t)).
  - now exists (c :: t).
  - exists b. simpl. now rewrite <- IH.
Qed.

Lemma no_run_strip (p : ascii -> bool) (lo : nat) (s : str) :
  1 <= lo -> no_match (match_run p lo) s -> no_match (match_run p lo) (strip s).
Proof.
  intros Hlo H. unfold strip.
  destruct (lstrip_by_suffix is_space s) as [a Ea].
  rewrite Ea in H. apply no_match_suffix in H.
  destruct (rstrip_by_prefix is_space (lstrip_by is_space s)) as [b Eb].
  rewrite Eb in H. now apply no_run_prefix in H.
Qed.

(** *** Collapsing runs: [X{lo,}] replaced by fewer than [lo] copies of a
    character of the class *)

Section RunSub.

Variable p : ascii -> bool.
Variable lo r : nat.
Variable c0 : ascii.
Hypothesis lo_pos : 1 <= lo.
Hypothesis c0_in : p c0 = true.

Let m := match_run p lo.
Let repl := repeat c0 r.
Let sub := re_sub m repl.

Lemma sub_cons (c : ascii) (t : str) :
  sub (c :: t) =
    if lo <=? run_len p (c :: t)
    then repl ++ sub (skipn (run_len p (c :: t)) (c :: t))
    else c :: sub t.
Proof.
  unfold sub. rewrite re_sub_cons. unfold m, match_run.
  destruct (Nat.leb_spec lo (run_len p (c :: t))) as [H|H]; [|reflexivity].
  destruct (run_len p (c :: t)) as [|n] eqn:E; [lia|]. reflexivity.
Qed.

Lemma sub_stop (s : str) : run_len p s = 0 -> run_len p (sub s) = 0.
Proof.
  destruct s as [|c t]; [reflexivity|]. intros H.
  rewrite sub_cons, H. destruct (Nat.leb_spec lo 0); [lia|].
  simpl in *. now destruct (p c).
Qed.

(** The length of the run at the head of the result. *)
Lemma sub_run_len (s : str) :
  run_len p (sub s) = if lo <=? run_len p s then r else run_len p s.
Proof.
  induction s as [|c t IH].
  - simpl. destruct (Nat.leb_spec lo 0); [lia|reflexivity].
  - rewrite sub_cons.
    destruct (Nat.leb_spec lo (run_len p (c :: t))) as [H|H].
    + unfold repl. rewrite run_len_repeat by exact c0_in.
      rewrite sub_stop; [lia|]. apply run_len_skipn.
    + simpl in *. destruct (p c); [|reflexivity].
      rewrite IH. destruct (Nat.leb_spec lo (run_len p t)); [lia|reflexivity].
Qed.

Hypothesis r_small : r < lo.

Lemma no_run_repeat (x : str) :
  run_len p x = 0 -> no_match m x -> no_match m (repl ++ x).
Proof.
  intros Hx Hn. unfold repl.
  assert (G : forall j, j <= r -> no_match m (repeat c0 j ++ x)).
  { induction j as [|j IH]; intros Hj; [exact Hn|].
    simpl. split; [|apply IH; lia].
    unfold m. rewrite matches_at_run by exact lo_pos.
    change (c0 :: repeat c0 j ++ x) with (repeat c0 (S j) ++ x).
    rewrite run_len_repeat by exact c0_in. apply Nat.leb_gt. lia. }
  now apply G.
Qed.

(** The result has no run of [lo] characters of the class. *)
Lemma sub_no_run (s : str) : forall k, no_match m (re_sub_from m repl k s).
Proof.
  induction s as [|c t IH]; intros k; [now destruct k|].
  destruct k as [|k]; [|apply IH].
  change (re_sub_from m repl 0 (c :: t)) with (sub (c :: t)).
  rewrite sub_cons.
  destruct (Nat.leb_spec lo (run_len p (c :: t))) as [H|H].
  - apply no_run_repeat.
    + apply sub_stop, run_len_skipn.
    + unfold sub. destruct (run_len p (c :: t)) as [|n]; [lia|].
      simpl skipn. rewrite <- re_sub_from_skip. apply IH.
  - split; [|apply (IH 0)].
    unfold m. rewrite matches_at_run by exact lo_pos.
    change (run_len p (c :: re_sub_from (match_run p lo) repl 0 t))
      with (run_len p (c :: sub t)).
    assert (E : c :: sub t = sub (c :: t)).
    { rewrite sub_cons. now destruct (Nat.leb_spec lo (run_len p (c :: t))); [lia|]. }
    rewrite E, sub_run_len.
    destruct (Nat.leb_spec lo (run_len p (c :: t))); [lia|]. now apply Nat.leb_gt.
Qed.

End RunSub.

Lemma no_run_prepend_outside (q : ascii -> bool) (n : nat) (d x : str) :
  1 <= n -> Forall (fun c => q c = false) d ->
  no_match (match_run q n) x -> no_match (match_run q n) (d ++ x).
Proof.
  intros Hn Hd Hx. induction Hd as [|e rest He _ IH]; [exact Hx|].
  simpl. split; [|exact IH].
  rewrite matches_at_run by exact Hn. simpl. rewrite He. now apply Nat.leb_gt.
Qed.

(** *** Collapsing runs of one class keeps what holds of another class *)

Section RunSubOther.

Variable p : ascii -> bool.
Variable lo : nat.
Variable repl : str.
Hypothesis lo_pos : 1 <= lo.

Let sub := re_sub (match_run p lo) repl.

(** A class [q] disjoint from [p], the replacement being outside [q] and
    not empty. *)
Variable q : ascii -> bool.
Hypothesis disjoint : forall c, q c = true -> p c = false.
Hypothesis repl_outside : Forall (fun c => q c = false) repl.
Hypothesis repl_nonempty : repl <> [].

Lemma sub_other_cons (c : ascii) (t : str) :
  sub (c :: t) =
    if lo <=? run_len p (c :: t)
    then repl ++ sub (skipn (run_len p (c :: t)) (c :: t))
    else c :: sub t.
Proof.
  unfold sub. rewrite re_sub_cons. unfold match_run.
  destruct (Nat.leb_spec lo (run_len p (c :: t))) as [H|H]; [|reflexivity].
  destruct (run_len p (c :: t)) as [|n] eqn:E; [lia|]. reflexivity.
Qed.

Lemma run_len_repl_head (x : str) : run_len q (repl ++ x) = 0.
Proof.
  destruct repl as [|e rest]; [contradiction|].
  inversion repl_outside as [|? ? He _]; subst. simpl. now rewrite He.
Qed.

(** The run of [q] at the head of the text is untouched. *)
Lemma sub_other_run (s : str) :
  firstn (run_len q (sub s)) (sub s) = firstn (run_len q s) s.
Proof.
  induction s as [|c t IH]; [reflexivity|].
  rewrite sub_other_cons.
  destruct (q c) eqn:Hq.
  - assert (Hp : run_len p (c :: t) = 0) by (simpl; now rewrite (disjoint c Hq)).
    rewrite Hp. destruct (Nat.leb_spec lo 0); [lia|].
    simpl. rewrite Hq. simpl. now rewrite IH.
  - destruct (lo <=? run_len p (c :: t)).
    + rewrite run_len_repl_head. simpl. now rewrite Hq.
    + simpl. now rewrite Hq.
Qed.

Lemma sub_other_run_len (s : str) : run_len q (sub s) = run_len q s.
Proof.
  induction s as [|c t IH]; [reflexivity|].
  rewrite sub_other_cons.
  destruct (q c) eqn:Hq.
  - assert (Hp : run_len p (c :: t) = 0) by (simpl; now rewrite (disjoint c Hq)).
    rewrite Hp. destruct (Nat.leb_spec lo 0); [lia|].
    simpl. rewrite Hq. now rewrite IH.
  - destruct (lo <=? run_len p (c :: t)).
    + rewrite run_len_repl_head. simpl. now rewrite Hq.
    + simpl. now rewrite Hq.
Qed.

(** A text without a run of [n] characters of [q] keeps that property. *)
Lemma sub_keeps_no_run (n : nat) (s : str) :
  1 <= n ->
  forall k, no_match (match_run q n) s ->
  no_match (match_run q n) (re_sub_from (match_run p lo) repl k s).
Proof.
  intros Hn. induction s as [|c t IH]; intros k H; [now destruct k|].
  destruct H as [Hm Ht]. destruct k as [|k]; [|now apply IH].
  change (re_sub_from (match_run p lo) repl 0 (c :: t)) with (sub (c :: t)).
  rewrite sub_other_cons.
  destruct (Nat.leb_spec lo (run_len p (c :: t))) as [H|H].
  - assert (Hrest : no_match (match_run q n)
                      (sub (skipn (run_len p (c :: t)) (c :: t)))).
    { unfold sub. destruct (run_len p (c :: t)) as [|j]; [lia|].
      simpl skipn. rewrite <- re_sub_from_skip. now apply IH. }
    now apply no_run_prepend_outside.
  - split; [|apply (IH 0 Ht)].
    rewrite matches_at_run in * by exact Hn.
    change (re_sub_from (match_run p lo) repl 0 t) with (sub t).
    simpl in *. destruct (q c); [|exact Hm]. now rewrite sub_other_run_len.
Qed.

End RunSubOther.

(** ** The shape of cleaned messages *)

Lemma no_match_no_run (p : ascii -> bool) (c : ascii) (n : nat) (s : str) :
  p c = true -> 1 <= n -> no_match (match_run p n) s -> ~ has_run c n s.
Proof.
  intros Hc Hn H (pre & post & ->). apply no_match_suffix in H.
  destruct n as [|n]; [lia|]. destruct H as [Hm _].
  change (c :: repeat c n ++ post) with (repeat c (S n) ++ post) in Hm.
  rewrite matches_at_run in Hm by exact Hn.
  rewrite run_len_repeat in Hm by exact Hc.
  apply Nat.leb_gt in Hm. lia.
Qed.

Lemma is_nl_NL : is_nl NL = true.
Proof. reflexivity. Qed.

Lemma is_sp_SP : is_sp SP = true.
Proof. reflexivity. Qed.

Lemma nl_not_sp (c : ascii) : is_nl c = true -> is_sp c = false.
Proof. unfold is_nl. intros H. apply Ascii.eqb_eq in H. now subst. Qed.

Lemma sp_not_nl (c : ascii) : is_sp c = true -> is_nl c = false.
Proof. unfold is_sp. intros H. apply Ascii.eqb_eq in H. now subst. Qed.

Lemma collapse_newlines_no_run (s : str) :
  no_match (match_run is_nl 3) (collapse_newlines s).
Proof.
  apply (sub_no_run is_nl 3 2 NL); [lia|reflexivity|lia].
Qed.

Lemma collapse_spaces_no_run (s : str) :
  no_match (match_run is_sp 2) (collapse_spaces s).
Proof.
  apply (sub_no_run is_sp 2 1 SP); [lia|reflexivity|lia].
Qed.

Lemma collapse_spaces_keeps_newlines (s : str) :
  no_match (match_run is_nl 3) s ->
  no_match (match_run is_nl 3) (collapse_spaces s).
Proof.
  intros H. unfold collapse_spaces, re_sub.
  apply (sub_keeps_no_run is_sp 2 [SP]); try lia; try exact H.
  - exact nl_not_sp.
  - constructor; [reflexivity|constructor].
  - discriminate.
Qed.

Lemma truncate_no_run (p : ascii -> bool) (lo : nat) (s : str) :
  1 <= lo -> p "."%char = false ->
  no_match (match_run p lo) s -> no_match (match_run p lo) (truncate s).
Proof.
  intros Hlo Hdot H. unfold truncate.
  destruct (MAX_MSG_LENGTH <? length s); [|exact H].
  apply no_run_app_outside; [exact Hlo| |now apply no_run_firstn].
  repeat constructor; exact Hdot.
Qed.

Lemma rstrip_by_length (p : ascii -> bool) (s : str) :
  length (rstrip_by p s) <= length s.
Proof.
  induction s as [|c t IH]; simpl; [lia|].
  destruct (p c && null (rstrip_by p t)); simpl; lia.
Qed.

Lemma lstrip_by_length (p : ascii -> bool) (s : str) :
  length (lstrip_by p s) <= length s.
Proof.
  induction s as [|c t IH]; simpl; [lia|]. destruct (p c); simpl; lia.
Qed.

Lemma strip_length (s : str) : length (strip s) <= length s.
Proof.
  unfold strip. pose proof (rstrip_by_length is_space (lstrip_by is_space s)).
  pose proof (lstrip_by_length is_space s). lia.
Qed.

Lemma truncate_length (s : str) : length (truncate s) <= MAX_MSG_LENGTH + 3.
Proof.
  unfold truncate. destruct (Nat.ltb_spec MAX_MSG_LENGTH (length s)) as [H|H]; [|lia].
  rewrite length_app, length_firstn.
  change (length (lit "...")) with 3.
  pose proof (Nat.le_min_l MAX_MSG_LENGTH (length s)). lia.
Qed.

(** What [clean_text] guarantees for every text. *)
Lemma clean_text_shape (text : str) :
  length (clean_text text) <= MAX_MSG_LENGTH + 3 /\
  no_match (match_run is_sp 2) (clean_text text) /\
  no_match (match_run is_nl 3) (clean_text text).
Proof.
  unfold clean_text. split; [|split].
  - pose proof (strip_length
      (truncate (collapse_spaces (collapse_newlines (remove_bot_mentions text))))).
    pose proof (truncate_length
      (collapse_spaces (collapse_newlines (remove_bot_mentions text)))). lia.
  - apply no_run_strip; [lia|]. apply truncate_no_run; [lia|reflexivity|].
    apply collapse_spaces_no_run.
  - apply no_run_strip; [lia|]. apply truncate_no_run; [lia|reflexivity|].
    apply collapse_spaces_keeps_newlines, collapse_newlines_no_run.
Qed.

(** Every string the client loop returns is the cleaned text of one of
    the messages it was given, long enough before cleaning and not empty
    after it. *)
Lemma channel_loop_in (cutoff L : Z) (msgs : list Client.message) :
  forall acc seen total r,
  In r (fst (Client.channel_loop cutoff L msgs acc seen total)) ->
  In r acc \/
  exists m text, In m msgs /\ Client.extract_text m = Some text /\
    MIN_MSG_LENGTH <= length text /\ r = clean_text text /\ r <> [].
Proof.
  induction msgs as [|m rest IH]; intros acc seen total r H; simpl in H.
  - now left.
  - assert (Hskip : forall s,
      In r (fst (Client.channel_loop cutoff L rest acc s total)) ->
      In r acc \/
      exists m0 text, In m0 (m :: rest) /\ Client.extract_text m0 = Some text /\
        MIN_MSG_LENGTH <= length text /\ r = clean_text text /\ r <> []).
    { intros s Hs. destruct (IH _ _ _ _ Hs) as [?|(m0 & text & Hm & Hr)]; [now left|].
      right. exists m0, text. split; [now right|exact Hr]. }
    destruct (Client.m_date m <? cutoff)%Z; [now left|].
    destruct (Client.is_noise m); [now apply Hskip in H|].
    destruct (Client.extract_text m) as [text|] eqn:Hx; [|now apply Hskip in H].
    destruct (null text); [now apply Hskip in H|].
    destruct (Nat.ltb_spec (length text) MIN_MSG_LENGTH) as [Hs|Hl];
      [now apply Hskip in H|].
    destruct (mem (Client.text_key text) seen); [now apply Hskip in H|].
    destruct (null (clean_text text)) eqn:Hn; [now apply Hskip in H|].
    destruct (total + len (clean_text text) >? L)%Z; [now left|].
    destruct (IH _ _ _ _ H) as [Hacc|(m0 & text0 & Hm & Hr)].
    + apply in_app_or in Hacc. destruct Hacc as [?|[<-|[]]]; [now left|].
      right. exists m, text. repeat split; auto; [now left|].
      intros E. rewrite E in Hn. discriminate.
    + right. exists m0, text0. split; [now right|exact Hr].
Qed.

(** C3 as stated fails on the maximum length: a text of 501 characters is
    cut to 500 and the three dots of the ellipsis are appended: the message stored in the digest has 503
    characters, more than the maximum message length. *)
Lemma cleaned_shape_counterexample :
  Public.filter_clean
    [{| Public.msg_id := 1; Public.msg_date := 100; Public.msg_text := long_text |}]
    [] [] = [repeat "a"%char 500 ++ lit "..."] /\
  length (repeat "a"%char 500 ++ lit "...") = 503 /\
  MAX_MSG_LENGTH < 503.
Proof.
  split; [vm_compute; reflexivity|].
  split; [vm_compute; reflexivity|].
  apply Nat.ltb_lt. vm_compute. reflexivity.
Qed.

(** The minimum length is checked before cleaning: a stored message can
    be shorter than it. *)
Example cleaned_shorter_than_minimum :
  Public.filter_clean
    [{| Public.msg_id := 1; Public.msg_date := 100;
        Public.msg_text := lit "@aaaaaaaaaaaaaaaaaaaaaaaabot ok" |}]
    [] [] = [lit "ok"].
Proof. vm_compute. reflexivity. Qed.

(** C3 (amended).  Every cleaned message placed into a channel's list is
    not empty, has at most the maximum message length plus the three
    characters of the ellipsis, contains no two consecutive spaces and no
    three consecutive newlines, and is the cleaned form of a text that had
    at least the minimum message length before cleaning. *)
Theorem cleaned_shape :
  (forall text,
     length (clean_text text) <= MAX_MSG_LENGTH + 3 /\
     ~ has_run SP 2 (clean_text text) /\
     ~ has_run NL 3 (clean_text text)) /\
  (forall (msgs : list Public.msg) (r : str),
     In r (Public.filter_clean msgs [] []) ->
     1 <= length r <= MAX_MSG_LENGTH + 3 /\
     ~ has_run SP 2 r /\ ~ has_run NL 3 r /\
     exists m, In m msgs /\ MIN_MSG_LENGTH <= length (Public.msg_text m) /\
               r = clean_text (Public.msg_text m)) /\
  (forall (cutoff L : Z) (msgs : list Client.message) (total : Z) (r : str),
     In r (fst (Client.channel_loop cutoff L msgs [] [] total)) ->
     1 <= length r <= MAX_MSG_LENGTH + 3 /\
     ~ has_run SP 2 r /\ ~ has_run NL 3 r /\
     exists m text, In m msgs /\ Client.extract_text m = Some text /\
                    MIN_MSG_LENGTH <= length text /\ r = clean_text text).
Proof.
  assert (Shape : forall text,
     length (clean_text text) <= MAX_MSG_LENGTH + 3 /\
     ~ has_run SP 2 (clean_text text) /\
     ~ has_run NL 3 (clean_text text)).
  { intros text. destruct (clean_text_shape text) as (Hl & Hs & Hn).
    split; [exact Hl|]. split.
    - apply (no_match_no_run is_sp); [reflexivity|lia|exact Hs].
    - apply (no_match_no_run is_nl); [reflexivity|lia|exact Hn]. }
  split; [exact Shape|]. split.
  - intros msgs r H.
    destruct (filter_clean_in _ _ _ _ H) as [[]|(m & Hm & Hlen & -> & Hne)].
    destruct (Shape (Public.msg_text m)) as (Hl & Hs & Hn).
    repeat split; auto.
    + destruct (clean_text (Public.msg_text m)); [contradiction|simpl; lia].
    + exists m. auto.
  - intros cutoff L msgs total r H.
    destruct (channel_loop_in _ _ _ _ _ _ _ H) as [[]|(m & text & Hm & Hx & Hlen & -> & Hne)].
    destruct (Shape text) as (Hl & Hs & Hn).
    repeat split; auto.
    + destruct (clean_text text); [contradiction|simpl; lia].
    + exists m, text. auto.
Qed.

Lemma cleaned_shape_witness :
  (let r := repeat "a"%char 500 ++ lit "..." in
   1 <= length r <= MAX_MSG_LENGTH + 3 /\ ~ has_run SP 2 r /\ ~ has_run NL 3 r) /\
  (let r := lit "Markets rally today, more soon" in
   1 <= length r <= MAX_MSG_LENGTH + 3 /\ ~ has_run SP 2 r /\ ~ has_run NL 3 r).
Proof.
  destruct cleaned_shape as (_ & HP & HC).
  split.
  - destruct (HP [{| Public.msg_id := 1; Public.msg_date := 100;
                     Public.msg_text := long_text |}]
                (repeat "a"%char 500 ++ lit "..."))
      as (H1 & H2 & H3 & _).
    + vm_compute. left. reflexivity.
    + cbv zeta. auto.
  - destruct (HC 0%Z 1000%Z
                [Scenario.text_message (lit "Markets rally today, more soon")] 0%Z
                (lit "Markets rally today, more soon"))
      as (H1 & H2 & H3 & _).
    + vm_compute. left. reflexivity.
    + cbv zeta. auto.
Defined.

(** ** Bot mentions *)

Lemma ci_word (c l : ascii) :
  In l ["b"%char; "o"%char; "t"%char] -> ci_eqb c l = true -> is_word c = true.
Proof.
  intros Hl. destruct c as [[] [] [] [] [] [] [] []];
    destruct Hl as [<-|[<-|[<-|[]]]]; vm_compute; congruence.
Qed.

Lemma space_not_word (c : ascii) : is_space c = true -> is_word c = false.
Proof.
  destruct c as [[] [] [] [] [] [] [] []]; vm_compute; congruence.
Qed.

Lemma ci_not_word (c l : ascii) :
  In l ["b"%char; "o"%char; "t"%char] -> is_word c = false -> ci_eqb c l = false.
Proof.
  intros Hl Hw. destruct (ci_eqb c l) eqn:E; [|reflexivity].
  rewrite (ci_word c l Hl E) in Hw. discriminate.
Qed.

Lemma word_run_split (s : str) : s = word_run s ++ skipn (run_len is_word s) s.
Proof. unfold word_run. now rewrite firstn_skipn. Qed.

Lemma word_run_all (s : str) : Forall (fun c => is_word c = true) (word_run s).
Proof.
  unfold word_run. induction s as [|c t IH]; simpl; [constructor|].
  destruct (is_word c) eqn:E; simpl; [now constructor|constructor].
Qed.

Lemma word_run_length (s : str) : length (word_run s) = run_len is_word s.
Proof.
  unfold word_run. induction s as [|c t IH]; simpl; [reflexivity|].
  destruct (is_word c); simpl; [now rewrite IH|reflexivity].
Qed.

Lemma Forall_skipn {A} (P : A -> Prop) (k : nat) (l : list A) :
  Forall P l -> Forall P (skipn k l).
Proof.
  intros H. rewrite <- (firstn_skipn k l) in H. now apply Forall_app in H.
Qed.

(** After word characters that end the word, [bot\b] matches exactly when
    these characters are the three letters. *)
Lemma bot_at_word_tail (y tail : str) :
  Forall (fun c => is_word c = true) y ->
  run_len is_word tail = 0 ->
  bot_at (y ++ tail) = bot3 y.
Proof.
  intros Hy Ht.
  assert (Hd : forall d rest l, tail = d :: rest ->
                In l ["b"%char; "o"%char; "t"%char] -> ci_eqb d l = false).
  { intros d rest l -> Hl. apply ci_not_word; [exact Hl|].
    simpl in Ht. now destruct (is_word d). }
  destruct y as [|b [|o [|t [|x y']]]]; cbn [app]; unfold bot_at, bot3.
  - destruct tail as [|d [|d2 [|d3 rest]]]; try reflexivity.
    now rewrite (Hd d _ "b"%char eq_refl) by (simpl; auto).
  - destruct tail as [|d [|d2 rest]]; try reflexivity.
    rewrite (Hd d _ "o"%char eq_refl) by (simpl; auto).
    now rewrite andb_false_r.
  - destruct tail as [|d rest]; try reflexivity.
    rewrite (Hd d _ "t"%char eq_refl) by (simpl; auto).
    now rewrite andb_false_r.
  - destruct tail as [|d rest]; [now rewrite andb_true_r|].
    cbn [run_len] in Ht. destruct (is_word d); [discriminate|].
    now rewrite andb_true_r.
  - inversion Hy as [|? ? _ H1]; subst. inversion H1 as [|? ? _ H2]; subst.
    inversion H2 as [|? ? _ H3]; subst. inversion H3 as [|? ? Hx _]; subst.
    rewrite Hx. cbn [negb]. now rewrite andb_false_r.
Qed.

Lemma bot3_length (y : str) : bot3 y = true -> length y = 3.
Proof. destruct y as [|b [|o [|t [|x y']]]]; simpl; congruence. Qed.

Lemma bot_at_skipn (rest : str) (k : nat) :
  k <= run_len is_word rest ->
  bot_at (skipn k rest) = bot3 (skipn k (word_run rest)).
Proof.
  intros Hk. rewrite (word_run_split rest) at 1.
  rewrite skipn_app, word_run_length.
  replace (k - run_len is_word rest) with 0 by lia. simpl skipn at 2.
  apply bot_at_word_tail.
  - apply Forall_skipn, word_run_all.
  - apply run_len_skipn.
Qed.

Lemma try_bot_spec (rest : str) (k : nat) :
  let n := run_len is_word rest in
  k <= n ->
  try_bot k rest =
    if (n - 3 <=? k) && (4 <=? n) && bot3 (skipn (n - 3) (word_run rest))
    then Some n else None.
Proof.
  intros n. induction k as [|k IH]; intros Hk.
  - cbn [try_bot]. destruct (Nat.leb_spec 4 n) as [H|H].
    + destruct (Nat.leb_spec (n - 3) 0); [lia|reflexivity].
    + now rewrite andb_false_r.
  - cbn [try_bot]. rewrite bot_at_skipn by exact Hk.
    destruct (bot3 (skipn (S k) (word_run rest))) eqn:Hb.
    + pose proof (bot3_length _ Hb) as Hl.
      rewrite length_skipn, word_run_length in Hl. fold n in Hl.
      replace (n - 3) with (S k) by lia. rewrite Hb.
      rewrite Nat.leb_refl. destruct (Nat.leb_spec 4 n); [|lia].
      cbn [andb]. f_equal. lia.
    + rewrite IH by lia.
      destruct (Nat.leb_spec (n - 3) k) as [H1|H1].
      * destruct (Nat.leb_spec (n - 3) (S k)); [reflexivity|lia].
      * cbn [andb]. destruct (Nat.leb_spec (n - 3) (S k)) as [H2|H2]; [|reflexivity].
        destruct (Nat.leb_spec 4 n) as [H3|H3]; [|reflexivity].
        replace (n - 3) with (S k) by lia. now rewrite Hb.
Qed.

(** The mention pattern without backtracking. *)
Lemma match_bot_spec (c : ascii) (rest : str) :
  match_bot (c :: rest) =
    if Ascii.eqb c "@" && mention rest
    then Some (S (run_len is_word rest)) else None.
Proof.
  unfold match_bot, mention. destruct (Ascii.eqb c "@"); [|reflexivity].
  rewrite try_bot_spec by lia. rewrite word_run_length.
  destruct (Nat.leb_spec (run_len is_word rest - 3) (run_len is_word rest)); [|lia].
  cbn [andb].
  now destruct ((4 <=? run_len is_word rest) &&
                bot3 (skipn (run_len is_word rest - 3) (word_run rest))).
Qed.

Lemma matches_at_bot (c : ascii) (rest : str) :
  matches_at match_bot (c :: rest) = Ascii.eqb c "@" && mention rest.
Proof.
  unfold matches_at. rewrite match_bot_spec.
  now destruct (Ascii.eqb c "@" && mention rest).
Qed.

(** Whether a mention starts at a character depends only on that
    character and on the word that follows it. *)
Lemma matches_at_bot_ext (c : ascii) (a b : str) :
  word_run a = word_run b ->
  matches_at match_bot (c :: a) = matches_at match_bot (c :: b).
Proof.
  intros H. rewrite !matches_at_bot. unfold mention. now rewrite H.
Qed.

Lemma word_run_cons (c : ascii) (t : str) :
  word_run (c :: t) = if is_word c then c :: word_run t else [].
Proof. unfold word_run. simpl. now destruct (is_word c). Qed.

Lemma word_run_stop (s : str) : run_len is_word s = 0 -> word_run s = [].
Proof. unfold word_run. now intros ->. Qed.

Lemma word_not_at (c : ascii) : is_word c = true -> Ascii.eqb c "@" = false.
Proof.
  intros H. destruct (Ascii.eqb_spec c "@") as [->|]; [discriminate H|reflexivity].
Qed.

Lemma remove_bot_mentions_cons (c : ascii) (t : str) :
  remove_bot_mentions (c :: t) =
    if Ascii.eqb c "@" && mention t
    then re_sub_from match_bot [] (run_len is_word t) t
    else c :: remove_bot_mentions t.
Proof.
  unfold remove_bot_mentions, re_sub. cbn [re_sub_from].
  rewrite match_bot_spec. now destruct (Ascii.eqb c "@" && mention t).
Qed.

(** Past the end of a word, removing mentions does not bring a word
    character to the front. *)
Lemma remove_bot_mentions_stop (s : str) :
  forall k, run_len is_word (skipn k s) = 0 ->
  run_len is_word (re_sub_from match_bot [] k s) = 0.
Proof.
  induction s as [|c t IH]; intros k H; [now destruct k|].
  destruct k as [|k]; [|now apply IH].
  change (re_sub_from match_bot [] 0 (c :: t)) with (remove_bot_mentions (c :: t)).
  rewrite remove_bot_mentions_cons.
  destruct (Ascii.eqb c "@" && mention t).
  - apply IH, run_len_skipn.
  - simpl in *. now destruct (is_word c).
Qed.

(** Removing mentions leaves the word at the head of the text alone. *)
Lemma remove_bot_mentions_word (t : str) :
  word_run (remove_bot_mentions t) = word_run t.
Proof.
  induction t as [|c t IH]; [reflexivity|].
  rewrite remove_bot_mentions_cons, (word_run_cons c t).
  destruct (is_word c) eqn:Hw.
  - rewrite (word_not_at c Hw). cbn [andb]. rewrite word_run_cons, Hw. now rewrite IH.
  - destruct (Ascii.eqb c "@" && mention t).
    + apply word_run_stop, remove_bot_mentions_stop, run_len_skipn.
    + now rewrite word_run_cons, Hw.
Qed.

(** No mention is left after the removal. *)
Lemma remove_bot_mentions_no_match (s : str) :
  forall k, no_match match_bot (re_sub_from match_bot [] k s).
Proof.
  induction s as [|c t IH]; intros k; [now destruct k|].
  destruct k as [|k]; [|apply IH].
  change (re_sub_from match_bot [] 0 (c :: t)) with (remove_bot_mentions (c :: t)).
  rewrite remove_bot_mentions_cons.
  destruct (Ascii.eqb c "@" && mention t) eqn:E; [apply IH|].
  split; [|apply (IH 0)].
  rewrite (matches_at_bot_ext c (remove_bot_mentions t) t)
    by apply remove_bot_mentions_word.
  now rewrite matches_at_bot.
Qed.

Lemma no_bot_prepend (d x : str) :
  Forall (fun c => Ascii.eqb c "@" = false) d ->
  no_match match_bot x -> no_match match_bot (d ++ x).
Proof.
  intros Hd Hx. induction Hd as [|e rest He _ IH]; [exact Hx|].
  simpl. split; [|exact IH]. now rewrite matches_at_bot, He.
Qed.

(** Collapsing runs of characters that are neither word characters nor
    [@] creates no mention. *)
Lemma collapse_keeps_no_bot (p : ascii -> bool) (lo : nat) (repl : str) (s : str) :
  1 <= lo ->
  (forall c, is_word c = true -> p c = false) ->
  Forall (fun c => is_word c = false) repl ->
  Forall (fun c => Ascii.eqb c "@" = false) repl ->
  repl <> [] ->
  forall k, no_match match_bot s ->
  no_match match_bot (re_sub_from (match_run p lo) repl k s).
Proof.
  intros Hlo Hdis Hout Hat Hne.
  induction s as [|c t IH]; intros k H; [now destruct k|].
  destruct H as [Hm Ht]. destruct k as [|k]; [|now apply IH].
  change (re_sub_from (match_run p lo) repl 0 (c :: t))
    with (re_sub (match_run p lo) repl (c :: t)).
  rewrite (sub_other_cons p lo repl Hlo).
  destruct (lo <=? run_len p (c :: t)) eqn:E.
  - apply no_bot_prepend; [exact Hat|].
    apply Nat.leb_le in E. destruct (run_len p (c :: t)) as [|j]; [lia|].
    simpl skipn. rewrite <- re_sub_from_skip. now apply IH.
  - split; [|apply (IH 0 Ht)].
    change (re_sub_from (match_run p lo) repl 0 t) with (re_sub (match_run p lo) repl t).
    rewrite (matches_at_bot_ext c (re_sub (match_run p lo) repl t) t); [exact Hm|].
    apply (sub_other_run p lo repl Hlo is_word Hdis Hout Hne).
Qed.

Lemma word_run_rstrip (t : str) : word_run (rstrip_by is_space t) = word_run t.
Proof.
  induction t as [|c t IH]; [reflexivity|]. simpl.
  destruct (is_space c) eqn:Hs.
  - pose proof (space_not_word c Hs) as Hw.
    destruct (null (rstrip_by is_space t)); simpl.
    + now rewrite word_run_cons, Hw.
    + now rewrite !word_run_cons, Hw.
  - simpl. rewrite !word_run_cons. now rewrite IH.
Qed.

Lemma rstrip_keeps_no_bot (s : str) :
  no_match match_bot s -> no_match match_bot (rstrip_by is_space s).
Proof.
  induction s as [|c t IH]; [auto|]. intros [Hm Ht]. simpl.
  destruct (is_space c && null (rstrip_by is_space t)); [constructor|].
  split; [|now apply IH].
  rewrite (matches_at_bot_ext c (rstrip_by is_space t) t); [exact Hm|].
  apply word_run_rstrip.
Qed.

Lemma strip_keeps_no_bot (s : str) :
  no_match match_bot s -> no_match match_bot (strip s).
Proof.
  intros H. unfold strip. apply rstrip_keeps_no_bot.
  destruct (lstrip_by_suffix is_space s) as [a Ea].
  rewrite Ea in H. now apply no_match_suffix in H.
Qed.

(** [strip] is idempotent. *)
Lemma rstrip_by_idem (p : ascii -> bool) (s : str) :
  rstrip_by p (rstrip_by p s) = rstrip_by p s.
Proof.
  induction s as [|c t IH]; [reflexivity|]. simpl.
  destruct (p c && null (rstrip_by p t)) eqn:E; [reflexivity|].
  simpl. now rewrite IH, E.
Qed.

Lemma lstrip_by_head (p : ascii -> bool) (s : str) : clean_head p (lstrip_by p s).
Proof.
  induction s as [|c t IH]; simpl; [exact I|].
  destruct (p c) eqn:E; [exact IH|exact E].
Qed.

Lemma lstrip_by_fixed (p : ascii -> bool) (s : str) :
  clean_head p s -> lstrip_by p s = s.
Proof. destruct s as [|c t]; simpl; [reflexivity|]. now intros ->. Qed.

Lemma rstrip_by_head (p : ascii -> bool) (s : str) :
  clean_head p s -> clean_head p (rstrip_by p s).
Proof. destruct s as [|c t]; simpl; [auto|]. intros H. now rewrite H. Qed.

Lemma strip_idem (s : str) : strip (strip s) = strip s.
Proof.
  unfold strip.
  rewrite (lstrip_by_fixed is_space (rstrip_by is_space (lstrip_by is_space s))).
  - apply rstrip_by_idem.
  - apply rstrip_by_head, lstrip_by_head.
Qed.

(** A text the three substitutions leave alone, within the maximum length
    and already stripped, is a fixed point of [clean_text]. *)
Lemma clean_text_fixed (r : str) :
  no_match match_bot r ->
  no_match (match_run is_nl 3) r ->
  no_match (match_run is_sp 2) r ->
  length r <= MAX_MSG_LENGTH ->
  strip r = r ->
  clean_text r = r.
Proof.
  intros Hb Hn Hs Hl Hst. unfold clean_text.
  unfold remove_bot_mentions, collapse_newlines, collapse_spaces.
  rewrite (re_sub_no_match match_bot [] r Hb).
  rewrite (re_sub_no_match (match_run is_nl 3) [NL; NL] r Hn).
  rewrite (re_sub_no_match (match_run is_sp 2) [SP] r Hs).
  unfold truncate. destruct (Nat.ltb_spec MAX_MSG_LENGTH (length r)); [lia|exact Hst].
Qed.

(** C6 as stated fails when the first pass cuts the text.  Cleaning a
    space followed by 500 letters cuts after 500 characters, appends the
    ellipsis and strips the space: 502 characters.  Cleaning
    that again cuts after 500 characters, inside the ellipsis, and appends
    another one. *)
Lemma idempotence_counterexample :
  clean_text padded_text = repeat "a"%char 499 ++ lit "..." /\
  clean_text (clean_text padded_text) = repeat "a"%char 499 ++ lit "...." /\
  clean_text (clean_text padded_text) <> clean_text padded_text.
Proof.
  assert (E1 : clean_text padded_text = repeat "a"%char 499 ++ lit "...")
    by (vm_compute; reflexivity).
  assert (E2 : clean_text (clean_text padded_text) = repeat "a"%char 499 ++ lit "....")
    by (vm_compute; reflexivity).
  split; [exact E1|]. split; [exact E2|].
  rewrite E1 at 2. rewrite E2. intros H.
  apply (f_equal (@length ascii)) in H. vm_compute in H. discriminate.
Qed.

(** Cutting can also leave a mention behind that the next pass removes. *)
Example idempotence_mention_cut :
  let text := repeat "a"%char 494 ++ lit " @xbotty" in
  clean_text text = repeat "a"%char 494 ++ lit " @xbot..." /\
  clean_text (clean_text text) = repeat "a"%char 494 ++ lit " ...".
Proof. split; vm_compute; reflexivity. Qed.

(** C6 (amended).  [clean_text] applied twice gives the same result as
    applied once for every text that the first application does not cut,
    that is, whose length after the three substitutions is at most the
    maximum message length. *)
Theorem clean_text_idempotent (text : str) :
  length (collapse_spaces (collapse_newlines (remove_bot_mentions text)))
    <= MAX_MSG_LENGTH ->
  clean_text (clean_text text) = clean_text text.
Proof.
  intros Hlen.
  set (s1 := remove_bot_mentions text) in *.
  set (s2 := collapse_newlines s1) in *.
  set (s3 := collapse_spaces s2) in *.
  assert (E : clean_text text = strip s3).
  { unfold clean_text. fold s1 s2 s3. unfold truncate.
    destruct (Nat.ltb_spec MAX_MSG_LENGTH (length s3)); [lia|reflexivity]. }
  rewrite E.
  assert (B1 : no_match match_bot s1) by apply (remove_bot_mentions_no_match text 0).
  assert (B2 : no_match match_bot s2).
  { apply (collapse_keeps_no_bot is_nl 3 [NL; NL] s1); try lia; try exact B1.
    - intros c Hc. destruct (Ascii.eqb_spec c NL) as [->|]; [discriminate Hc|].
      unfold is_nl. now apply Ascii.eqb_neq.
    - repeat constructor.
    - repeat constructor.
    - discriminate. }
  assert (B3 : no_match match_bot s3).
  { apply (collapse_keeps_no_bot is_sp 2 [SP] s2); try lia; try exact B2.
    - intros c Hc. destruct (Ascii.eqb_spec c SP) as [->|]; [discriminate Hc|].
      unfold is_sp. now apply Ascii.eqb_neq.
    - repeat constructor.
    - repeat constructor.
    - discriminate. }
  assert (N2 : no_match (match_run is_nl 3) s2) by apply collapse_newlines_no_run.
  assert (N3 : no_match (match_run is_nl 3) s3)
    by now apply collapse_spaces_keeps_newlines.
  assert (S3 : no_match (match_run is_sp 2) s3) by apply collapse_spaces_no_run.
  apply clean_text_fixed.
  - now apply strip_keeps_no_bot.
  - apply no_run_strip; [lia|exact N3].
  - apply no_run_strip; [lia|exact S3].
  - pose proof (strip_length s3). lia.
  - apply strip_idem.
Qed.

Lemma clean_text_idempotent_witness :
  clean_text (clean_text (lit "  hi   @HelperBot there  @bot x ")) =
  clean_text (lit "  hi   @HelperBot there  @bot x ").
Proof.
  apply clean_text_idempotent. apply Nat.leb_le. vm_compute. reflexivity.
Defined.

Example clean_demo :
  clean_text (lit "  hi   @HelperBot there  @bot x ") = lit "hi there @bot x".
Proof. vm_compute. reflexivity. Qed.

(** * Further properties of the code *)

(** ** Messages the client loop passes over *)

(** X1.  In the client variant a message that is not older than the
    cutoff and is noise, has no text, or has a text shorter than the minimum
    length has no effect at all: the accepted messages and the running total
    are the same as if it were not in the sequence. *)
Theorem skipped_message_is_transparent (cutoff L : Z) (m : Client.message)
    (post : list Client.message) (pre : list Client.message) :
  client_skipped cutoff m ->
  forall acc seen total,
  Client.channel_loop cutoff L (pre ++ m :: post) acc seen total =
  Client.channel_loop cutoff L (pre ++ post) acc seen total.
Proof.
  intros [Hd Hs]. induction pre as [|x rest IH]; intros acc seen total; simpl.
  - destruct (Z.ltb_spec (Client.m_date m) cutoff) as [?|_]; [lia|].
    destruct (Client.is_noise m) eqn:Hn; [reflexivity|].
    destruct Hs as [Hs|[Hs|(text & Hs & Hlen)]]; [discriminate| |].
    + now rewrite Hs.
    + rewrite Hs. destruct (null text); [reflexivity|].
      destruct (Nat.ltb_spec (length text) MIN_MSG_LENGTH); [reflexivity|lia].
  - destruct (Client.m_date x <? cutoff)%Z; [reflexivity|].
    destruct (Client.is_noise x); [now apply IH|].
    destruct (Client.extract_text x) as [text|]; [|now apply IH].
    destruct (null text); [now apply IH|].
    destruct (length text <? MIN_MSG_LENGTH); [now apply IH|].
    destruct (mem (Client.text_key text) seen); [now apply IH|].
    destruct (null (clean_text text)); [now apply IH|].
    destruct (total + len (clean_text text) >? L)%Z; [reflexivity|].
    now apply IH.
Qed.

Lemma skipped_message_is_transparent_witness :
  Client.channel_loop 0 1000
    [Scenario.text_message Scenario.x30; service_message;
     Scenario.text_message Scenario.y30] [] [] 0 =
  Client.channel_loop 0 1000
    [Scenario.text_message Scenario.x30; Scenario.text_message Scenario.y30] [] [] 0.
Proof.
  apply (skipped_message_is_transparent 0 1000 service_message
           [Scenario.text_message Scenario.y30] [Scenario.text_message Scenario.x30]).
  split; [vm_compute; discriminate|left; reflexivity].
Defined.

(** ** Text extraction *)

Lemma rstrip_by_nil (p : ascii -> bool) (s : str) :
  rstrip_by p s = [] -> Forall (fun c => p c = true) s.
Proof.
  induction s as [|c t IH]; [constructor|]. simpl.
  destruct (p c) eqn:Hc; simpl; [|discriminate].
  destruct (rstrip_by p t) eqn:E; simpl; [|discriminate].
  intros _. constructor; [exact Hc|now apply IH].
Qed.

(** X2.  [extract_text] never returns an empty string.  For a message
    that is not a poll it returns the stripped text, a string without
    leading or trailing whitespace, and it returns [None] exactly when the
    text is absent or consists of whitespace only; a poll always has a
    text, of at least 18 characters. *)
Theorem extract_text_never_empty (m : Client.message) :
  (forall t, Client.extract_text m = Some t -> t <> []) /\
  ((forall p, Client.m_media m <> Client.MessageMediaPoll p) ->
     (forall t, Client.extract_text m = Some t ->
                t = strip (raw_text m) /\ strip t = t) /\
     (Client.extract_text m = None <-> strip (raw_text m) = [])) /\
  (forall p, Client.m_media m = Client.MessageMediaPoll p ->
     exists t, Client.extract_text m = Some t /\ 18 <= length t).
Proof.
  unfold Client.extract_text, raw_text.
  assert (NP : forall t,
    (if null (strip (match Client.m_text m with Some t0 => t0 | None => [] end))
     then None
     else Some (strip (match Client.m_text m with Some t0 => t0 | None => [] end)))
    = Some t -> t <> []).
  { intros t H E. destruct (strip _) eqn:Es; simpl in H; [discriminate|].
    inversion H; subst. discriminate. }
  split; [|split].
  - intros t. destruct (Client.m_media m); try apply NP.
    intros H. inversion H. discriminate.
  - intros Hnp.
    assert (Eq : match Client.m_media m with
                 | Client.MessageMediaPoll p =>
                     Some (lit "Poll: " ++ Client.text_of (Client.question p) ++
                           lit " | Options: " ++
                           join (lit ", ") (map Client.text_of (Client.answers p)))
                 | _ =>
                     if null (strip (match Client.m_text m with
                                     | Some t0 => t0 | None => [] end))
                     then None
                     else Some (strip (match Client.m_text m with
                                       | Some t0 => t0 | None => [] end))
                 end =
                 if null (strip (match Client.m_text m with
                                 | Some t0 => t0 | None => [] end))
                 then None
                 else Some (strip (match Client.m_text m with
                                   | Some t0 => t0 | None => [] end))).
    { destruct (Client.m_media m) as [|p| | | | |]; try reflexivity.
      now elim (Hnp p). }
    rewrite Eq. split.
    + intros t H. destruct (null (strip _)); [discriminate|].
      inversion H; subst. split; [reflexivity|apply strip_idem].
    + destruct (strip _) eqn:Es; simpl; split; congruence.
  - intros p Hp. rewrite Hp. eexists. split; [reflexivity|].
    rewrite !length_app. change (length (lit "Poll: ")) with 6.
    change (length (lit " | Options: ")) with 12. lia.
Qed.

Lemma extract_text_never_empty_witness :
  (exists t, Client.extract_text pick_one = Some t /\ 18 <= length t) /\
  (Client.extract_text (Scenario.text_message (lit "   ")) = None <->
   strip (raw_text (Scenario.text_message (lit "   "))) = []).
Proof.
  split.
  - destruct (extract_text_never_empty pick_one) as (_ & _ & H).
    exact (H _ eq_refl).
  - destruct (extract_text_never_empty (Scenario.text_message (lit "   ")))
      as (_ & H & _).
    apply H. intros p. discriminate.
Defined.

(** ** The pagination cursor *)

Lemma parse_widgets_oldest (cutoff : Z) (ws : list Public.widget) :
  forall messages oldest,
  let out := snd (Public.parse_widgets cutoff ws messages oldest) in
  (forall o, oldest = Some o -> exists o', out = Some o' /\ (o' <= o)%Z) /\
  (forall w id, In w ws -> Public.w_post w = Public.PostId id ->
     exists o', out = Some o' /\ (o' <= id)%Z) /\
  (forall o', out = Some o' ->
     oldest = Some o' \/ exists w, In w ws /\ Public.w_post w = Public.PostId o').
Proof.
  induction ws as [|w rest IH]; intros messages oldest out; subst out.
  - simpl. split; [|split].
    + intros o ->. exists o. split; [reflexivity|lia].
    + intros w id [].
    + intros o' H. now left.
  - assert (Skip : forall msgs,
      Public.w_post w = Public.PostNoSlash \/ Public.w_post w = Public.PostNotInt ->
      (forall o, oldest = Some o -> exists o',
          snd (Public.parse_widgets cutoff rest msgs oldest) = Some o' /\ (o' <= o)%Z) /\
      (forall w0 id, In w0 (w :: rest) -> Public.w_post w0 = Public.PostId id ->
         exists o', snd (Public.parse_widgets cutoff rest msgs oldest) = Some o' /\
                    (o' <= id)%Z) /\
      (forall o', snd (Public.parse_widgets cutoff rest msgs oldest) = Some o' ->
         oldest = Some o' \/
         exists w0, In w0 (w :: rest) /\ Public.w_post w0 = Public.PostId o')).
    { intros msgs Hw. destruct (IH msgs oldest) as (H1 & H2 & H3).
      split; [exact H1|]. split.
      - intros w0 id [<-|Hin] Hid; [destruct Hw as [Hw|Hw]; congruence|].
        now apply (H2 w0).
      - intros o' Ho. destruct (H3 o' Ho) as [?|(w0 & Hin & Hid)]; [now left|].
        right. exists w0. split; [now right|exact Hid]. }
    simpl. destruct (Public.w_post w) as [| |id] eqn:Hpost;
      [apply Skip; now left|apply Skip; now right|].
    set (oldest' := match oldest with
                    | Some o => if (id <? o)%Z then Some id else Some o
                    | None => Some id
                    end).
    assert (Step : forall msgs,
      (forall o, oldest = Some o -> exists o',
          snd (Public.parse_widgets cutoff rest msgs oldest') = Some o' /\ (o' <= o)%Z) /\
      (forall w0 id0, In w0 (w :: rest) -> Public.w_post w0 = Public.PostId id0 ->
         exists o', snd (Public.parse_widgets cutoff rest msgs oldest') = Some o' /\
                    (o' <= id0)%Z) /\
      (forall o', snd (Public.parse_widgets cutoff rest msgs oldest') = Some o' ->
         oldest = Some o' \/
         exists w0, In w0 (w :: rest) /\ Public.w_post w0 = Public.PostId o')).
    { intros msgs. destruct (IH msgs oldest') as (H1 & H2 & H3).
      assert (Hid : exists o1, oldest' = Some o1 /\ (o1 <= id)%Z /\
                    (forall o, oldest = Some o -> (o1 <= o)%Z) /\
                    (oldest = Some o1 \/ o1 = id)).
      { unfold oldest'. destruct oldest as [o|].
        - destruct (Z.ltb_spec id o).
          + exists id. repeat split; auto; try lia. intros o0 E. inversion E; lia.
          + exists o. repeat split; auto; try lia. intros o0 E. inversion E; lia.
        - exists id. repeat split; auto; try lia. discriminate. }
      destruct Hid as (o1 & E1 & Hle & Hlo & Hor).
      destruct (H1 o1 E1) as (o' & Eo & Ho).
      split; [|split].
      - intros o Eold. exists o'. split; [exact Eo|]. specialize (Hlo o Eold). lia.
      - intros w0 id0 [<-|Hin] Hid0.
        + rewrite Hpost in Hid0. inversion Hid0; subst. exists o'. split; [exact Eo|lia].
        + now apply (H2 w0).
      - intros o2 Ho2. destruct (H3 o2 Ho2) as [E|(w0 & Hin & Hid0)].
        + rewrite E1 in E. inversion E; subst.
          destruct Hor as [Hor|Hor]; [now left|].
          right. exists w. split; [now left|congruence].
        + right. exists w0. split; [now right|exact Hid0]. }
    destruct (Public.w_time w) as [| |d]; try apply Step.
    destruct (d <? cutoff)%Z; [apply Step|].
    destruct (Public.w_text w) as [raw|]; [|apply Step].
    destruct (null (strip raw)); apply Step.
Qed.

(** X3.  For a page whose history is available, the [oldest_id] that
    [parse_messages] returns is the smallest id among all widgets that have
    an integer id, whether or not the widget is older than the cutoff, has
    a time or has a text; it is [None] only when no widget has an id.  A
    page that reports its history unavailable gives no messages and no
    cursor. *)
Theorem oldest_id_is_minimum (html : Public.page) (cutoff : Z) :
  (Public.history_unavailable html = true ->
     Public.parse_messages html cutoff = ([], None)) /\
  (Public.history_unavailable html = false ->
     (forall w id, In w (Public.widgets html) -> Public.w_post w = Public.PostId id ->
        exists o, snd (Public.parse_messages html cutoff) = Some o /\ (o <= id)%Z) /\
     (forall o, snd (Public.parse_messages html cutoff) = Some o ->
        exists w, In w (Public.widgets html) /\ Public.w_post w = Public.PostId o)).
Proof.
  unfold Public.parse_messages. split.
  - now intros ->.
  - intros ->.
    destruct (parse_widgets_oldest cutoff (Public.widgets html) [] None) as (_ & H2 & H3).
    split; [exact H2|].
    intros o Ho. destruct (H3 o Ho) as [E|Hw]; [discriminate|exact Hw].
Qed.

Lemma oldest_id_is_minimum_witness :
  snd (Public.parse_messages mixed_page 0) = Some 7%Z /\
  length (fst (Public.parse_messages mixed_page 0)) = 1.
Proof.
  destruct (oldest_id_is_minimum mixed_page 0) as [_ H].
  destruct (H eq_refl) as [Hmin Hin].
  split; [|vm_compute; reflexivity].
  destruct (Hmin _ 7%Z (or_intror (or_introl eq_refl)) eq_refl) as (o & Eo & Hle).
  rewrite Eo. destruct (Hin o Eo) as (w & Hw & Hid).
  simpl in Hw. destruct Hw as [<-|[<-|[<-|[<-|[]]]]]; simpl in Hid;
    inversion Hid; subst; try reflexivity; lia.
Defined.

(** ** Calls of [client.get] and pauses of the scrape variant *)

Lemma count_gets_app (a b : Public.trace) :
  count_calls (a ++ b) = count_calls a + count_calls b.
Proof. unfold count_calls. now rewrite filter_app, length_app. Qed.

Lemma count_sleeps_app (d : Public.delay) (a b : Public.trace) :
  count_sleeps d (a ++ b) = count_sleeps d a + count_sleeps d b.
Proof. unfold count_sleeps. now rewrite filter_app, length_app. Qed.

(** What one [fetch_page] adds to the trace: a call, or a call, the retry
    pause and a second call. *)
Lemma fetch_page_adds (srv : Public.server) (channel : str) (before : option Z)
    (tr : Public.trace) :
  exists new,
    snd (Public.fetch_page srv channel before tr) = tr ++ new /\
    ((exists u o, new = [Public.EvGet u o]) \/
     (exists u o1 o2,
        new = [Public.EvGet u o1; Public.EvSleep Public.RETRY_SLEEP; Public.EvGet u o2])).
Proof.
  rewrite fetch_page_unfold. cbv zeta.
  set (url := Public.page_url channel before).
  destruct (srv tr url) as [|s body] eqn:E.
  - exists [Public.EvGet url Public.RequestError]. split; [reflexivity|].
    left. eauto.
  - destruct (s =? 429)%Z.
    + eexists. split; [cbn [snd]; rewrite <- !app_assoc; reflexivity|].
      right. simpl. eauto.
    + exists [Public.EvGet url (Public.Response s body)]. split; [reflexivity|].
      left. eauto.
Qed.

Lemma scrape_pages_adds (srv : Public.server) (channel : str)
    (cutoff max_messages : Z) (pages : nat) :
  forall page all seen before tr,
  exists new,
    snd (Public.scrape_pages srv channel cutoff max_messages pages page
           all seen before tr) = tr ++ new /\
    count_calls new <= 2 * pages /\
    count_sleeps Public.RETRY_SLEEP new <= pages /\
    count_sleeps Public.REQUEST_DELAY new <= pages - (if page =? 0 then 1 else 0).
Proof.
  induction pages as [|pages IH]; intros page all seen before tr.
  - exists []. simpl. rewrite app_nil_r. unfold count_calls, count_sleeps. simpl.
    destruct (page =? 0); repeat split; lia.
  - simpl. unfold Public.bind.
    assert (Hw : exists w,
      Public.when (0 <? page) (Public.sleep Public.REQUEST_DELAY) tr = (tt, tr ++ w) /\
      count_calls w = 0 /\ count_sleeps Public.RETRY_SLEEP w = 0 /\
      count_sleeps Public.REQUEST_DELAY w = (if page =? 0 then 0 else 1)).
    { destruct page as [|page]; simpl.
      - exists []. rewrite app_nil_r. auto.
      - exists [Public.EvSleep Public.REQUEST_DELAY]. auto. }
    destruct Hw as (w & -> & Gw & Rw & Dw).
    destruct (fetch_page_adds srv channel before (tr ++ w)) as (f & Ef & Hf).
    destruct (Public.fetch_page srv channel before (tr ++ w)) as [resp tr2].
    simpl in Ef. subst tr2.
    assert (Cf : count_calls f <= 2 /\ count_sleeps Public.RETRY_SLEEP f <= 1 /\
                 count_sleeps Public.REQUEST_DELAY f = 0).
    { destruct Hf as [(u & o & ->)|(u & o1 & o2 & ->)]; cbn; repeat split; lia. }
    destruct Cf as (Gf & Rf & Df).
    assert (Stop : forall x : list Public.msg,
      exists new,
        snd (x, (tr ++ w) ++ f) = tr ++ new /\
        count_calls new <= 2 * S pages /\
        count_sleeps Public.RETRY_SLEEP new <= S pages /\
        count_sleeps Public.REQUEST_DELAY new <= S pages - (if page =? 0 then 1 else 0)).
    { intros x. exists (w ++ f). simpl. rewrite <- app_assoc.
      split; [reflexivity|].
      rewrite count_gets_app, !count_sleeps_app.
      destruct (page =? 0); repeat split; lia. }
    destruct resp as [html|]; [|apply Stop].
    destruct (Public.parse_messages html cutoff) as [messages oldest].
    destruct (null messages && (page =? 0)); [apply Stop|].
    destruct (Public.add_new messages all seen 0) as [[all' seen'] new_count].
    destruct (new_count =? 0); [apply Stop|].
    destruct (max_messages <=? Z.of_nat (length all'))%Z; [apply Stop|].
    destruct oldest as [o|]; [|apply Stop].
    destruct (IH (S page) all' seen' (Some o) ((tr ++ w) ++ f)) as (n & En & Gn & Rn & Dn).
    exists (w ++ f ++ n). rewrite En, <- !app_assoc. split; [reflexivity|].
    rewrite !count_gets_app, !count_sleeps_app. simpl in Dn.
    destruct (page =? 0); repeat split; lia.
Qed.

(** X4.  Collecting one channel fetches at most [MAX_PAGES_PER_CHANNEL]
    pages: [scrape_channel] calls [client.get] at most 10 times (each page
    once, and once more after a 429), pauses at most 4 times for
    [REQUEST_DELAY] and at most 5 times for [RETRY_SLEEP], and does nothing
    else to the outside; what was in the trace before is kept.  The bound
    is on the calls the script makes: the requests that the HTTP library
    sends on its own inside one call, when it follows a redirect, are not
    counted. *)
Theorem scrape_channel_call_bound (srv : Public.server) (channel : str)
    (cutoff max_messages : Z) (tr : Public.trace) :
  exists new,
    snd (Public.scrape_channel srv channel cutoff max_messages tr) = tr ++ new /\
    count_calls new <= 10 /\
    count_sleeps Public.REQUEST_DELAY new <= 4 /\
    count_sleeps Public.RETRY_SLEEP new <= 5 /\
    length new = count_calls new + count_sleeps Public.REQUEST_DELAY new +
                 count_sleeps Public.RETRY_SLEEP new.
Proof.
  unfold Public.scrape_channel, Public.bind, Public.ret.
  destruct (scrape_pages_adds srv channel cutoff max_messages
              MAX_PAGES_PER_CHANNEL 0 [] [] None tr) as (new & E & G & R & D).
  destruct (Public.scrape_pages _ _ _ _ _ _ _ _ _ _) as [all tr'].
  simpl in E. subst tr'. exists new. simpl snd.
  split; [reflexivity|].
  change MAX_PAGES_PER_CHANNEL with 5 in *. simpl in D.
  repeat split; try lia.
  clear. induction new as [|e rest IH]; [reflexivity|].
  unfold count_calls, count_sleeps in *. simpl.
  destruct e as [u o|[|]]; simpl; lia.
Qed.

Lemma ends_with_get_snoc (tr : Public.trace) (e : Public.event) :
  ends_with_call (tr ++ [e]) = is_call e.
Proof. unfold ends_with_call. now rewrite rev_unit. Qed.

Lemma ends_with_get_cons (a : Public.event) (rest : Public.trace) :
  rest <> [] -> ends_with_call (a :: rest) = ends_with_call rest.
Proof.
  intros Hne. unfold ends_with_call. simpl.
  destruct (rev rest) as [|e l] eqn:E; [|reflexivity].
  apply (f_equal (@rev Public.event)) in E. rewrite rev_involutive in E. contradiction.
Qed.

Lemma paced_snoc (tr : Public.trace) (e : Public.event) :
  paced tr -> is_call e && ends_with_call tr = false -> paced (tr ++ [e]).
Proof.
  induction tr as [|a rest IH]; intros Hp He; [exact I|].
  destruct rest as [|b rest'].
  - split; [|exact I]. unfold ends_with_call in He. simpl in He.
    now rewrite andb_comm.
  - destruct Hp as [Hab Hp].
    rewrite ends_with_get_cons in He by discriminate.
    split; [exact Hab|]. now apply IH.
Qed.

Lemma paced_sleep (tr : Public.trace) (d : Public.delay) :
  paced tr -> paced (tr ++ [Public.EvSleep d]).
Proof. intros H. now apply paced_snoc. Qed.

Lemma paced_call (tr : Public.trace) (u : str) (o : Public.get_outcome) :
  paced tr -> ends_with_call tr = false -> paced (tr ++ [Public.EvGet u o]).
Proof. intros H E. apply paced_snoc; [exact H|]. now rewrite E. Qed.

Lemma fetch_page_paced (srv : Public.server) (channel : str) (before : option Z)
    (tr : Public.trace) :
  paced tr -> ends_with_call tr = false ->
  paced (snd (Public.fetch_page srv channel before tr)).
Proof.
  intros Hp He. rewrite fetch_page_unfold. cbv zeta.
  set (url := Public.page_url channel before).
  assert (P1 : forall o, paced (tr ++ [Public.EvGet url o])) by (intros; now apply paced_call).
  destruct (srv tr url) as [|s body]; [apply P1|].
  destruct (s =? 429)%Z; [|apply P1].
  cbn [snd]. apply paced_call; [apply paced_sleep, P1|apply ends_with_get_snoc].
Qed.

Lemma scrape_pages_paced (srv : Public.server) (channel : str)
    (cutoff max_messages : Z) (pages : nat) :
  forall page all seen before tr,
  paced tr -> (page = 0 -> ends_with_call tr = false) ->
  paced (snd (Public.scrape_pages srv channel cutoff max_messages pages page
                all seen before tr)).
Proof.
  induction pages as [|pages IH]; intros page all seen before tr Hp He; [exact Hp|].
  simpl. unfold Public.bind.
  assert (Hw : paced (snd (Public.when (0 <? page) (Public.sleep Public.REQUEST_DELAY) tr)) /\
               ends_with_call (snd (Public.when (0 <? page)
                                     (Public.sleep Public.REQUEST_DELAY) tr)) = false).
  { destruct page as [|page]; simpl.
    - split; [exact Hp|now apply He].
    - split; [now apply paced_sleep|apply ends_with_get_snoc]. }
  destruct (Public.when _ _ tr) as [[] tr1]. simpl in Hw. destruct Hw as [Hp1 He1].
  pose proof (fetch_page_paced srv channel before tr1 Hp1 He1) as Hp2.
  destruct (Public.fetch_page srv channel before tr1) as [resp tr2]. simpl in Hp2.
  destruct resp as [html|]; [|exact Hp2].
  destruct (Public.parse_messages html cutoff) as [messages oldest].
  destruct (null messages && (page =? 0)); [exact Hp2|].
  destruct (Public.add_new messages all seen 0) as [[all' seen'] new_count].
  destruct (new_count =? 0); [exact Hp2|].
  destruct (max_messages <=? Z.of_nat (length all'))%Z; [exact Hp2|].
  destruct oldest as [o|]; [|exact Hp2].
  apply IH; [exact Hp2|discriminate].
Qed.

Lemma public_collect_loop_paced (srv : Public.server) (cutoff maxpc L : Z)
    (chans : list str) :
  forall i result total tr,
  paced tr -> (i = 0 -> ends_with_call tr = false) ->
  paced (snd (Public.collect_loop srv cutoff maxpc L i chans result total tr)).
Proof.
  induction chans as [|raw rest IH]; intros i result total tr Hp He; [exact Hp|].
  simpl. destruct (null (Public.channel_name raw)).
  { apply IH; [exact Hp|discriminate]. }
  unfold Public.bind.
  assert (Hw : paced (snd (Public.when (0 <? i) (Public.sleep Public.REQUEST_DELAY) tr)) /\
               ends_with_call (snd (Public.when (0 <? i)
                                     (Public.sleep Public.REQUEST_DELAY) tr)) = false).
  { destruct i as [|i]; simpl.
    - split; [exact Hp|now apply He].
    - split; [now apply paced_sleep|apply ends_with_get_snoc]. }
  destruct (Public.when _ _ tr) as [[] tr1]. simpl in Hw. destruct Hw as [Hp1 He1].
  assert (Hp2 : paced (snd (Public.scrape_channel srv (Public.channel_name raw)
                              cutoff maxpc tr1))).
  { unfold Public.scrape_channel, Public.bind, Public.ret.
    pose proof (scrape_pages_paced srv (Public.channel_name raw) cutoff maxpc
                  MAX_PAGES_PER_CHANNEL 0 [] [] None tr1 Hp1 (fun _ => He1)) as H.
    now destruct (Public.scrape_pages _ _ _ _ _ _ _ _ _ _). }
  destruct (Public.scrape_channel srv _ cutoff maxpc tr1) as [messages tr2].
  simpl in Hp2.
  destruct (Public.apply_budget L messages [] total) as [bm total'].
  destruct (total' >? L)%Z; [exact Hp2|].
  apply IH; [exact Hp2|discriminate].
Qed.

(** X5.  In a whole collection run no call of [client.get] directly
    follows another call: between any two calls the script makes (pages of
    one channel, a retry, or two channels) there is a pause.  This is about
    the calls of the script; a redirect is followed by the HTTP library
    inside one call, without a pause. *)
Theorem calls_are_paced (srv : Public.server) (now : Z) (cfg : config str) :
  paced (snd (Public.collect_messages srv now cfg [])).
Proof.
  unfold Public.collect_messages, Public.collect_state, Public.bind, Public.ret.
  pose proof (public_collect_loop_paced srv (cutoff_of now cfg)
                (get (maxMessagesPerChannel cfg) DEFAULT_MAX_MESSAGES_PER_CHANNEL)
                (token_limit_of cfg) (get (channels cfg) []) 0 [] 0%Z [] I
                (fun _ => eq_refl)) as H.
  now destruct (Public.collect_loop _ _ _ _ _ _ _ _ _).
Qed.

(** ** Message identities across pages *)

Lemma mem_id_in (id : Z) (seen : list Z) : Public.mem_id id seen = true <-> In id seen.
Proof.
  unfold Public.mem_id. rewrite existsb_exists. split.
  - intros (x & Hx & E). apply Z.eqb_eq in E. now subst.
  - intros H. exists id. split; [exact H|apply Z.eqb_refl].
Qed.

Lemma NoDup_snoc {A} (l : list A) (x : A) :
  NoDup l -> ~ In x l -> NoDup (l ++ [x]).
Proof.
  induction 1 as [|a l Ha Hl IH]; intros Hx; simpl.
  - constructor; [intros []|constructor].
  - constructor.
    + intros H. apply in_app_or in H. destruct H as [H|[H|[]]]; [contradiction|].
      apply Hx. now left.
    + apply IH. intros H. apply Hx. now right.
Qed.

Lemma add_new_ids (messages : list Public.msg) :
  forall all seen n,
  ids_seen all seen ->
  ids_seen (fst (fst (Public.add_new messages all seen n)))
           (snd (fst (Public.add_new messages all seen n))).
Proof.
  induction messages as [|m rest IH]; intros all seen n Hi; [exact Hi|].
  simpl. destruct (Public.mem_id (Public.msg_id m) seen) eqn:Hm; [now apply IH|].
  apply IH. destruct Hi as [Hnd Hseen]. split.
  - rewrite map_app. simpl. apply NoDup_snoc; [exact Hnd|].
    intros Hin. apply in_map_iff in Hin.
    destruct Hin as (m' & Eid & Hin'). specialize (Hseen m' Hin').
    rewrite Eid in Hseen. congruence.
  - intros x Hx. apply in_app_or in Hx. apply mem_id_in.
    destruct Hx as [Hx|[<-|[]]]; [right; now apply mem_id_in, Hseen|now left].
Qed.

Lemma scrape_pages_ids (srv : Public.server) (channel : str)
    (cutoff max_messages : Z) (pages : nat) :
  forall page all seen before tr,
  ids_seen all seen ->
  NoDup (map Public.msg_id
           (fst (Public.scrape_pages srv channel cutoff max_messages pages page
                   all seen before tr))).
Proof.
  induction pages as [|pages IH]; intros page all seen before tr Hi; [apply Hi|].
  simpl. unfold Public.bind.
  destruct (Public.when _ _ tr) as [[] tr1].
  destruct (Public.fetch_page srv channel before tr1) as [[html|] tr2]; [|apply Hi].
  destruct (Public.parse_messages html cutoff) as [messages oldest].
  destruct (null messages && (page =? 0)); [apply Hi|].
  pose proof (add_new_ids messages all seen 0 Hi) as Hi'.
  destruct (Public.add_new messages all seen 0) as [[all' seen'] new_count].
  simpl in Hi'.
  destruct (new_count =? 0); [apply Hi'|].
  destruct (max_messages <=? Z.of_nat (length all'))%Z; [apply Hi'|].
  destruct oldest as [o|]; [|apply Hi'].
  now apply IH.
Qed.

(** X6.  The messages a channel's pagination collects have pairwise
    distinct ids: a message that appears on several pages (pages overlap,
    or the server repeats itself) is taken once. *)
Theorem collected_ids_distinct (srv : Public.server) (channel : str)
    (cutoff max_messages : Z) (tr : Public.trace) :
  NoDup (map Public.msg_id
           (fst (Public.scrape_pages srv channel cutoff max_messages
                   MAX_PAGES_PER_CHANNEL 0 [] [] None tr))).
Proof.
  apply scrape_pages_ids. split; [constructor|intros m []].
Qed.

Example overlapping_pages :
  map Public.msg_id
    (fst (Public.scrape_pages overlapping (lit "a") 0 200
            MAX_PAGES_PER_CHANNEL 0 [] [] None [])) = [1; 2; 0]%Z.
Proof. vm_compute. reflexivity. Qed.

(** ** The per-channel cap *)

Lemma filter_clean_length (msgs : list Public.msg) :
  forall result seen,
  length (Public.filter_clean msgs result seen) <= length result + length msgs.
Proof.
  induction msgs as [|m rest IH]; intros result seen; simpl; [lia|].
  destruct (length (Public.msg_text m) <? MIN_MSG_LENGTH);
    [specialize (IH result seen); lia|].
  destruct (mem _ seen); [specialize (IH result seen); lia|].
  destruct (null (clean_text (Public.msg_text m))).
  - specialize (IH result (Public.text_key (Public.msg_text m) :: seen)). lia.
  - specialize (IH (result ++ [clean_text (Public.msg_text m)])
                  (Public.text_key (Public.msg_text m) :: seen)).
    rewrite length_app in IH. simpl in IH. lia.
Qed.

(** X7.  For a non-negative [max_messages], [scrape_channel] returns at
    most [max_messages] messages, however many the pages delivered. *)
Theorem scrape_channel_cap (srv : Public.server) (channel : str)
    (cutoff max_messages : Z) (tr : Public.trace) :
  (0 <= max_messages)%Z ->
  (Z.of_nat (length (fst (Public.scrape_channel srv channel cutoff max_messages tr)))
     <= max_messages)%Z.
Proof.
  intros Hmax. unfold Public.scrape_channel, Public.bind, Public.ret.
  destruct (Public.scrape_pages _ _ _ _ _ _ _ _ _ _) as [all tr']. simpl.
  pose proof (filter_clean_length (py_prefix max_messages (Public.sort_desc all)) [] [])
    as H. simpl in H.
  assert (Hp : length (py_prefix max_messages (Public.sort_desc all))
               <= Z.to_nat max_messages).
  { unfold py_prefix. destruct (Z.leb_spec 0 max_messages); [|lia].
    apply firstn_le_length. }
  lia.
Qed.

Lemma scrape_channel_cap_witness :
  (Z.of_nat (length (fst (Public.scrape_channel Scenario.srv (lit "a") 0 1 []))) <= 1)%Z.
Proof.
  apply scrape_channel_cap. lia.
Defined.

(** ** Sorting newest first *)

Lemma insert_desc_perm (m : Public.msg) (l : list Public.msg) :
  Permutation (m :: l) (Public.insert_desc m l).
Proof.
  induction l as [|x rest IH]; simpl; [apply Permutation_refl|].
  destruct (Public.msg_date m <? Public.msg_date x)%Z; [|apply Permutation_refl].
  eapply Permutation_trans; [apply perm_swap|]. now apply perm_skip.
Qed.

Lemma insert_desc_sorted (m : Public.msg) (l : list Public.msg) :
  StronglySorted newer_first l -> StronglySorted newer_first (Public.insert_desc m l).
Proof.
  induction 1 as [|x rest Hs IH Hx]; simpl.
  - constructor; [constructor|constructor].
  - destruct (Z.ltb_spec (Public.msg_date m) (Public.msg_date x)) as [Hlt|Hge].
    + constructor; [exact IH|].
      apply Forall_forall. intros y Hy. apply insert_desc_in in Hy.
      destruct Hy as [->|Hy]; [unfold newer_first; lia|].
      rewrite Forall_forall in Hx. now apply Hx.
    + constructor; [now constructor|].
      constructor; [exact Hge|].
      apply Forall_forall. intros y Hy. rewrite Forall_forall in Hx.
      specialize (Hx y Hy). unfold newer_first in *. lia.
Qed.

Lemma insert_desc_stable (d : Z) (m : Public.msg) (l : list Public.msg) :
  at_instant d (Public.insert_desc m l) = at_instant d (m :: l).
Proof.
  unfold at_instant. induction l as [|x rest IH]; [reflexivity|].
  simpl in *. destruct (Z.ltb_spec (Public.msg_date m) (Public.msg_date x)) as [Hlt|Hge];
    [|reflexivity].
  simpl. rewrite IH.
  destruct (Z.eqb_spec (Public.msg_date m) d) as [Em|Em]; [|reflexivity].
  destruct (Z.eqb_spec (Public.msg_date x) d) as [Ex|Ex]; [lia|reflexivity].
Qed.

(** X8.  The sort of [scrape_channel] returns the same messages, newest
    first, and is stable: messages of the same instant keep the order in
    which the pages delivered them. *)
Theorem sort_desc_sorted_stable (l : list Public.msg) :
  Permutation l (Public.sort_desc l) /\
  StronglySorted newer_first (Public.sort_desc l) /\
  (forall d, at_instant d (Public.sort_desc l) = at_instant d l).
Proof.
  induction l as [|m rest (Hp & Hs & Hst)]; simpl.
  - split; [constructor|]. split; [constructor|reflexivity].
  - split; [|split].
    + eapply Permutation_trans; [apply perm_skip, Hp|apply insert_desc_perm].
    + now apply insert_desc_sorted.
    + intros d. rewrite insert_desc_stable. unfold at_instant in *. simpl.
      now rewrite Hst.
Qed.

Lemma sorted_app_order (a b : list Public.msg) :
  StronglySorted newer_first (a ++ b) ->
  forall x y, In x a -> In y b -> newer_first x y.
Proof.
  induction a as [|c a IH]; intros Hs x y Hx Hy; [destruct Hx|].
  simpl in Hs. inversion Hs as [|? ? Hs' Hc]; subst.
  destruct Hx as [<-|Hx]; [|now apply IH].
  rewrite Forall_forall in Hc. apply Hc. apply in_or_app. now right.
Qed.

(** X9.  When a channel has more messages than the cap, the cut
    [all_messages[:max_messages]] after the sort keeps the newest: no
    message that is cut off is newer than a message that is kept. *)
Theorem cap_keeps_newest (l : list Public.msg) (max_messages : Z)
    (x y : Public.msg) :
  (0 <= max_messages)%Z ->
  In x (py_prefix max_messages (Public.sort_desc l)) ->
  In y (skipn (Z.to_nat max_messages) (Public.sort_desc l)) ->
  (Public.msg_date y <= Public.msg_date x)%Z.
Proof.
  intros Hmax Hx Hy. unfold py_prefix in Hx.
  destruct (Z.leb_spec 0 max_messages); [|lia].
  destruct (sort_desc_sorted_stable l) as (_ & Hs & _).
  rewrite <- (firstn_skipn (Z.to_nat max_messages) (Public.sort_desc l)) in Hs.
  exact (sorted_app_order _ _ Hs x y Hx Hy).
Qed.

Lemma cap_keeps_newest_witness :
  (Public.msg_date (dated 1 5) <= Public.msg_date (dated 3 9))%Z.
Proof.
  apply (cap_keeps_newest [dated 1 5; dated 2 7; dated 3 9] 2).
  - lia.
  - vm_compute. left. reflexivity.
  - vm_compute. left. reflexivity.
Defined.

(** ** Distinct keys in a channel's list *)

Lemma mem_cons_false (k k0 : str) (seen : list str) :
  mem k (k0 :: seen) = false -> k0 <> k /\ mem k seen = false.
Proof.
  simpl. intros H. apply orb_false_iff in H. destruct H as [H1 H2].
  split; [|exact H2]. intros ->. now rewrite str_eqb_refl in H1.
Qed.

Lemma subsequence_nil {A : Type} (l : list A) : subsequence [] l.
Proof. induction l; now constructor. Qed.

Lemma filter_clean_kept (msgs : list Public.msg) :
  forall result seen,
  exists kept,
    Public.filter_clean msgs result seen =
      result ++ map (fun m => clean_text (Public.msg_text m)) kept /\
    subsequence kept msgs /\
    NoDup (map (fun m => Public.text_key (Public.msg_text m)) kept) /\
    (forall m, In m kept ->
       mem (Public.text_key (Public.msg_text m)) seen = false).
Proof.
  induction msgs as [|m rest IH]; intros result seen.
  - exists []. simpl. rewrite app_nil_r. split; [reflexivity|].
    split; [constructor|]. split; [constructor|intros ? []].
  - assert (Skip : forall s,
      (forall k, mem k s = false -> mem k seen = false) ->
      exists kept,
        Public.filter_clean rest result s =
          result ++ map (fun m => clean_text (Public.msg_text m)) kept /\
        subsequence kept (m :: rest) /\
        NoDup (map (fun m => Public.text_key (Public.msg_text m)) kept) /\
        (forall m0, In m0 kept ->
           mem (Public.text_key (Public.msg_text m0)) seen = false)).
    { intros s Hs. destruct (IH result s) as (kept & E & Hsub & Hnd & Hin).
      exists kept. split; [exact E|]. split; [now constructor|]. split; [exact Hnd|].
      intros m0 H0. apply Hs. now apply Hin. }
    simpl.
    destruct (length (Public.msg_text m) <? MIN_MSG_LENGTH); [now apply Skip|].
    destruct (mem (Public.text_key (Public.msg_text m)) seen) eqn:Hm; [now apply Skip|].
    destruct (null (clean_text (Public.msg_text m))).
    + apply Skip. intros k Hk. now apply mem_cons_false in Hk.
    + destruct (IH (result ++ [clean_text (Public.msg_text m)])
                  (Public.text_key (Public.msg_text m) :: seen))
        as (kept & E & Hsub & Hnd & Hin).
      exists (m :: kept). split; [|split; [|split]].
      * rewrite E. simpl. now rewrite <- app_assoc.
      * now constructor.
      * simpl. constructor; [|exact Hnd].
        intros H. apply in_map_iff in H. destruct H as (m' & Ek & Hm').
        pose proof (Hin m' Hm') as Hk. apply mem_cons_false in Hk.
        destruct Hk as [Hne _]. congruence.
      * intros m0 [<-|H0]; [exact Hm|].
        pose proof (Hin m0 H0) as H2. apply mem_cons_false in H2. apply H2.
Qed.

Lemma channel_loop_kept (cutoff L : Z) (msgs : list Client.message) :
  forall acc seen total,
  exists kept texts,
    fst (Client.channel_loop cutoff L msgs acc seen total) = acc ++ map clean_text texts /\
    subsequence kept msgs /\
    map Client.extract_text kept = map Some texts /\
    NoDup (map Client.text_key texts) /\
    (forall t, In t texts -> mem (Client.text_key t) seen = false).
Proof.
  induction msgs as [|m rest IH]; intros acc seen total.
  - exists [], []. simpl. rewrite app_nil_r. split; [reflexivity|].
    split; [constructor|]. split; [reflexivity|]. split; [constructor|intros ? []].
  - assert (Stop : exists kept texts,
        fst (acc, total) = acc ++ map clean_text texts /\
        subsequence kept (m :: rest) /\
        map Client.extract_text kept = map Some texts /\
        NoDup (map Client.text_key texts) /\
        (forall t, In t texts -> mem (Client.text_key t) seen = false)).
    { exists [], []. simpl. rewrite app_nil_r. split; [reflexivity|].
      split; [apply subsequence_nil|]. split; [reflexivity|].
      split; [constructor|intros ? []]. }
    assert (Skip : forall s,
      (forall k, mem k s = false -> mem k seen = false) ->
      exists kept texts,
        fst (Client.channel_loop cutoff L rest acc s total) = acc ++ map clean_text texts /\
        subsequence kept (m :: rest) /\
        map Client.extract_text kept = map Some texts /\
        NoDup (map Client.text_key texts) /\
        (forall t, In t texts -> mem (Client.text_key t) seen = false)).
    { intros s Hs. destruct (IH acc s total) as (kept & texts & E & Hsub & Hx & Hnd & Hin).
      exists kept, texts. split; [exact E|]. split; [now constructor|].
      split; [exact Hx|]. split; [exact Hnd|].
      intros t Ht. apply Hs. now apply Hin. }
    simpl.
    destruct (Client.m_date m <? cutoff)%Z; [exact Stop|].
    destruct (Client.is_noise m); [now apply Skip|].
    destruct (Client.extract_text m) as [text|] eqn:Hx; [|now apply Skip].
    destruct (null text); [now apply Skip|].
    destruct (length text <? MIN_MSG_LENGTH); [now apply Skip|].
    destruct (mem (Client.text_key text) seen) eqn:Hm; [now apply Skip|].
    destruct (null (clean_text text)).
    + apply Skip. intros k Hk. now apply mem_cons_false in Hk.
    + destruct (total + len (clean_text text) >? L)%Z; [exact Stop|].
      destruct (IH (acc ++ [clean_text text]) (Client.text_key text :: seen)
                  (total + len (clean_text text))%Z)
        as (kept & texts & E & Hsub & Hxs & Hnd & Hin).
      exists (m :: kept), (text :: texts). split; [|split; [|split; [|split]]].
      * rewrite E. simpl. now rewrite <- app_assoc.
      * now constructor.
      * simpl. now rewrite Hx, Hxs.
      * simpl. constructor; [|exact Hnd].
        intros H. apply in_map_iff in H. destruct H as (t' & Ek & Ht').
        pose proof (Hin t' Ht') as Hk. apply mem_cons_false in Hk.
        destruct Hk as [Hne _]. congruence.
      * intros t [<-|Ht]; [exact Hm|].
        pose proof (Hin t Ht) as H3. apply mem_cons_false in H3. apply H3.
Qed.

(** X10.  The list of a channel is made, in order, from messages of the
    loop's input whose texts have pairwise distinct dedup keys.  Scrape
    variant: the list is the cleaned texts of a subsequence of the input
    (messages left out, the order kept), and the [text_key]s of that
    subsequence are all different.  Client variant: the list is the
    cleaned texts of the texts extracted from a subsequence of the input,
    and the [text_key]s of those texts are all different. *)
Theorem digest_keys_distinct :
  (forall msgs : list Public.msg,
     exists kept,
       subsequence kept msgs /\
       Public.filter_clean msgs [] [] =
         map (fun m => clean_text (Public.msg_text m)) kept /\
       NoDup (map (fun m => Public.text_key (Public.msg_text m)) kept)) /\
  (forall (cutoff L : Z) (msgs : list Client.message) (total : Z),
     exists kept texts,
       subsequence kept msgs /\
       map Client.extract_text kept = map Some texts /\
       fst (Client.channel_loop cutoff L msgs [] [] total) = map clean_text texts /\
       NoDup (map Client.text_key texts)).
Proof.
  split.
  - intros msgs.
    destruct (filter_clean_kept msgs [] []) as (kept & E & Hsub & Hnd & _).
    exists kept. auto.
  - intros cutoff L msgs total.
    destruct (channel_loop_kept cutoff L msgs [] [] total)
      as (kept & texts & E & Hsub & Hx & Hnd & _).
    exists kept, texts. auto.
Qed.

(** ** The greedy budget *)

Lemma apply_budget_greedy_from (L : Z) (messages : list str) :
  forall acc total,
  exists kept dropped,
    messages = kept ++ dropped /\
    Public.apply_budget L messages acc total = (acc ++ kept, (total + chars kept)%Z) /\
    match dropped with
    | [] => True
    | m :: _ => (L < total + chars kept + len m)%Z
    end.
Proof.
  induction messages as [|m rest IH]; intros acc total.
  - exists [], []. simpl. rewrite app_nil_r, Z.add_0_r. auto.
  - simpl. destruct (Z.gtb_spec (total + len m) L) as [Hgt|Hle].
    + exists [], (m :: rest). simpl. rewrite app_nil_r, Z.add_0_r.
      repeat split; auto.
    + destruct (IH (acc ++ [m]) (total + len m)%Z) as (kept & dropped & -> & E & Hd).
      exists (m :: kept), dropped. simpl. rewrite E, <- app_assoc. simpl.
      rewrite Z.add_assoc. repeat split; auto.
Qed.

(** X11.  The budget loop of the scrape variant accepts the longest
    prefix of the channel's messages that fits: the accepted messages are a
    prefix, the total grows by exactly their characters, and the first
    message left out, if there is one, would have passed the ceiling.
    Messages after it are left out even if they would have fitted. *)
Theorem apply_budget_greedy (L : Z) (messages : list str) (total : Z) :
  let out := Public.apply_budget L messages [] total in
  exists dropped,
    messages = fst out ++ dropped /\
    snd out = (total + chars (fst out))%Z /\
    match dropped with
    | [] => True
    | m :: _ => (L < snd out + len m)%Z
    end.
Proof.
  destruct (apply_budget_greedy_from L messages [] total) as (kept & dropped & E & Eb & Hd).
  cbv zeta. rewrite Eb. simpl. exists dropped. auto.
Qed.

Example budget_is_order_sensitive :
  Public.apply_budget 50 [Scenario.x30; Scenario.y30; Scenario.z20] [] 0 =
    ([Scenario.x30], 30%Z).
Proof. vm_compute. reflexivity. Qed.

(** ** The result mapping *)

Lemma dict_get_none (k : str) (d : dict) :
  dict_get k d = None <-> ~ In k (map fst d).
Proof.
  induction d as [|[k' v'] rest IH]; simpl; [tauto|].
  destruct (str_eqb k' k) eqn:E.
  - apply str_eqb_eq in E. subst. split; [discriminate|]. intros H. elim H. now left.
  - rewrite IH. split.
    + intros H [Hk|Hk]; [|contradiction]. subst. now rewrite str_eqb_refl in E.
    + tauto.
Qed.

Lemma dict_set_new_keys (k : str) (v : list str) (d : dict) :
  dict_get k d = None -> map fst (dict_set k v d) = map fst d ++ [k].
Proof.
  induction d as [|[k' v'] rest IH]; simpl; [reflexivity|].
  destruct (str_eqb k' k); [discriminate|]. intros H. simpl. now rewrite IH.
Qed.

Lemma dict_set_nodup (k : str) (v : list str) (d : dict) :
  NoDup (map fst d) -> NoDup (map fst (dict_set k v d)).
Proof.
  intros H. destruct (dict_get k d) as [old|] eqn:E.
  - now rewrite (dict_set_keys k v old d E).
  - rewrite (dict_set_new_keys k v d E). apply NoDup_snoc; [exact H|].
    now apply dict_get_none.
Qed.

Lemma well_formed_store (names : list str) (result : dict) (k : str) (v : list str) :
  well_formed_result names result -> In k names ->
  well_formed_result names (if null v then result else dict_set k v result).
Proof.
  intros [Hnd Hin] Hk. destruct v as [|m v']; [split; assumption|]. simpl null. cbv iota.
  split; [now apply dict_set_nodup|].
  intros k' v0 H. destruct (dict_set_in _ _ _ _ _ H) as [E|H']; [|now apply Hin].
  inversion E; subst. split; [discriminate|exact Hk].
Qed.

Lemma public_collect_loop_well_formed (srv : Public.server) (cutoff maxpc L : Z)
    (names : list str) (chans : list str) :
  (forall n, In n (public_names chans) -> In n names) ->
  forall i result total tr,
  well_formed_result names result ->
  well_formed_result names
    (fst (fst (Public.collect_loop srv cutoff maxpc L i chans result total tr))).
Proof.
  induction chans as [|raw rest IH]; intros Hn i result total tr Hw; [exact Hw|].
  unfold public_names in Hn. simpl in Hn. simpl.
  destruct (null (Public.channel_name raw)) eqn:En; simpl in Hn.
  { now apply IH. }
  unfold Public.bind.
  destruct (Public.when _ _ tr) as [[] tr1].
  destruct (Public.scrape_channel srv _ cutoff maxpc tr1) as [messages tr2].
  destruct (Public.apply_budget L messages [] total) as [bm total'].
  assert (Hw' : well_formed_result names
                  (if null bm then result
                   else dict_set (Public.channel_name raw) bm result)).
  { apply well_formed_store; [exact Hw|]. apply Hn. now left. }
  destruct (total' >? L)%Z; [exact Hw'|].
  apply IH; [|exact Hw']. intros n H. apply Hn. now right.
Qed.

Lemma client_collect_loop_well_formed (client : Client.tg_client) (cutoff maxpc L : Z)
    (names : list str) (chans : list Client.channel_id) :
  (forall n, In n (client_names client chans) -> In n names) ->
  forall result total,
  well_formed_result names result ->
  well_formed_result names
    (fst (Client.collect_loop client cutoff maxpc L chans result total)).
Proof.
  induction chans as [|c rest IH]; intros Hn result total Hw; [exact Hw|].
  simpl in Hn. simpl.
  destruct (Client.get_entity client c) as [e|]; [|now apply IH].
  destruct (Client.channel_loop cutoff L _ [] [] total) as [ms total'].
  assert (Hw' : well_formed_result names
                  (if null ms then result
                   else dict_set (Client.channel_name_of e c) ms result)).
  { apply well_formed_store; [exact Hw|]. apply Hn. now left. }
  destruct (total' >? L)%Z; [exact Hw'|].
  apply IH; [|exact Hw']. intros n H. apply Hn. now right.
Qed.

(** X12.  The mapping [collect_messages] returns has no empty list and no
    key twice, and every key is the name of a configured channel: in the
    scrape variant a non-empty [raw_channel.lstrip("@").strip()], in the
    client variant the display name of a channel that could be resolved.  A
    channel with no accepted message has no entry. *)
Theorem result_well_formed :
  (forall (srv : Public.server) (now : Z) (cfg : config str) (tr : Public.trace),
     well_formed_result (public_names (get (channels cfg) []))
       (fst (Public.collect_messages srv now cfg tr)) /\
     forall n, In n (public_names (get (channels cfg) [])) -> n <> []) /\
  (forall (client : Client.tg_client) (now : Z) (cfg : config Client.channel_id),
     well_formed_result (client_names client (get (channels cfg) []))
       (Client.collect_messages client now cfg)).
Proof.
  assert (Empty : forall names, well_formed_result names []).
  { intros names. split; [constructor|intros ? ? []]. }
  split.
  - intros srv now cfg tr. split.
    + unfold Public.collect_messages, Public.collect_state, Public.bind, Public.ret.
      pose proof (public_collect_loop_well_formed srv (cutoff_of now cfg)
                    (get (maxMessagesPerChannel cfg) DEFAULT_MAX_MESSAGES_PER_CHANNEL)
                    (token_limit_of cfg) (public_names (get (channels cfg) []))
                    (get (channels cfg) []) (fun n H => H) 0 [] 0%Z tr (Empty _)) as H.
      now destruct (Public.collect_loop _ _ _ _ _ _ _ _ _) as [[r t] tr'].
    + intros n Hn. unfold public_names in Hn. apply filter_In in Hn.
      destruct Hn as [_ Hn]. intros ->. discriminate.
  - intros client now cfg. unfold Client.collect_messages, Client.collect_state.
    apply client_collect_loop_well_formed; [auto|apply Empty].
Qed.

Lemma result_well_formed_witness :
  well_formed_result [lit "a"; lit "b"]
    (fst (Public.collect_messages Scenario.srv 0
            (Scenario.config_of [lit "a"; lit "@b"] 100) [])) /\
  lit "b" <> [].
Proof.
  destruct result_well_formed as [HP _].
  destruct (HP Scenario.srv 0%Z (Scenario.config_of [lit "a"; lit "@b"] 100) [])
    as [Hw Hn].
  split; [exact Hw|]. apply Hn. vm_compute. right. left. reflexivity.
Defined.

(** ** Exact accounting when no two channels share a key *)

Lemma store_fresh (k : str) (v : list str) (result : dict) :
  dict_get k result = None ->
  dict_chars (if null v then result else dict_set k v result)
    = (dict_chars result + chars v)%Z /\
  forall k', k' <> k -> dict_get k' result = None ->
  dict_get k' (if null v then result else dict_set k v result) = None.
Proof.
  intros Hk. split.
  - destruct v as [|m v']; [simpl; lia|]. simpl null. cbv iota.
    rewrite dict_chars_set, Hk. lia.
  - intros k' Hne Hk'. destruct (null v); [exact Hk'|].
    now rewrite dict_get_set_other.
Qed.

Lemma public_collect_loop_exact (srv : Public.server) (cutoff maxpc L : Z)
    (chans : list str) :
  forall i result total tr,
  NoDup (public_names chans) ->
  (forall k, In k (public_names chans) -> dict_get k result = None) ->
  dict_chars result = total ->
  let st := fst (Public.collect_loop srv cutoff maxpc L i chans result total tr) in
  dict_chars (fst st) = snd st.
Proof.
  induction chans as [|raw rest IH]; intros i result total tr Hnd Hfresh Heq st;
    subst st; [exact Heq|].
  unfold public_names in Hnd, Hfresh. simpl in Hnd, Hfresh. simpl.
  destruct (null (Public.channel_name raw)) eqn:En; simpl in Hnd, Hfresh.
  { now apply IH. }
  unfold Public.bind.
  destruct (Public.when _ _ tr) as [[] tr1].
  destruct (Public.scrape_channel srv _ cutoff maxpc tr1) as [messages tr2].
  destruct (Public.apply_budget L messages [] total) as [bm total'] eqn:E.
  destruct (apply_budget_spec _ _ _ _ _ _ E) as (kept & dropped & _ & -> & -> & _).
  simpl app. inversion Hnd as [|? ? Hnotin Hnd']; subst.
  destruct (store_fresh (Public.channel_name raw) kept result) as [Hc Ho].
  { apply Hfresh. now left. }
  destruct (dict_chars result + chars kept >? L)%Z; [exact Hc|].
  apply IH; [exact Hnd'| |exact Hc].
  intros k Hk. apply Ho.
  - intros ->. contradiction.
  - apply Hfresh. now right.
Qed.

Lemma client_collect_loop_exact (client : Client.tg_client) (cutoff maxpc L : Z)
    (chans : list Client.channel_id) :
  forall result total,
  NoDup (client_names client chans) ->
  (forall k, In k (client_names client chans) -> dict_get k result = None) ->
  dict_chars result = total ->
  let st := Client.collect_loop client cutoff maxpc L chans result total in
  dict_chars (fst st) = snd st.
Proof.
  induction chans as [|c rest IH]; intros result total Hnd Hfresh Heq st;
    subst st; [exact Heq|].
  simpl in Hnd, Hfresh. simpl.
  destruct (Client.get_entity client c) as [e|]; [|now apply IH].
  destruct (Client.channel_loop cutoff L _ [] [] total) as [ms total'] eqn:E.
  destruct (channel_loop_spec _ _ _ _ _ _ _ _ E) as (kept & -> & -> & _).
  simpl app. inversion Hnd as [|? ? Hnotin Hnd']; subst.
  destruct (store_fresh (Client.channel_name_of e c) kept result) as [Hc Ho].
  { apply Hfresh. now left. }
  destruct (dict_chars result + chars kept >? L)%Z; [exact Hc|].
  apply IH; [exact Hnd'| |exact Hc].
  intros k Hk. apply Ho.
  - intros ->. contradiction.
  - apply Hfresh. now right.
Qed.

(** X13.  When no two configured channels share a result key, the running
    total at the end of collection is exactly the number of characters
    stored in the result: nothing is counted that is not kept. *)
Theorem total_is_exact_without_collisions :
  (forall (srv : Public.server) (now : Z) (cfg : config str) (tr : Public.trace),
     NoDup (public_names (get (channels cfg) [])) ->
     let st := fst (Public.collect_state srv now cfg tr) in
     dict_chars (fst st) = snd st) /\
  (forall (client : Client.tg_client) (now : Z) (cfg : config Client.channel_id),
     NoDup (client_names client (get (channels cfg) [])) ->
     let st := Client.collect_state client now cfg in
     dict_chars (fst st) = snd st).
Proof.
  split.
  - intros srv now cfg tr Hnd. unfold Public.collect_state.
    now apply public_collect_loop_exact.
  - intros client now cfg Hnd. unfold Client.collect_state.
    now apply client_collect_loop_exact.
Qed.

Lemma total_is_exact_without_collisions_witness :
  (let st := fst (Public.collect_state Scenario.srv 0
                    (Scenario.config_of [lit "a"; lit "@b"] 100) []) in
   dict_chars (fst st) = snd st) /\
  (let st := Client.collect_state Scenario.client 0
               (Scenario.config_of
                  [Client.ChanName (lit "a"); Client.ChanName (lit "b")] 100) in
   dict_chars (fst st) = snd st).
Proof.
  destruct total_is_exact_without_collisions as [HP HC].
  split.
  - apply HP. vm_compute.
    constructor; [intros [H|[]]; discriminate H|].
    constructor; [intros []|constructor].
  - apply HC. vm_compute.
    constructor; [intros [H|[]]; discriminate H|].
    constructor; [intros []|constructor].
Defined.

(** ** The prompt content *)

Lemma section_of_lines (channel : str) (messages : list str) :
  section_of channel messages
  = (lit "## " ++ channel ++ [NL])
    ++ concat (map (fun msg => lit "- " ++ msg ++ [NL]) messages).
Proof.
  unfold section_of. generalize (lit "## " ++ channel ++ [NL]) as acc.
  induction messages as [|m rest IH]; intros acc; cbn [fold_left map concat].
  - now rewrite app_nil_r.
  - rewrite IH. now rewrite <- !app_assoc.
Qed.

Lemma join_split (sep x : str) (a b : list str) :
  join sep (a ++ x :: b)
  = (join sep a ++ (if null a then [] else sep))
    ++ x ++ ((if null b then [] else sep) ++ join sep b).
Proof.
  induction a as [|p rest IH].
  - cbn [app join null]. destruct b as [|q b'].
    + cbn [join null]. now rewrite !app_nil_r.
    + reflexivity.
  - destruct rest as [|q rest'].
    + change (join sep ([p] ++ x :: b)) with (p ++ sep ++ join sep (x :: b)).
      change (join sep [p]) with p. cbn [null].
      destruct b as [|q b'].
      * cbn [join null app]. rewrite app_nil_r. now rewrite <- app_assoc.
      * cbn [null]. change (join sep (x :: q :: b')) with (x ++ sep ++ join sep (q :: b')).
        now rewrite <- !app_assoc.
    + change (join sep ((p :: q :: rest') ++ x :: b))
        with (p ++ sep ++ join sep ((q :: rest') ++ x :: b)).
      rewrite IH.
      change (join sep (p :: q :: rest')) with (p ++ sep ++ join sep (q :: rest')).
      cbn [null]. rewrite <- !app_assoc. reflexivity.
Qed.

(** X14.  [format_for_llm] lays the mapping out entry by entry, in order,
    and every stored message stands under the heading of its own channel.
    For the entry of channel [k] at any place of the mapping and any
    message [m] of its list, the content is exactly: the content of the
    entries before it (and a newline, if there are any), the line ["## k"],
    one line ["- msg"] for each message of the list before [m], the line
    ["- m"], one line for each message after [m], and (after a newline, if
    there are any) the content of the entries after it. *)
Theorem format_for_llm_shows_every_message
    (d1 d2 : dict) (k : str) (before after : list str) (m : str) :
  format_for_llm (d1 ++ (k, before ++ m :: after) :: d2)
  = (format_for_llm d1 ++ (if null d1 then [] else [NL]))
    ++ (lit "## " ++ k ++ [NL])
    ++ concat (map (fun msg => lit "- " ++ msg ++ [NL]) before)
    ++ (lit "- " ++ m ++ [NL])
    ++ concat (map (fun msg => lit "- " ++ msg ++ [NL]) after)
    ++ ((if null d2 then [] else [NL]) ++ format_for_llm d2).
Proof.
  unfold format_for_llm. rewrite map_app. cbn [map fst snd].
  rewrite join_split, section_of_lines.
  rewrite map_app, concat_app. cbn [map concat].
  assert (N1 : null (map (fun kv : str * list str => section_of (fst kv) (snd kv)) d1)
               = null d1) by now destruct d1.
  assert (N2 : null (map (fun kv : str * list str => section_of (fst kv) (snd kv)) d2)
               = null d2) by now destruct d2.
  rewrite N1, N2. now rewrite <- !app_assoc.
Qed.

(** Two channels, laid out. *)
Example format_for_llm_two_channels :
  format_for_llm [(lit "a", [lit "x"; lit "y"]); (lit "b", [lit "z"])]
  = lit "## a" ++ [NL] ++ lit "- x" ++ [NL] ++ lit "- y" ++ [NL] ++ [NL]
    ++ lit "## b" ++ [NL] ++ lit "- z" ++ [NL].
Proof. vm_compute. reflexivity. Qed.

Lemma len_app (a b : str) : len (a ++ b) = (len a + len b)%Z.
Proof. unfold len. rewrite length_app. lia. Qed.

Lemma section_of_len (channel : str) (messages : list str) :
  len (section_of channel messages)
  = (len channel + 4 + chars messages + 3 * Z.of_nat (length messages))%Z.
Proof.
  rewrite section_of_lines, len_app.
  assert (H : len (concat (map (fun msg => lit "- " ++ msg ++ [NL]) messages))
              = (chars messages + 3 * Z.of_nat (length messages))%Z).
  { induction messages as [|m rest IH]; [reflexivity|].
    cbn [map concat chars fold_right length]. fold (chars rest).
    rewrite len_app, IH, !len_app.
    change (len (lit "- ")) with 2%Z. change (len [NL]) with 1%Z. lia. }
  rewrite H, !len_app. change (len (lit "## ")) with 3%Z. change (len [NL]) with 1%Z. lia.
Qed.

(** X15.  The size of the content sent for summarisation: the stored
    characters, three more characters per message, the channel name and
    five more characters per channel, less the separator that the last
    section does not get.  The character budget bounds the first term
    only. *)
Theorem format_for_llm_length (d : dict) :
  len (format_for_llm d)
  = (dict_chars d + 3 * total_messages d + keys_chars d
     + 5 * Z.of_nat (length d) - (if null d then 0 else 1))%Z.
Proof.
  induction d as [|[k ms] rest IH]; [reflexivity|].
  change (dict_chars ((k, ms) :: rest)) with (chars ms + dict_chars rest)%Z.
  change (total_messages ((k, ms) :: rest))
    with (Z.of_nat (length ms) + total_messages rest)%Z.
  change (keys_chars ((k, ms) :: rest)) with (len k + keys_chars rest)%Z.
  change (null ((k, ms) :: rest)) with false. cbv iota.
  change (length ((k, ms) :: rest)) with (S (length rest)).
  destruct rest as [|kv rest'].
  - change (format_for_llm [(k, ms)]) with (section_of k ms).
    rewrite section_of_len. change (dict_chars []) with 0%Z.
    change (total_messages []) with 0%Z. change (keys_chars []) with 0%Z.
    change (length (@nil (str * list str))) with 0. lia.
  - change (format_for_llm ((k, ms) :: kv :: rest'))
      with (section_of k ms ++ [NL] ++ format_for_llm (kv :: rest')).
    rewrite !len_app, IH, section_of_len. change (len [NL]) with 1%Z.
    change (null (kv :: rest')) with false. cbv iota. lia.
Qed.

(** ** Where chunks end *)

Lemma split_on_no_sep (sep : ascii) (s : str) :
  Forall (fun l => ~ In sep l) (split_on sep s).
Proof.
  induction s as [|c t IH]; simpl.
  - constructor; [intros []|constructor].
  - destruct (Ascii.eqb c sep) eqn:E.
    + constructor; [intros []|exact IH].
    + destruct (split_on sep t) as [|l ls]; [constructor; [|constructor]|].
      * intros [H|[]]. subst. now rewrite Ascii.eqb_refl in E.
      * inversion IH as [|? ? Hl Hls]; subst. constructor; [|exact Hls].
        intros [H|H]; [|now apply Hl]. subst. now rewrite Ascii.eqb_refl in E.
Qed.

Lemma split_on_app_sep (sep : ascii) (a b : str) :
  ~ In sep a -> split_on sep (a ++ sep :: b) = a :: split_on sep b.
Proof.
  induction a as [|c t IH]; intros H; simpl.
  - now rewrite Ascii.eqb_refl.
  - destruct (Ascii.eqb c sep) eqn:E.
    + apply Ascii.eqb_eq in E. subst. elim H. now left.
    + rewrite IH; [reflexivity|]. intros Hin. apply H. now right.
Qed.

Lemma first_line_app (a b : str) : In NL a -> first_line (a ++ b) = first_line a.
Proof.
  induction a as [|c t IH]; intros H; [destruct H|].
  unfold first_line in *. cbn [app split_on].
  destruct (Ascii.eqb c NL) eqn:E; [reflexivity|].
  assert (Hin : In NL t).
  { destruct H as [H|H]; [|exact H]. subst c. now rewrite Ascii.eqb_refl in E. }
  specialize (IH Hin).
  pose proof (split_on_nonempty NL (t ++ b)) as N1.
  pose proof (split_on_nonempty NL t) as N2.
  destruct (split_on NL (t ++ b)) as [|x xs]; [congruence|].
  destruct (split_on NL t) as [|y ys]; [congruence|].
  cbn [hd] in *. now rewrite IH.
Qed.

Lemma first_line_of_line (line rest : str) :
  ~ In NL line -> first_line (line ++ NL :: rest) = line.
Proof. intros H. unfold first_line. now rewrite split_on_app_sep. Qed.

Lemma packed_snoc (chunks : list str) (a b : str) :
  packed (chunks ++ [a]) ->
  (TG_MAX_MESSAGE_LENGTH < length a + length (first_line b) + 1)%nat ->
  packed ((chunks ++ [a]) ++ [b]).
Proof.
  induction chunks as [|c rest IH]; intros Hp Hab.
  - simpl. auto.
  - destruct rest as [|d rest'].
    + simpl in *. tauto.
    + change (packed (c :: (d :: rest') ++ [a])) in Hp.
      change (packed (c :: ((d :: rest') ++ [a]) ++ [b])).
      simpl in Hp |- *. destruct Hp as [H1 H2]. split; [exact H1|].
      apply IH; assumption.
Qed.

Lemma packed_last_grow (chunks : list str) (a more : str) :
  (chunks <> [] -> In NL a) ->
  packed (chunks ++ [a]) -> packed (chunks ++ [a ++ more]).
Proof.
  induction chunks as [|c rest IH]; intros Hnl Hp; [exact I|].
  destruct rest as [|d rest'].
  - simpl in *. split; [|exact I]. rewrite first_line_app; [tauto|].
    apply Hnl. discriminate.
  - change (packed (c :: (d :: rest') ++ [a])) in Hp.
    change (packed (c :: (d :: rest') ++ [a ++ more])).
    simpl in Hp |- *. destruct Hp as [H1 H2]. split; [exact H1|].
    apply IH; [|exact H2]. intros _. apply Hnl. discriminate.
Qed.

Lemma packed_prefix (chunks : list str) (a : str) :
  packed (chunks ++ [a]) -> packed chunks.
Proof.
  induction chunks as [|c rest IH]; intros Hp; [exact I|].
  destruct rest as [|d rest']; [exact I|].
  change (packed (c :: (d :: rest') ++ [a])) in Hp.
  simpl in Hp |- *. destruct Hp as [H1 H2]. split; [exact H1|]. now apply IH.
Qed.

Lemma chunk_lines_packed (lines : list str) :
  Forall (fun l => ~ In NL l) lines ->
  forall chunks current chunks' current',
  chunk_lines lines chunks current = (chunks', current') ->
  (chunks <> [] -> In NL current) ->
  packed (chunks ++ [current]) ->
  Forall ends_with_newline chunks -> ends_with_newline current ->
  packed (chunks' ++ [current']) /\
  Forall ends_with_newline chunks' /\ ends_with_newline current'.
Proof.
  induction 1 as [|line rest Hline Hrest IH];
    intros chunks current chunks' current' E Hnl Hp Hends Hend.
  - simpl in E. inversion E; subst. auto.
  - simpl in E.
    destruct (Nat.ltb_spec TG_MAX_MESSAGE_LENGTH (length current + length line + 1)).
    + apply IH in E; [exact E| | | |].
      * intros _. apply in_or_app. right. now left.
      * apply packed_snoc; [exact Hp|].
        change ([] ++ line ++ [NL]) with (line ++ NL :: []).
        now rewrite first_line_of_line.
      * apply Forall_app. split; [exact Hends|]. now constructor.
      * now exists line.
    + apply IH in E; [exact E| | | |].
      * intros Hne. apply in_or_app. left. now apply Hnl.
      * now apply packed_last_grow.
      * exact Hends.
      * exists (current ++ line). now rewrite <- app_assoc.
Qed.

(** X16.  When the summary does not fit one message, chunks end only at
    line ends and are filled greedily: every chunk ends in a newline (for a
    header that does, as both scripts' headers do), so no line of the
    summary is cut in two, and no chunk could have taken the first line of
    the chunk after it without exceeding 4096 characters. *)
Theorem chunks_break_at_line_ends (header text : str) :
  (TG_MAX_MESSAGE_LENGTH < length (header ++ text))%nat ->
  ends_with_newline header ->
  Forall ends_with_newline (send_to_telegram header text) /\
  packed (send_to_telegram header text).
Proof.
  intros Hlong Hhead. unfold send_to_telegram.
  destruct (Nat.leb_spec (length (header ++ text)) TG_MAX_MESSAGE_LENGTH); [lia|].
  destruct (chunk_lines (split_on NL text) [] header) as [chunks current] eqn:E.
  destruct (chunk_lines_packed (split_on NL text) (split_on_no_sep NL text)
              [] header chunks current E) as (Hp & Hends & Hend).
  - intros Hne. now elim Hne.
  - exact I.
  - constructor.
  - exact Hhead.
  - destruct (null (strip current)).
    + split; [exact Hends|]. now apply packed_prefix with current.
    + split; [|exact Hp]. apply Forall_app. split; [exact Hends|]. now constructor.
Qed.

Lemma chunks_break_at_line_ends_witness :
  Forall ends_with_newline (send_to_telegram chunk_header two_line_text) /\
  packed (send_to_telegram chunk_header two_line_text).
Proof.
  apply (chunks_break_at_line_ends chunk_header two_line_text).
  - apply Nat.ltb_lt. vm_compute. reflexivity.
  - exists (lit "<b>Public Channel Digest " ++ [EM_DASH] ++ lit " 2026-01-01</b>" ++ [NL]).
    vm_compute. reflexivity.
Defined.

(** ** The delivery loop *)

Lemma post_chunks_run (bot_api : list Pipeline.action -> str -> Pipeline.api_answer)
    (chunks : list str) :
  forall tr,
  exists sent rest,
    chunks = sent ++ rest /\
    snd (Pipeline.post_chunks bot_api chunks tr) = tr ++ map Pipeline.Posted sent /\
    match fst (Pipeline.post_chunks bot_api chunks tr) with
    | Pipeline.Val _ =>
        rest = [] /\
        forall pre c post, sent = pre ++ c :: post ->
          bot_api (tr ++ map Pipeline.Posted pre) c <> Pipeline.ApiError
    | Pipeline.Raise =>
        exists pre c, sent = pre ++ [c] /\
          bot_api (tr ++ map Pipeline.Posted pre) c = Pipeline.ApiError
    | Pipeline.Exit => False
    end.
Proof.
  induction chunks as [|chunk more IH]; intros tr.
  - exists [], []. simpl. rewrite app_nil_r. repeat split.
    intros pre c post H. now destruct pre.
  - simpl. destruct (bot_api tr chunk) eqn:A.
    1,2: destruct (IH (tr ++ [Pipeline.Posted chunk])) as (sent & rest & -> & Htr & Hr);
      exists (chunk :: sent), rest; split; [reflexivity|];
      split; [rewrite Htr; simpl; now rewrite <- app_assoc|];
      destruct (fst (Pipeline.post_chunks bot_api (sent ++ rest)
                       (tr ++ [Pipeline.Posted chunk])));
      [ destruct Hr as [-> Hr]; split; [reflexivity|];
        intros pre c post Hs; destruct pre as [|p pre'];
        [ simpl in *; inversion Hs; subst; rewrite app_nil_r; congruence
        | simpl in Hs; inversion Hs; subst;
          specialize (Hr pre' c post eq_refl);
          simpl; rewrite <- app_assoc in Hr; exact Hr ]
      | exact Hr
      | destruct Hr as (pre & c & -> & Hc); exists (chunk :: pre), c;
        split; [reflexivity|]; simpl; rewrite <- app_assoc in Hc; exact Hc ].
    exists [chunk], more. simpl. repeat split.
    exists [], chunk. simpl. rewrite app_nil_r. auto.
Qed.

(** X17.  The delivery loop posts the chunks in order and is stopped by an
    exception only: an answer that does not say [ok] is passed over and
    the next chunk is posted all the same.  So either every chunk was
    posted and none of the requests raised, or the posted chunks are a
    prefix that ends with the one whose request raised; the loop never
    ends the process.  In particular, against a Bot API whose requests
    never raise, every chunk is posted and the loop ends normally, whatever
    the answers say. *)
Theorem delivery_stops_only_on_exception
    (bot_api : list Pipeline.action -> str -> Pipeline.api_answer)
    (chunks : list str) (tr : list Pipeline.action) :
  (exists sent rest,
     chunks = sent ++ rest /\
     snd (Pipeline.post_chunks bot_api chunks tr) = tr ++ map Pipeline.Posted sent /\
     match fst (Pipeline.post_chunks bot_api chunks tr) with
     | Pipeline.Val _ =>
         rest = [] /\
         forall pre c post, sent = pre ++ c :: post ->
           bot_api (tr ++ map Pipeline.Posted pre) c <> Pipeline.ApiError
     | Pipeline.Raise =>
         exists pre c, sent = pre ++ [c] /\
           bot_api (tr ++ map Pipeline.Posted pre) c = Pipeline.ApiError
     | Pipeline.Exit => False
     end) /\
  ((forall tr' c, bot_api tr' c <> Pipeline.ApiError) ->
   Pipeline.post_chunks bot_api chunks tr
   = (Pipeline.Val tt, tr ++ map Pipeline.Posted chunks)).
Proof.
  split; [apply post_chunks_run|].
  intros Hnever.
  destruct (post_chunks_run bot_api chunks tr) as (sent & rest & E & Htr & Hr).
  destruct (Pipeline.post_chunks bot_api chunks tr) as [r tr'].
  cbn [fst snd] in Htr, Hr. subst tr'. destruct r as [[]| |].
  - destruct Hr as [-> _]. rewrite app_nil_r in E. now subst sent.
  - destruct Hr.
  - destruct Hr as (pre & c & _ & Hc). now apply Hnever in Hc.
Qed.

(** A Bot API that answers every request without [ok] still gets every
    chunk. *)
Lemma delivery_stops_only_on_exception_witness :
  Pipeline.post_chunks World.refusing [lit "one"; lit "two"] []
  = (Pipeline.Val tt, [Pipeline.Posted (lit "one"); Pipeline.Posted (lit "two")]).
Proof.
  apply (delivery_stops_only_on_exception World.refusing [lit "one"; lit "two"] []).
  intros tr' c. discriminate.
Defined.

(** ** Observations of a run *)

Lemma prompts_app a b : prompts (a ++ b) = prompts a ++ prompts b.
Proof. apply flat_map_app. Qed.

Lemma posts_app a b : posts (a ++ b) = posts a ++ posts b.
Proof. apply flat_map_app. Qed.

Lemma files_app a b : files (a ++ b) = files a ++ files b.
Proof. apply flat_map_app. Qed.

Lemma requests_app a b : requests (a ++ b) = requests a ++ requests b.
Proof. apply flat_map_app. Qed.

Lemma sessions_app a b : sessions (a ++ b) = sessions a ++ sessions b.
Proof. apply flat_map_app. Qed.

Lemma posts_of_posted l : posts (map Pipeline.Posted l) = l.
Proof. induction l; simpl; congruence. Qed.

Lemma requests_of_http l : requests (map Pipeline.Http l) = l.
Proof. induction l; simpl; congruence. Qed.

Lemma prompts_of_posted l : prompts (map Pipeline.Posted l) = [].
Proof. induction l; simpl; congruence. Qed.

Lemma prompts_of_printed l : prompts (map Pipeline.Printed l) = [].
Proof. induction l; simpl; congruence. Qed.

Lemma prompts_of_http l : prompts (map Pipeline.Http l) = [].
Proof. induction l; simpl; congruence. Qed.

Lemma posts_of_printed l : posts (map Pipeline.Printed l) = [].
Proof. induction l; simpl; congruence. Qed.

Lemma posts_of_http l : posts (map Pipeline.Http l) = [].
Proof. induction l; simpl; congruence. Qed.

Lemma files_of_posted l : files (map Pipeline.Posted l) = [].
Proof. induction l; simpl; congruence. Qed.

Lemma files_of_printed l : files (map Pipeline.Printed l) = [].
Proof. induction l; simpl; congruence. Qed.

Lemma files_of_http l : files (map Pipeline.Http l) = [].
Proof. induction l; simpl; congruence. Qed.

Lemma requests_of_posted l : requests (map Pipeline.Posted l) = [].
Proof. induction l; simpl; congruence. Qed.

Lemma requests_of_printed l : requests (map Pipeline.Printed l) = [].
Proof. induction l; simpl; congruence. Qed.

Lemma sessions_of_posted l : sessions (map Pipeline.Posted l) = [].
Proof. induction l; simpl; congruence. Qed.

Lemma sessions_of_printed l : sessions (map Pipeline.Printed l) = [].
Proof. induction l; simpl; congruence. Qed.

Lemma sessions_of_http l : sessions (map Pipeline.Http l) = [].
Proof. induction l; simpl; congruence. Qed.

Create Rewrite HintDb obs.

#[local] Hint Rewrite prompts_app posts_app files_app requests_app sessions_app
  posts_of_posted requests_of_http
  prompts_of_posted prompts_of_printed prompts_of_http
  posts_of_printed posts_of_http
  files_of_posted files_of_printed files_of_http
  requests_of_posted requests_of_printed
  sessions_of_posted sessions_of_printed sessions_of_http
  app_nil_r app_nil_l : obs.

Ltac observe :=
  autorewrite with obs;
  cbn [prompts posts files requests sessions flat_map app];
  autorewrite with obs.

Ltac conjuncts := repeat match goal with |- _ /\ _ => split end.

(** One fact about what a run did, once the run is known. *)
Ltac fact :=
  intros; observe;
  first
    [ reflexivity
    | congruence
    | discriminate
    | repeat split; observe; first [reflexivity | congruence | discriminate]
    | exfalso;
      match goal with H : files _ <> [] |- _ => apply H; observe; reflexivity end ].

Lemma print_all_run (lines : list str) :
  forall tr,
  Pipeline.print_all lines tr = (Pipeline.Val tt, tr ++ map Pipeline.Printed lines).
Proof.
  induction lines as [|l rest IH]; intros tr.
  - simpl. unfold Pipeline.ret. now rewrite app_nil_r.
  - cbn [Pipeline.print_all map]. unfold Pipeline.bind, Pipeline.emit.
    rewrite IH. now rewrite <- app_assoc.
Qed.

Section Delivery.

Variable env : Pipeline.environment.
Variables en ru : str.
Variable gemini : str -> option str.
Variable bot_api : list Pipeline.action -> str -> Pipeline.api_answer.
Variable today : list Pipeline.action -> str.
Variable s : Pipeline.script.

Lemma send_run (text : str) (tr : list Pipeline.action) :
  (credentials_missing env = true /\
   Pipeline.send_to_telegram env bot_api today s text tr = (Pipeline.Exit, tr)) \/
  (credentials_missing env = false /\
   exists sent rest,
     send_to_telegram (Pipeline.header_of s (today tr)) text = sent ++ rest /\
     ((rest = [] /\
       Pipeline.send_to_telegram env bot_api today s text tr
       = (Pipeline.Val tt, tr ++ map Pipeline.Posted sent)) \/
      Pipeline.send_to_telegram env bot_api today s text tr
      = (Pipeline.Raise, tr ++ map Pipeline.Posted sent))).
Proof.
  unfold Pipeline.send_to_telegram. fold (credentials_missing env).
  destruct (credentials_missing env); [left; split; reflexivity|].
  right. split; [reflexivity|].
  destruct (post_chunks_run bot_api
              (send_to_telegram (Pipeline.header_of s (today tr)) text) tr)
    as (sent & rest & E & Htr & Hr).
  exists sent, rest. split; [exact E|].
  destruct (Pipeline.post_chunks bot_api _ tr) as [r tr'].
  simpl in Htr, Hr. subst tr'. destruct r as [[]| |].
  - left. now destruct Hr.
  - destruct Hr.
  - now right.
Qed.

Lemma deliver_collected_run (dry_run : bool) (cm : dict) (tr : list Pipeline.action) :
  exists r delta,
    deliver_collected env en ru gemini bot_api today s dry_run cm tr = (r, tr ++ delta) /\
    requests delta = [] /\ sessions delta = [] /\
    (dry_run = true -> posts delta = [] /\ files delta = []) /\
    (cm = [] ->
       prompts delta = [] /\ files delta = [] /\
       exists d rest,
         send_to_telegram (Pipeline.header_of s d) (Pipeline.nothing_new s)
         = posts delta ++ rest) /\
    (cm <> [] -> prompts delta = [full_prompt_of env en ru cm]) /\
    (credentials_missing env = true ->
       posts delta = [] /\ files delta = [] /\
       (dry_run = false -> r <> Pipeline.Val tt)) /\
    (files delta <> [] ->
       r = Pipeline.Val tt /\ dry_run = false /\ cm <> [] /\
       exists summary d1 d2,
         gemini (full_prompt_of env en ru cm) = Some summary /\
         posts delta = send_to_telegram (Pipeline.header_of s d1) summary /\
         files delta
         = [(Pipeline.digest_file s d2, Pipeline.digest_title s d2 ++ summary)]).
Proof.
  unfold deliver_collected. destruct cm as [|kv cm'].
  - (* nothing collected *)
    cbn [null]. destruct dry_run; cbn [negb Pipeline.when].
    + exists (Pipeline.Val tt), []. unfold Pipeline.ret. rewrite app_nil_r.
      conjuncts; try solve [fact].
      intros _. do 2 (split; [reflexivity|]).
      exists [], (send_to_telegram (Pipeline.header_of s []) (Pipeline.nothing_new s)).
      reflexivity.
    + destruct (send_run (Pipeline.nothing_new s) tr)
        as [[Hm E]|(Hm & sent & rest & Hc & [[-> E]|E])]; rewrite E.
      * exists Pipeline.Exit, []. rewrite app_nil_r.
        conjuncts; try solve [fact].
        intros _. do 2 (split; [reflexivity|]).
        exists [], (send_to_telegram (Pipeline.header_of s []) (Pipeline.nothing_new s)).
        reflexivity.
      * exists (Pipeline.Val tt), (map Pipeline.Posted sent).
        conjuncts; try solve [fact].
        intros _. observe. do 2 (split; [reflexivity|]).
        exists (today tr), []. exact Hc.
      * exists Pipeline.Raise, (map Pipeline.Posted sent).
        conjuncts; try solve [fact].
        intros _. observe. do 2 (split; [reflexivity|]).
        exists (today tr), rest. exact Hc.
  - (* something collected *)
    cbn [null]. set (cm := kv :: cm').
    assert (Hne : cm <> []) by discriminate.
    unfold Pipeline.bind at 1. unfold Pipeline.summarize, Pipeline.bind, Pipeline.emit.
    fold (full_prompt_of env en ru cm).
    set (p := full_prompt_of env en ru cm).
    destruct (gemini p) as [summary|] eqn:G.
    + unfold Pipeline.ret. destruct dry_run.
      * rewrite print_all_run.
        exists (Pipeline.Val tt),
          ([Pipeline.Asked p]
             ++ map Pipeline.Printed
                  (Pipeline.dry_run_lines cm (total_messages cm) summary)).
        rewrite app_assoc.
        conjuncts; solve [fact].
      * destruct (send_run summary (tr ++ [Pipeline.Asked p]))
          as [[Hm E]|(Hm & sent & rest & Hc & [[-> E]|E])]; rewrite E.
        -- exists Pipeline.Exit, [Pipeline.Asked p].
           conjuncts; solve [fact].
        -- unfold Pipeline.save_digest, Pipeline.emit.
           rewrite app_nil_r in Hc.
           exists (Pipeline.Val tt),
             ([Pipeline.Asked p] ++ map Pipeline.Posted sent
                ++ [Pipeline.Saved
                      (Pipeline.digest_file s
                         (today ((tr ++ [Pipeline.Asked p]) ++ map Pipeline.Posted sent)))
                      (Pipeline.digest_title s
                         (today ((tr ++ [Pipeline.Asked p]) ++ map Pipeline.Posted sent))
                         ++ summary)]).
           rewrite !app_assoc.
           conjuncts; try solve [fact].
           intros _. do 3 (split; [first [reflexivity|exact Hne]|]).
           exists summary, (today (tr ++ [Pipeline.Asked p])),
             (today ((tr ++ [Pipeline.Asked p]) ++ map Pipeline.Posted sent)).
           split; [first [exact G|reflexivity]|]. observe.
           split; [now symmetry|reflexivity].
        -- exists Pipeline.Raise, ([Pipeline.Asked p] ++ map Pipeline.Posted sent).
           rewrite !app_assoc.
           conjuncts; solve [fact].
    + exists Pipeline.Raise, [Pipeline.Asked p].
      conjuncts; solve [fact].
Qed.

End Delivery.

(** ** The two [run_digest] laid out *)

Section PublicRuns.

Variable env : Pipeline.environment.
Variables en ru : str.
Variable gemini : str -> option str.
Variable bot_api : list Pipeline.action -> str -> Pipeline.api_answer.
Variable today : list Pipeline.action -> str.
Variable srv : Public.server.
Variable now : Z.
Variable file : Pipeline.config_file str.

Lemma public_run_full (dry_run : bool) (tr : list Pipeline.action) :
  PublicMain.run_digest env en ru gemini bot_api today srv now file dry_run false tr
  = if null (Pipeline.GOOGLE_API_KEY env) then (Pipeline.Exit, tr)
    else match file with
         | Pipeline.ConfigMissing => (Pipeline.Exit, tr)
         | Pipeline.ConfigInvalid => (Pipeline.Raise, tr)
         | Pipeline.ConfigLoaded cfg =>
             if null (get (channels cfg) []) then (Pipeline.Exit, tr)
             else deliver_collected env en ru gemini bot_api today PublicMain.script
                    dry_run (fst (Public.collect_messages srv now cfg []))
                    (tr ++ map Pipeline.Http
                             (snd (Public.collect_messages srv now cfg [])))
         end.
Proof.
  unfold PublicMain.run_digest, Pipeline.load_config, PublicMain.collect_messages,
    Pipeline.bind, Pipeline.when, Pipeline.ret, Pipeline.exit, Pipeline.raise.
  destruct dry_run; cbn [negb andb];
    destruct (null (Pipeline.GOOGLE_API_KEY env)); try reflexivity;
    destruct file as [| |cfg]; try reflexivity; cbv beta iota;
    destruct (null (get (channels cfg) [])); try reflexivity;
    destruct (Public.collect_messages srv now cfg []) as [cm http]; cbn [fst snd];
    cbv beta iota; unfold deliver_collected; destruct (null cm); reflexivity.
Qed.

Lemma public_run_preview (dry_run : bool) (tr : list Pipeline.action) :
  PublicMain.run_digest env en ru gemini bot_api today srv now file dry_run true tr
  = match file with
    | Pipeline.ConfigMissing => (Pipeline.Exit, tr)
    | Pipeline.ConfigInvalid => (Pipeline.Raise, tr)
    | Pipeline.ConfigLoaded cfg =>
        if null (get (channels cfg) []) then (Pipeline.Exit, tr)
        else
          let cm := fst (Public.collect_messages srv now cfg []) in
          (Pipeline.Val tt,
           (tr ++ map Pipeline.Http (snd (Public.collect_messages srv now cfg [])))
           ++ (if null cm then []
               else map Pipeline.Printed
                      (PublicMain.preview_lines cm (total_messages cm))))
    end.
Proof.
  unfold PublicMain.run_digest, Pipeline.load_config, PublicMain.collect_messages,
    Pipeline.bind, Pipeline.when, Pipeline.ret, Pipeline.exit, Pipeline.raise.
  cbn [negb andb]. rewrite andb_false_r.
  destruct file as [| |cfg]; try reflexivity. cbv beta iota.
  destruct (null (get (channels cfg) [])); try reflexivity.
  destruct (Public.collect_messages srv now cfg []) as [cm http]; cbn [fst snd].
  cbv beta iota. destruct (null cm).
  - now rewrite app_nil_r.
  - now rewrite print_all_run.
Qed.

End PublicRuns.

Section ClientRuns.

Variable env : Pipeline.environment.
Variables en ru : str.
Variable gemini : str -> option str.
Variable bot_api : list Pipeline.action -> str -> Pipeline.api_answer.
Variable today : list Pipeline.action -> str.
Variable session : option Client.tg_client.
Variable now : Z.
Variable file : Pipeline.config_file Client.channel_id.

Lemma client_run_laid_out (dry_run : bool) (tr : list Pipeline.action) :
  ClientMain.run_digest env en ru gemini bot_api today session now file dry_run tr
  = if (Pipeline.API_ID env =? 0)%Z || null (Pipeline.API_HASH env)
    then (Pipeline.Exit, tr)
    else if null (Pipeline.GOOGLE_API_KEY env) then (Pipeline.Exit, tr)
    else match file with
         | Pipeline.ConfigMissing => (Pipeline.Exit, tr)
         | Pipeline.ConfigInvalid => (Pipeline.Raise, tr)
         | Pipeline.ConfigLoaded cfg =>
             if null (get (channels cfg) []) then (Pipeline.Exit, tr)
             else match session with
                  | None => (Pipeline.Raise, tr ++ [Pipeline.Started])
                  | Some client =>
                      let out :=
                        deliver_collected env en ru gemini bot_api today
                          ClientMain.script dry_run
                          (Client.collect_messages client now cfg)
                          (tr ++ [Pipeline.Started]) in
                      (fst out, snd out ++ [Pipeline.Disconnected])
                  end
         end.
Proof.
  unfold ClientMain.run_digest, ClientMain.start, Pipeline.load_config,
    Pipeline.finally, Pipeline.bind, Pipeline.ret, Pipeline.exit, Pipeline.raise,
    Pipeline.emit.
  destruct ((Pipeline.API_ID env =? 0)%Z || null (Pipeline.API_HASH env));
    try reflexivity.
  destruct (null (Pipeline.GOOGLE_API_KEY env)); try reflexivity.
  destruct file as [| |cfg]; try reflexivity. cbv beta iota.
  destruct (null (get (channels cfg) [])); try reflexivity.
  destruct session as [client|]; try reflexivity. cbv beta iota.
  transitivity
    (let '(r, tr') :=
       deliver_collected env en ru gemini bot_api today ClientMain.script dry_run
         (Client.collect_messages client now cfg) (tr ++ [Pipeline.Started]) in
     (r, tr' ++ [Pipeline.Disconnected])); [reflexivity|].
  destruct (deliver_collected _ _ _ _ _ _ _ _ _ _) as [r tr']. reflexivity.
Qed.

End ClientRuns.

(** ** The modes of a run *)

Lemma null_false {A} (l : list A) : null l = false <-> l <> [].
Proof. destruct l; simpl; split; congruence. Qed.

(** X18.  With [--preview] on the command line the scrape variant stays
    away from Gemini and from the Bot API and writes no file, whatever
    the environment holds: no key, token or identifier is needed.  Unless
    help is asked for, a run over a loaded configuration with channels
    ends normally, and its requests are exactly those of the collection. *)
Theorem preview_is_offline (w : world) (srv : Public.server) (now : Z)
    (file : Pipeline.config_file str) (doc : str) (argv : list str) :
  mem (lit "--preview") argv = true ->
  let out := public_main w srv now file doc argv in
  prompts (snd out) = [] /\ posts (snd out) = [] /\ files (snd out) = [] /\
  (mem (lit "--help") argv = false -> mem (lit "-h") argv = false ->
   forall cfg, file = Pipeline.ConfigLoaded cfg -> get (channels cfg) [] <> [] ->
   fst out = Pipeline.Val tt /\
   requests (snd out) = snd (Public.collect_messages srv now cfg [])).
Proof.
  intros Hp. unfold public_main, PublicMain.main.
  destruct (mem (lit "--help") argv || mem (lit "-h") argv) eqn:Hh.
  - cbv zeta. unfold Pipeline.emit. cbn [fst snd app].
    conjuncts; try reflexivity.
    intros H1 H2. rewrite H1, H2 in Hh. discriminate.
  - rewrite Hp, public_run_preview. destruct file as [| |cfg0].
    + cbv zeta. cbn [fst snd]. conjuncts; try reflexivity. intros; discriminate.
    + cbv zeta. cbn [fst snd]. conjuncts; try reflexivity. intros; discriminate.
    + destruct (null (get (channels cfg0) [])) eqn:Hn.
      * cbv zeta. cbn [fst snd]. conjuncts; try reflexivity.
        intros _ _ cfg E Hc. inversion E; subst cfg0.
        apply null_nil in Hn. contradiction.
      * cbv zeta. cbn [fst snd].
        destruct (null (fst (Public.collect_messages srv now cfg0 [])));
          conjuncts; try solve [fact];
          intros _ _ cfg E _; inversion E; subst cfg0; split; solve [fact].
Qed.

Lemma preview_is_offline_witness :
  let out := public_main (world_of World.bare World.accepting) Scenario.srv 0
               World.public_file World.doc [lit "digest"; lit "--preview"] in
  prompts (snd out) = [] /\ posts (snd out) = [] /\ files (snd out) = [] /\
  fst out = Pipeline.Val tt.
Proof.
  destruct (preview_is_offline (world_of World.bare World.accepting) Scenario.srv 0
              World.public_file World.doc [lit "digest"; lit "--preview"] eq_refl)
    as (H1 & H2 & H3 & H4).
  cbv zeta. conjuncts; try assumption.
  apply (H4 eq_refl eq_refl (Scenario.config_of [lit "a"; lit "b"] 100) eq_refl).
  discriminate.
Defined.

(** X19.  With [--dry-run] on the command line nothing is posted to the
    Bot API and no digest file is written, in either script (for the
    client variant: unless [--auth] is given too, which runs the
    authentication instead). *)
Theorem dry_run_never_delivers (w : world) (doc : str) (argv : list str) :
  mem (lit "--dry-run") argv = true ->
  (forall srv now file,
     let out := public_main w srv now file doc argv in
     posts (snd out) = [] /\ files (snd out) = []) /\
  (forall session now file run_auth,
     mem (lit "--auth") argv = false ->
     let out := client_main w session now file doc run_auth argv in
     posts (snd out) = [] /\ files (snd out) = []).
Proof.
  intros Hd. split.
  - intros srv now file. unfold public_main, PublicMain.main.
    destruct (mem (lit "--help") argv || mem (lit "-h") argv).
    { cbv zeta. unfold Pipeline.emit. cbn [snd]. split; reflexivity. }
    destruct (mem (lit "--preview") argv).
    + rewrite public_run_preview. destruct file as [| |cfg]; try (split; reflexivity).
      destruct (null (get (channels cfg) [])); try (split; reflexivity).
      cbv zeta. cbn [snd].
      destruct (null (fst (Public.collect_messages srv now cfg []))); split; fact.
    + rewrite Hd, public_run_full.
      destruct (null (Pipeline.GOOGLE_API_KEY (w_env w))); try (split; reflexivity).
      destruct file as [| |cfg]; try (split; reflexivity).
      destruct (null (get (channels cfg) [])); try (split; reflexivity).
      destruct (deliver_collected_run (w_env w) (w_en w) (w_ru w) (w_gemini w)
                  (w_bot_api w) (w_today w) PublicMain.script true
                  (fst (Public.collect_messages srv now cfg []))
                  ([] ++ map Pipeline.Http
                           (snd (Public.collect_messages srv now cfg []))))
        as (r & delta & E & _ & _ & Hdry & _).
      rewrite E. cbv zeta. cbn [snd]. destruct (Hdry eq_refl) as [Hp Hf].
      split; observe; assumption.
  - intros session now file run_auth Ha. unfold client_main, ClientMain.main.
    rewrite Ha, Hd, client_run_laid_out.
    destruct ((Pipeline.API_ID (w_env w) =? 0)%Z || null (Pipeline.API_HASH (w_env w)));
      try (split; reflexivity).
    destruct (null (Pipeline.GOOGLE_API_KEY (w_env w))); try (split; reflexivity).
    destruct file as [| |cfg]; try (split; reflexivity).
    destruct (null (get (channels cfg) [])); try (split; reflexivity).
    destruct session as [client|]; try (split; reflexivity).
    destruct (deliver_collected_run (w_env w) (w_en w) (w_ru w) (w_gemini w)
                (w_bot_api w) (w_today w) ClientMain.script true
                (Client.collect_messages client now cfg) ([] ++ [Pipeline.Started]))
      as (r & delta & E & _ & _ & Hdry & _).
    rewrite E. cbv zeta. cbn [fst snd]. destruct (Hdry eq_refl) as [Hp Hf].
    split; observe; rewrite ?Hp, ?Hf; reflexivity.
Qed.

Lemma dry_run_never_delivers_witness :
  (let out := public_main (world_of World.env World.accepting) Scenario.srv 0
                World.public_file World.doc [lit "digest"; lit "--dry-run"] in
   posts (snd out) = [] /\ files (snd out) = []) /\
  (let out := client_main (world_of World.env World.accepting) (Some Scenario.client) 0
                World.client_file World.doc (Pipeline.ret tt)
                [lit "digest"; lit "--dry-run"] in
   posts (snd out) = [] /\ files (snd out) = []).
Proof.
  destruct (dry_run_never_delivers (world_of World.env World.accepting) World.doc
              [lit "digest"; lit "--dry-run"] eq_refl) as [HP HC].
  split.
  - apply HP.
  - apply HC. reflexivity.
Defined.

(** X20.  A missing prerequisite ends the run with exit status 1 before
    anything is requested, printed or sent.  Scrape variant: no Gemini key
    outside a preview (a dry run needs the key as well), no configuration
    file, or no channel in it.  Client variant: no API id or hash, no
    Gemini key, no configuration file, or no channel in it; the client is
    not even started. *)
Theorem missing_prerequisite_stops_before_any_action (w : world) :
  (forall srv now file dry_run preview,
     (preview = false /\ Pipeline.GOOGLE_API_KEY (w_env w) = []) \/
     file = Pipeline.ConfigMissing \/
     (exists cfg, file = Pipeline.ConfigLoaded cfg /\ get (channels cfg) [] = []) ->
     public_run w srv now file dry_run preview = (Pipeline.Exit, [])) /\
  (forall session now file dry_run,
     Pipeline.API_ID (w_env w) = 0%Z \/ Pipeline.API_HASH (w_env w) = [] \/
     Pipeline.GOOGLE_API_KEY (w_env w) = [] \/
     file = Pipeline.ConfigMissing \/
     (exists cfg, file = Pipeline.ConfigLoaded cfg /\ get (channels cfg) [] = []) ->
     client_run w session now file dry_run = (Pipeline.Exit, [])).
Proof.
  split.
  - intros srv now file dry_run preview H. unfold public_run.
    destruct preview; [rewrite public_run_preview|rewrite public_run_full].
    + destruct H as [[Hp _]|[->|(cfg & -> & Hc)]];
        [discriminate|reflexivity|now rewrite Hc].
    + destruct H as [[_ Hk]|[->|(cfg & -> & Hc)]].
      * now rewrite Hk.
      * now destruct (null _).
      * rewrite Hc. now destruct (null _).
  - intros session now file dry_run H. unfold client_run.
    rewrite client_run_laid_out.
    destruct H as [Hi|[Hh|[Hk|[->|(cfg & -> & Hc)]]]].
    + now rewrite Hi.
    + rewrite Hh. now rewrite orb_true_r.
    + rewrite Hk. now destruct (_ || _).
    + destruct (_ || _); [reflexivity|]. now destruct (null _).
    + rewrite Hc. destruct (_ || _); [reflexivity|]. now destruct (null _).
Qed.

Lemma missing_prerequisite_stops_before_any_action_witness :
  public_run (world_of World.bare World.accepting) Scenario.srv 0
    World.public_file true false = (Pipeline.Exit, []) /\
  client_run (world_of World.bare World.accepting) (Some Scenario.client) 0
    World.client_file false = (Pipeline.Exit, []).
Proof.
  destruct (missing_prerequisite_stops_before_any_action
              (world_of World.bare World.accepting)) as [HP HC].
  split.
  - apply HP. left. split; reflexivity.
  - apply HC. left. reflexivity.
Defined.

(** X21.  The delivery settings (bot token, group and topic) are tested
    inside [send_to_telegram] only.  A full run without them still does
    the whole collection and, when something was collected, the Gemini
    request; only then does it end, not normally, with nothing posted and
    nothing saved. *)
Theorem credentials_checked_after_summary (w : world) :
  credentials_missing (w_env w) = true ->
  (forall srv now cfg,
     Pipeline.GOOGLE_API_KEY (w_env w) <> [] -> get (channels cfg) [] <> [] ->
     let collected := Public.collect_messages srv now cfg [] in
     let out := public_run w srv now (Pipeline.ConfigLoaded cfg) false false in
     fst out <> Pipeline.Val tt /\
     requests (snd out) = snd collected /\
     posts (snd out) = [] /\ files (snd out) = [] /\
     (fst collected <> [] -> prompts (snd out) = [prompt_for w (fst collected)])) /\
  (forall client now cfg,
     Pipeline.API_ID (w_env w) <> 0%Z -> Pipeline.API_HASH (w_env w) <> [] ->
     Pipeline.GOOGLE_API_KEY (w_env w) <> [] -> get (channels cfg) [] <> [] ->
     let collected := Client.collect_messages client now cfg in
     let out := client_run w (Some client) now (Pipeline.ConfigLoaded cfg) false in
     fst out <> Pipeline.Val tt /\
     posts (snd out) = [] /\ files (snd out) = [] /\
     (collected <> [] -> prompts (snd out) = [prompt_for w collected])).
Proof.
  intros Hm. split.
  - intros srv now cfg Hk Hc collected out. subst collected out.
    unfold public_run. rewrite public_run_full.
    apply null_false in Hk. apply null_false in Hc. rewrite Hk, Hc.
    destruct (deliver_collected_run (w_env w) (w_en w) (w_ru w) (w_gemini w)
                (w_bot_api w) (w_today w) PublicMain.script false
                (fst (Public.collect_messages srv now cfg []))
                ([] ++ map Pipeline.Http
                         (snd (Public.collect_messages srv now cfg []))))
      as (r & delta & E & Hreq & _ & _ & _ & Hne & Hcred & _).
    rewrite E. cbn [fst snd]. destruct (Hcred Hm) as (Hp & Hf & Hr).
    conjuncts; observe; rewrite ?Hreq, ?Hp, ?Hf, ?app_nil_r; auto.
  - intros client now cfg Hi Hh Hk Hc collected out. subst collected out.
    unfold client_run. rewrite client_run_laid_out.
    apply Z.eqb_neq in Hi. apply null_false in Hh. apply null_false in Hk.
    apply null_false in Hc. rewrite Hi, Hh, Hk, Hc. cbn [orb].
    destruct (deliver_collected_run (w_env w) (w_en w) (w_ru w) (w_gemini w)
                (w_bot_api w) (w_today w) ClientMain.script false
                (Client.collect_messages client now cfg) ([] ++ [Pipeline.Started]))
      as (r & delta & E & _ & _ & _ & _ & Hne & Hcred & _).
    rewrite E. cbv zeta. cbn [fst snd]. destruct (Hcred Hm) as (Hp & Hf & Hr).
    conjuncts; observe; rewrite ?Hp, ?Hf, ?app_nil_r; auto.
Qed.

Lemma credentials_checked_after_summary_witness :
  (let out := public_run (world_of World.no_bot World.accepting) Scenario.srv 0
                World.public_file false false in
   fst out <> Pipeline.Val tt /\ posts (snd out) = [] /\ files (snd out) = [] /\
   length (prompts (snd out)) = 1) /\
  (let out := client_run (world_of World.no_bot World.accepting) (Some Scenario.client) 0
                World.client_file false in
   fst out <> Pipeline.Val tt /\ posts (snd out) = [] /\ files (snd out) = [] /\
   length (prompts (snd out)) = 1).
Proof.
  destruct (credentials_checked_after_summary
              (world_of World.no_bot World.accepting) eq_refl) as [HP HC].
  split.
  - destruct (HP Scenario.srv 0%Z (Scenario.config_of [lit "a"; lit "b"] 100))
      as (H1 & _ & H3 & H4 & H5); [discriminate|discriminate|].
    cbv zeta. conjuncts; try assumption.
    unfold World.public_file. rewrite H5; [reflexivity|].
    vm_compute. discriminate.
  - destruct (HC Scenario.client 0%Z
                (Scenario.config_of [Client.ChanName (lit "a"); Client.ChanName (lit "b")] 100))
      as (H1 & H3 & H4 & H5); [discriminate|discriminate|discriminate|discriminate|].
    cbv zeta. conjuncts; try assumption.
    unfold World.client_file. rewrite H5; [reflexivity|].
    vm_compute. discriminate.
Defined.

(** X22.  A digest file is written by a full run only, and only after
    every chunk of the summary has been posted without an exception: when
    a file was written the run ended normally, the posted chunks are all
    the chunks of the text Gemini returned for the collected messages, and
    the one file holds the title line followed by that same text. *)
Theorem saved_digest_was_delivered (w : world) :
  (forall srv now file dry_run preview,
     let out := public_run w srv now file dry_run preview in
     files (snd out) <> [] ->
     fst out = Pipeline.Val tt /\ dry_run = false /\ preview = false /\
     exists cfg summary d1 d2,
       file = Pipeline.ConfigLoaded cfg /\
       w_gemini w (prompt_for w (fst (Public.collect_messages srv now cfg [])))
       = Some summary /\
       posts (snd out) = send_to_telegram (header_public d1) summary /\
       files (snd out)
       = [(d2 ++ lit "-public.md",
           (lit "# Public Channel Digest " ++ [EM_DASH] ++ lit " " ++ d2 ++ [NL; NL])
             ++ summary)]) /\
  (forall session now file dry_run,
     let out := client_run w session now file dry_run in
     files (snd out) <> [] ->
     fst out = Pipeline.Val tt /\ dry_run = false /\
     exists client cfg summary d1 d2,
       session = Some client /\ file = Pipeline.ConfigLoaded cfg /\
       w_gemini w (prompt_for w (Client.collect_messages client now cfg))
       = Some summary /\
       posts (snd out) = send_to_telegram (header_client d1) summary /\
       files (snd out)
       = [(d2 ++ lit ".md",
           (lit "# Channel Digest " ++ [EM_DASH] ++ lit " " ++ d2 ++ [NL; NL])
             ++ summary)]).
Proof.
  split.
  - intros srv now file dry_run preview. unfold public_run.
    destruct preview.
    { rewrite public_run_preview. cbv zeta.
      destruct file as [| |cfg]; try (intros H; now elim H).
      destruct (null (get (channels cfg) [])); try (intros H; now elim H).
      cbv zeta. cbn [snd]. intros H. exfalso. apply H.
      destruct (null (fst (Public.collect_messages srv now cfg []))); fact. }
    rewrite public_run_full. cbv zeta.
    destruct (null (Pipeline.GOOGLE_API_KEY (w_env w))); try (intros H; now elim H).
    destruct file as [| |cfg]; try (intros H; now elim H).
    destruct (null (get (channels cfg) [])); try (intros H; now elim H).
    destruct (deliver_collected_run (w_env w) (w_en w) (w_ru w) (w_gemini w)
                (w_bot_api w) (w_today w) PublicMain.script dry_run
                (fst (Public.collect_messages srv now cfg []))
                ([] ++ map Pipeline.Http
                         (snd (Public.collect_messages srv now cfg []))))
      as (r & delta & E & _ & _ & _ & _ & _ & _ & Hsaved).
    rewrite E. cbn [fst snd]. observe. intros Hf.
    destruct (Hsaved Hf) as (Hr & Hd & _ & summary & d1 & d2 & Hg & Hp & Hfiles).
    conjuncts; try assumption; try reflexivity.
    exists cfg, summary, d1, d2. conjuncts; try assumption; reflexivity.
  - intros session now file dry_run. unfold client_run.
    rewrite client_run_laid_out. cbv zeta.
    destruct ((Pipeline.API_ID (w_env w) =? 0)%Z || null (Pipeline.API_HASH (w_env w)));
      try (intros H; now elim H).
    destruct (null (Pipeline.GOOGLE_API_KEY (w_env w))); try (intros H; now elim H).
    destruct file as [| |cfg]; try (intros H; now elim H).
    destruct (null (get (channels cfg) [])); try (intros H; now elim H).
    destruct session as [client|]; try (intros H; now elim H).
    destruct (deliver_collected_run (w_env w) (w_en w) (w_ru w) (w_gemini w)
                (w_bot_api w) (w_today w) ClientMain.script dry_run
                (Client.collect_messages client now cfg) ([] ++ [Pipeline.Started]))
      as (r & delta & E & _ & _ & _ & _ & _ & _ & Hsaved).
    rewrite E. cbn [fst snd]. observe. intros Hf.
    destruct (Hsaved Hf) as (Hr & Hd & _ & summary & d1 & d2 & Hg & Hp & Hfiles).
    conjuncts; try assumption.
    exists client, cfg, summary, d1, d2. rewrite Hp, Hfiles.
    conjuncts; try assumption; reflexivity.
Qed.

Lemma saved_digest_was_delivered_witness :
  let out := public_run (world_of World.env World.refusing) Scenario.srv 0
               World.public_file false false in
  fst out = Pipeline.Val tt /\
  posts (snd out)
  = send_to_telegram (header_public (lit "2026-01-01")) (lit "All quiet.").
Proof.
  destruct (saved_digest_was_delivered (world_of World.env World.refusing)) as [HP _].
  destruct (HP Scenario.srv 0%Z World.public_file false false)
    as (H1 & _ & _ & cfg & summary & d1 & d2 & _ & _ & _ & _).
  - vm_compute. discriminate.
  - cbv zeta. split; [exact H1|]. vm_compute. reflexivity.
Defined.

(** X23.  Gemini is asked at most once in a run, never in a preview and
    never when nothing was collected; the one prompt is the prompt text of
    the configured language, an empty line, and the formatted mapping that
    [collect_messages] returned. *)
Theorem summary_request_is_single (w : world) :
  (forall srv now file dry_run preview,
     let out := public_run w srv now file dry_run preview in
     prompts (snd out) = [] \/
     exists cfg,
       file = Pipeline.ConfigLoaded cfg /\ preview = false /\
       fst (Public.collect_messages srv now cfg []) <> [] /\
       prompts (snd out)
       = [Pipeline.get_summarize_prompt (w_env w) (w_en w) (w_ru w) ++ [NL; NL]
            ++ format_for_llm (fst (Public.collect_messages srv now cfg []))]) /\
  (forall session now file dry_run,
     let out := client_run w session now file dry_run in
     prompts (snd out) = [] \/
     exists client cfg,
       session = Some client /\ file = Pipeline.ConfigLoaded cfg /\
       Client.collect_messages client now cfg <> [] /\
       prompts (snd out)
       = [Pipeline.get_summarize_prompt (w_env w) (w_en w) (w_ru w) ++ [NL; NL]
            ++ format_for_llm (Client.collect_messages client now cfg)]).
Proof.
  split.
  - intros srv now file dry_run preview. unfold public_run.
    destruct preview.
    { rewrite public_run_preview. cbv zeta. left.
      destruct file as [| |cfg]; try reflexivity.
      destruct (null (get (channels cfg) [])); try reflexivity.
      cbv zeta. cbn [snd].
      destruct (null (fst (Public.collect_messages srv now cfg []))); fact. }
    rewrite public_run_full. cbv zeta.
    destruct (null (Pipeline.GOOGLE_API_KEY (w_env w))); [now left|].
    destruct file as [| |cfg]; try (now left).
    destruct (null (get (channels cfg) [])); [now left|].
    destruct (deliver_collected_run (w_env w) (w_en w) (w_ru w) (w_gemini w)
                (w_bot_api w) (w_today w) PublicMain.script dry_run
                (fst (Public.collect_messages srv now cfg []))
                ([] ++ map Pipeline.Http
                         (snd (Public.collect_messages srv now cfg []))))
      as (r & delta & E & _ & _ & _ & Hnone & Hsome & _).
    rewrite E. cbn [snd]. observe.
    destruct (fst (Public.collect_messages srv now cfg [])) as [|kv cm] eqn:C.
    + left. now apply Hnone.
    + right. exists cfg. rewrite C. conjuncts; try reflexivity; try discriminate.
      apply Hsome. discriminate.
  - intros session now file dry_run. unfold client_run.
    rewrite client_run_laid_out. cbv zeta.
    destruct ((Pipeline.API_ID (w_env w) =? 0)%Z || null (Pipeline.API_HASH (w_env w)));
      [now left|].
    destruct (null (Pipeline.GOOGLE_API_KEY (w_env w))); [now left|].
    destruct file as [| |cfg]; try (now left).
    destruct (null (get (channels cfg) [])); [now left|].
    destruct session as [client|]; [|now left].
    destruct (deliver_collected_run (w_env w) (w_en w) (w_ru w) (w_gemini w)
                (w_bot_api w) (w_today w) ClientMain.script dry_run
                (Client.collect_messages client now cfg) ([] ++ [Pipeline.Started]))
      as (r & delta & E & _ & _ & _ & Hnone & Hsome & _).
    rewrite E. cbn [snd]. observe.
    destruct (Client.collect_messages client now cfg) as [|kv cm] eqn:C.
    + left. destruct (Hnone eq_refl) as [Hp _]. now rewrite Hp.
    + right. exists client, cfg. rewrite C.
      conjuncts; try reflexivity; try discriminate.
      rewrite Hsome; [reflexivity|discriminate].
Qed.

(** ** A run that collects nothing *)

Lemma header_public_length (d : str) :
  length (header_public d) = 33 + length d.
Proof. unfold header_public. rewrite !length_app. simpl. lia. Qed.

Lemma header_client_length (d : str) :
  length (header_client d) = 26 + length d.
Proof. unfold header_client. rewrite !length_app. simpl. lia. Qed.

Lemma single_post (bot_api : list Pipeline.action -> str -> Pipeline.api_answer)
    (chunk : str) (tr : list Pipeline.action) :
  snd (Pipeline.post_chunks bot_api [chunk] tr) = tr ++ [Pipeline.Posted chunk] /\
  (fst (Pipeline.post_chunks bot_api [chunk] tr) = Pipeline.Raise
   <-> bot_api tr chunk = Pipeline.ApiError) /\
  (fst (Pipeline.post_chunks bot_api [chunk] tr) = Pipeline.Val tt
   <-> bot_api tr chunk <> Pipeline.ApiError).
Proof.
  simpl. unfold Pipeline.ret.
  destruct (bot_api tr chunk); simpl; repeat split; congruence.
Qed.

(** X24.  When nothing was collected, a full run with the delivery
    settings in place posts exactly one message, the header of the day
    followed by the "No new messages" notice of the script, and does
    nothing else after the collection: Gemini is not asked, nothing is
    printed or saved.  The run ends normally unless that one request
    raises.  (The day is a date of ten characters.) *)
Theorem nothing_collected_single_notice (w : world) :
  credentials_missing (w_env w) = false ->
  Pipeline.GOOGLE_API_KEY (w_env w) <> [] ->
  (forall srv now cfg,
     get (channels cfg) [] <> [] ->
     fst (Public.collect_messages srv now cfg []) = [] ->
     let http := map Pipeline.Http (snd (Public.collect_messages srv now cfg [])) in
     let notice : str :=
       header_public (w_today w http)
         ++ lit "No new messages from tracked public channels in the last 24h." in
     length (w_today w http) = 10 ->
     let out := public_run w srv now (Pipeline.ConfigLoaded cfg) false false in
     snd out = http ++ [Pipeline.Posted notice] /\
     (fst out = Pipeline.Val tt <-> w_bot_api w http notice <> Pipeline.ApiError)) /\
  (forall client now cfg,
     Pipeline.API_ID (w_env w) <> 0%Z -> Pipeline.API_HASH (w_env w) <> [] ->
     get (channels cfg) [] <> [] ->
     Client.collect_messages client now cfg = [] ->
     let notice : str :=
       header_client (w_today w [Pipeline.Started])
         ++ lit "No new messages from tracked channels in the last 24h." in
     length (w_today w [Pipeline.Started]) = 10 ->
     let out := client_run w (Some client) now (Pipeline.ConfigLoaded cfg) false in
     snd out = [Pipeline.Started; Pipeline.Posted notice; Pipeline.Disconnected] /\
     (fst out = Pipeline.Val tt
      <-> w_bot_api w [Pipeline.Started] notice <> Pipeline.ApiError)).
Proof.
  intros Hcred Hk. apply null_false in Hk. split.
  - intros srv now cfg Hc Hnone http notice Hday out. subst out.
    unfold public_run. rewrite public_run_full. apply null_false in Hc.
    rewrite Hk, Hc, Hnone. unfold deliver_collected. cbn [null negb Pipeline.when].
    unfold Pipeline.send_to_telegram. fold (credentials_missing (w_env w)).
    rewrite Hcred. cbn [app]. fold http.
    assert (Hone : send_to_telegram (Pipeline.header_of PublicMain.script (w_today w http))
                     (Pipeline.nothing_new PublicMain.script) = [notice]).
    { unfold send_to_telegram.
      change (Pipeline.header_of PublicMain.script (w_today w http)
                ++ Pipeline.nothing_new PublicMain.script) with notice.
      assert (Hlen : (length notice <=? TG_MAX_MESSAGE_LENGTH) = true).
      { unfold notice. rewrite length_app, header_public_length, Hday. reflexivity. }
      rewrite Hlen. reflexivity. }
    rewrite Hone. destruct (single_post (w_bot_api w) notice http) as (H1 & _ & H3).
    split; [exact H1|exact H3].
  - intros client now cfg Hi Hh Hc Hnone notice Hday out. subst out.
    unfold client_run. rewrite client_run_laid_out.
    apply Z.eqb_neq in Hi. apply null_false in Hh. apply null_false in Hc.
    rewrite Hi, Hh, Hk, Hc, Hnone. cbn [orb].
    unfold deliver_collected. cbn [null negb Pipeline.when].
    unfold Pipeline.send_to_telegram. fold (credentials_missing (w_env w)).
    rewrite Hcred. cbn [app].
    assert (Hone : send_to_telegram
                     (Pipeline.header_of ClientMain.script (w_today w [Pipeline.Started]))
                     (Pipeline.nothing_new ClientMain.script) = [notice]).
    { unfold send_to_telegram.
      change (Pipeline.header_of ClientMain.script (w_today w [Pipeline.Started])
                ++ Pipeline.nothing_new ClientMain.script) with notice.
      assert (Hlen : (length notice <=? TG_MAX_MESSAGE_LENGTH) = true).
      { unfold notice. rewrite length_app, header_client_length, Hday. reflexivity. }
      rewrite Hlen. reflexivity. }
    rewrite Hone.
    destruct (single_post (w_bot_api w) notice [Pipeline.Started]) as (H1 & _ & H3).
    rewrite H1. unfold fst at 2. unfold snd at 1. split; [reflexivity|exact H3].
Qed.

Lemma nothing_collected_single_notice_witness :
  let out := public_run (world_of World.env World.accepting) Scenario.srv 0
               World.quiet_file false false in
  fst out = Pipeline.Val tt /\ length (posts (snd out)) = 1.
Proof.
  destruct (nothing_collected_single_notice (world_of World.env World.accepting))
    as [HP _]; [reflexivity|discriminate|].
  destruct (HP Scenario.srv 0%Z (Scenario.config_of [lit "nobody"] 100))
    as [H1 H2]; [discriminate|reflexivity|reflexivity|].
  cbv zeta. split.
  - apply H2. discriminate.
  - unfold World.quiet_file. rewrite H1. vm_compute. reflexivity.
Defined.

(** ** The client session *)

(** X25.  The client variant starts the Telegram client at most once, and
    not at all when a prerequisite is missing.  Once started, the client
    is disconnected as the very last action of the run, however the run
    ends: normally, in the exit of [send_to_telegram], or in an exception
    of Gemini or of the Bot API.  Only a [client.start()] that itself
    raises leaves nothing to disconnect. *)
Theorem client_session_always_closed (w : world)
    (session : option Client.tg_client) (now : Z)
    (file : Pipeline.config_file Client.channel_id) (dry_run : bool) :
  let out := client_run w session now file dry_run in
  snd out = [] \/
  (session = None /\ out = (Pipeline.Raise, [Pipeline.Started])) \/
  exists middle,
    snd out = Pipeline.Started :: middle ++ [Pipeline.Disconnected] /\
    sessions middle = [].
Proof.
  unfold client_run. rewrite client_run_laid_out. cbv zeta.
  destruct ((Pipeline.API_ID (w_env w) =? 0)%Z || null (Pipeline.API_HASH (w_env w)));
    [now left|].
  destruct (null (Pipeline.GOOGLE_API_KEY (w_env w))); [now left|].
  destruct file as [| |cfg]; try (now left).
  destruct (null (get (channels cfg) [])); [now left|].
  destruct session as [client|]; [|right; left; split; reflexivity].
  destruct (deliver_collected_run (w_env w) (w_en w) (w_ru w) (w_gemini w)
              (w_bot_api w) (w_today w) ClientMain.script dry_run
              (Client.collect_messages client now cfg) ([] ++ [Pipeline.Started]))
    as (r & delta & E & _ & Hses & _).
  rewrite E. cbn [fst snd app]. right. right. exists delta. split; [reflexivity|exact Hses].
Qed.

(** ** The two dedup keys compared *)

Lemma is_space_lower (c : ascii) : is_space (lower_char c) = is_space c.
Proof. destruct c as [[] [] [] [] [] [] [] []]; reflexivity. Qed.

Lemma lstrip_lower (s : str) :
  lstrip_by is_space (lower s) = lower (lstrip_by is_space s).
Proof.
  induction s as [|c t IH]; [reflexivity|].
  cbn [lower map lstrip_by]. rewrite is_space_lower.
  destruct (is_space c); [exact IH|reflexivity].
Qed.

Lemma rstrip_lower (s : str) :
  rstrip_by is_space (lower s) = lower (rstrip_by is_space s).
Proof.
  induction s as [|c t IH]; [reflexivity|].
  cbn [lower map rstrip_by]. fold (lower t). rewrite is_space_lower, IH.
  assert (N : null (lower (rstrip_by is_space t)) = null (rstrip_by is_space t)).
  { now destruct (rstrip_by is_space t). }
  rewrite N. now destruct (is_space c && null (rstrip_by is_space t)).
Qed.

Lemma strip_lower (s : str) : strip (lower s) = lower (strip s).
Proof. unfold strip. now rewrite lstrip_lower, rstrip_lower. Qed.

Lemma run_len_space_lower (s : str) :
  run_len is_space (lower s) = run_len is_space s.
Proof.
  induction s as [|c t IH]; [reflexivity|].
  cbn [lower map run_len]. fold (lower t). rewrite is_space_lower, IH. reflexivity.
Qed.

Lemma collapse_whitespace_lower (s : str) :
  forall skip,
  re_sub_from (match_run is_space 1) [SP] skip (lower s)
  = lower (re_sub_from (match_run is_space 1) [SP] skip s).
Proof.
  induction s as [|c t IH]; intros skip; [reflexivity|].
  cbn [lower map re_sub_from]. fold (lower t).
  destruct skip as [|k]; [|apply IH].
  change (lower_char c :: lower t) with (lower (c :: t)).
  unfold match_run. rewrite run_len_space_lower.
  destruct (1 <=? run_len is_space (c :: t)).
  - destruct (run_len is_space (c :: t)) as [|n].
    + cbn [lower map]. fold (lower t). now rewrite IH.
    + rewrite IH. reflexivity.
  - cbn [lower map]. fold (lower t). now rewrite IH.
Qed.

(** X26.  The dedup key of the scrape variant is coarser than that of
    the client variant: two texts with the same client key (equal first
    hundred characters up to letter case) have the same scrape key as
    well.  What the client variant drops as a duplicate, the scrape
    variant would drop too; the converse fails for texts that differ in
    whitespace only. *)
Theorem client_key_refines_scrape_key (a b : str) :
  Client.text_key a = Client.text_key b -> Public.text_key a = Public.text_key b.
Proof.
  unfold Client.text_key, Public.text_key, re_sub. intros H.
  rewrite <- !strip_lower, <- !collapse_whitespace_lower. now rewrite H.
Qed.

Lemma client_key_refines_scrape_key_witness :
  Public.text_key (lit "Markets RALLY  today") = Public.text_key (lit "markets rally  TODAY").
Proof.
  apply (client_key_refines_scrape_key
           (lit "Markets RALLY  today") (lit "markets rally  TODAY")).
  vm_compute. reflexivity.
Defined.
